(** * kcdshop workshop app: admin route and client hints

    A shallow embedding of
      - [packages/workshop-app/app/routes/admin/index.tsx]
        ([loader], [action], [AdminLayout], [Pinger]) and
      - the client-hints utilities ([clientHints], [getCookieValue],
        [getHints], the inline script of [ClientHintCheck]) and
      - the hidden inputs of the diff form ([components/diff.tsx])
    together with the part of the JavaScript runtime these functions lean
    on: arrays ([filter], [findIndex]), [Map], ordinary objects and their
    own-property order, [Object.entries], and the JSON transport between a
    Remix loader and [useLoaderData]. *)

From Stdlib Require Import List String Ascii ZArith NArith Bool Lia.
From Stdlib Require Import Permutation Sorted.
Import ListNotations.
Local Open Scope string_scope.
Local Open Scope Z_scope.
Local Open Scope list_scope.

Set Implicit Arguments.

(* ================================================================== *)
(** * JavaScript runtime model *)
(* ================================================================== *)

Module Js.

(** ** Arrays *)

(** [Array.prototype.findIndex]: index of the first element satisfying
    [p], [-1] when there is none.  [findIndex_from] carries the index of
    the head of the remaining suffix. *)
Fixpoint findIndex_from {A} (p : A -> bool) (ar : list A) (i : Z) : Z :=
  match ar with
  | [] => -1
  | x :: rest => if p x then i else findIndex_from p rest (i + 1)
  end.

Definition findIndex {A} (p : A -> bool) (ar : list A) : Z :=
  findIndex_from p ar 0.

(** [Array.prototype.filter] with the three-argument callback
    [(element, index, array)]. *)
Fixpoint filter_from {A} (p : A -> Z -> list A -> bool)
         (ar : list A) (l : list A) (i : Z) : list A :=
  match l with
  | [] => []
  | a :: rest =>
      if p a i ar then a :: filter_from p ar rest (i + 1)
      else filter_from p ar rest (i + 1)
  end.

Definition Array_filter {A} (p : A -> Z -> list A -> bool) (ar : list A)
  : list A :=
  filter_from p ar ar 0.

(** [Array.prototype.find]. *)
Definition Array_find {A} (p : A -> bool) (ar : list A) : option A :=
  List.find p ar.

(** ** Values *)

(** The values the admin loader builds and the view reads.  Numbers are
    ports, pids and exit codes, hence integers.  [VObj] is a plain object
    (prototype [Object.prototype]) given by its own properties in creation
    order; [VNative] stands for a built-in of the runtime such as
    [Object.prototype.toString]. *)
#[warnings="-register-all"]
Inductive JsVal : Type :=
| VUndefined
| VNull
| VBool (b : bool)
| VNum (n : Z)
| VStr (s : string)
| VObj (props : list (string * JsVal))
| VNative (what : string).

(** [ToBoolean]. *)
Definition truthy (v : JsVal) : bool :=
  match v with
  | VUndefined | VNull => false
  | VBool b => b
  | VNum n => negb (n =? 0)
  | VStr s => negb (s =? EmptyString)%string
  | VObj _ | VNative _ => true
  end.

Definition of_optnum (o : option Z) : JsVal :=
  match o with
  | Some n => VNum n
  | None => VUndefined
  end.

(** ** Own-property order of ordinary objects *)

Definition is_digit (c : ascii) : bool :=
  let n := nat_of_ascii c in
  (48 <=? n)%nat && (n <=? 57)%nat.

Definition digit_val (c : ascii) : N :=
  N.of_nat (nat_of_ascii c - 48).

Fixpoint decimal_from (acc : N) (s : string) : option N :=
  match s with
  | EmptyString => Some acc
  | String c rest =>
      if is_digit c then decimal_from (10 * acc + digit_val c)%N rest
      else None
  end.

(** An array index is a canonical numeric string (decimal digits, no
    leading zero except for ["0"] itself) whose value is at most
    [2^32 - 2]. *)
Definition array_index (s : string) : option N :=
  match s with
  | EmptyString => None
  | String c rest =>
      if (Ascii.eqb c "0"%char && negb (rest =? EmptyString)%string) then None
      else
        match decimal_from 0%N s with
        | Some n => if (n <=? 4294967294)%N then Some n else None
        | None => None
        end
  end.

Definition is_array_index (s : string) : bool :=
  match array_index s with
  | Some _ => true
  | None => false
  end.

Definition index_of (s : string) : N :=
  match array_index s with
  | Some n => n
  | None => 0%N
  end.

Section Props.
Variable V : Type.

Definition props := list (string * V).

Definition keys (ps : props) : list string := map fst ps.

(** Own property lookup. *)
Fixpoint own_get (ps : props) (k : string) : option V :=
  match ps with
  | [] => None
  | (k', v) :: rest => if (k' =? k)%string then Some v else own_get rest k
  end.

(** Defining or overwriting an own data property: an existing key keeps
    its place, a new key goes last. *)
Fixpoint own_set (ps : props) (k : string) (v : V) : props :=
  match ps with
  | [] => [(k, v)]
  | (k', v') :: rest =>
      if (k' =? k)%string then (k', v) :: rest
      else (k', v') :: own_set rest k v
  end.

Fixpoint insert_by_index (e : string * V) (sorted : props) : props :=
  match sorted with
  | [] => [e]
  | e' :: rest =>
      if (index_of (fst e) <=? index_of (fst e'))%N then e :: sorted
      else e' :: insert_by_index e rest
  end.

Fixpoint sort_by_index (ps : props) : props :=
  match ps with
  | [] => []
  | e :: rest => insert_by_index e (sort_by_index rest)
  end.

(** [OrdinaryOwnPropertyKeys], paired with the values: array indices in
    ascending numeric order, then the other string keys in creation
    order. *)
Definition ordered (ps : props) : props :=
  sort_by_index (filter (fun e => is_array_index (fst e)) ps)
  ++ filter (fun e => negb (is_array_index (fst e))) ps.

End Props.

(** ** Ordinary objects with a mutable prototype *)

Inductive Proto : Type :=
| ProtoObjectPrototype
| ProtoOf (props : list (string * JsVal))
| ProtoNull.

Record JsObject : Type := mkObject {
  own : list (string * JsVal);
  proto : Proto
}.

(** The object literal [{}]. *)
Definition empty_object : JsObject :=
  {| own := []; proto := ProtoObjectPrototype |}.

(** [o[k] = v] on an ordinary object none of whose own properties is an
    accessor.  The key ["__proto__"] reaches the accessor inherited from
    [Object.prototype]: an object or [null] becomes the prototype, any
    other value is ignored, and no own property is created.  The accessor
    is out of reach once the prototype is [null], or when the prototype
    has a data property of that name: ["__proto__"] is then a key like any
    other. *)
Definition proto_accessor_reachable (o : JsObject) : bool :=
  match proto o with
  | ProtoObjectPrototype => true
  | ProtoOf ps =>
      match own_get ps "__proto__" with
      | Some _ => false
      | None => true
      end
  | ProtoNull => false
  end.

Definition obj_set (o : JsObject) (k : string) (v : JsVal) : JsObject :=
  if (k =? "__proto__")%string && proto_accessor_reachable o then
    match v with
    | VObj ps => {| own := own o; proto := ProtoOf ps |}
    | VNull => {| own := own o; proto := ProtoNull |}
    | _ => o
    end
  else {| own := own_set (own o) k v; proto := proto o |}.

(** [Object.entries]. *)
Definition Object_entries (ps : list (string * JsVal))
  : list (string * JsVal) :=
  ordered ps.

(** The property names of [Object.prototype]. *)
Definition Object_prototype_names : list string :=
  [ "constructor"; "__defineGetter__"; "__defineSetter__";
    "hasOwnProperty"; "__lookupGetter__"; "__lookupSetter__";
    "isPrototypeOf"; "propertyIsEnumerable"; "toString"; "valueOf";
    "__proto__"; "toLocaleString" ].

(** [o[k]] on a plain object: the own property if there is one, else what
    [Object.prototype] provides. *)
Definition Get (ps : list (string * JsVal)) (k : string) : JsVal :=
  match own_get ps k with
  | Some v => v
  | None =>
      if existsb (String.eqb k) Object_prototype_names
      then VNative ("Object.prototype." ++ k)%string
      else VUndefined
  end.

(** ** JSON transport

    [JSON.parse (JSON.stringify v)] on the values above: properties are
    written in own-property order, a property whose value is [undefined]
    or a function is left out, and parsing yields plain objects. *)
Definition serializable (v : JsVal) : bool :=
  match v with
  | VUndefined | VNative _ => false
  | _ => true
  end.

Fixpoint JSON_roundtrip (v : JsVal) : JsVal :=
  match v with
  | VObj ps =>
      VObj (ordered
              ((fix go (l : list (string * JsVal)) :=
                  match l with
                  | [] => []
                  | (k, x) :: rest =>
                      if serializable x then (k, JSON_roundtrip x) :: go rest
                      else go rest
                  end) ps))
  | _ => v
  end.

(** The properties of an object that survive the transport, each with
    its value transported. *)
Definition kept_props (ps : list (string * JsVal)) : list (string * JsVal) :=
  map (fun e => (fst e, JSON_roundtrip (snd e)))
      (filter (fun e => serializable (snd e)) ps).

Definition roundtrip_props (ps : list (string * JsVal))
  : list (string * JsVal) :=
  match JSON_roundtrip (VObj ps) with
  | VObj ps' => ps'
  | _ => []
  end.

(** ** Map *)

Section JsMap.
Variable V : Type.

(** A [Map] with string keys: its entries in insertion order. *)
Definition JsMap := list (string * V).

Definition Map_empty : JsMap := [].

Definition Map_get (m : JsMap) (k : string) : option V := own_get m k.

Definition Map_has (m : JsMap) (k : string) : bool :=
  match Map_get m k with Some _ => true | None => false end.

(** [m.set(k, v)]: an existing key keeps its position. *)
Definition Map_set (m : JsMap) (k : string) (v : V) : JsMap :=
  own_set m k v.

Definition Map_delete (m : JsMap) (k : string) : JsMap :=
  filter (fun e => negb (fst e =? k)%string) m.

(** [m.entries()], consumed by [for ... of]. *)
Definition Map_entries (m : JsMap) : list (string * V) := m.

Inductive MapOp : Type :=
| OpSet (k : string) (v : V)
| OpDelete (k : string)
| OpClear.

Definition Map_step (m : JsMap) (op : MapOp) : JsMap :=
  match op with
  | OpSet k v => Map_set m k v
  | OpDelete k => Map_delete m k
  | OpClear => Map_empty
  end.

(** The [Map] obtained from [new Map()] by a sequence of calls. *)
Definition Map_of_ops (ops : list MapOp) : JsMap :=
  fold_left Map_step ops Map_empty.

End JsMap.

Arguments OpSet {V} k v.
Arguments OpDelete {V} k.
Arguments OpClear {V}.
Arguments Map_empty {V}.

End Js.

(* ================================================================== *)
(** * Collaborators of the admin route *)
(* ================================================================== *)

(** [#app/utils/apps.server.ts] *)
Module Apps.

(** Modelled from the spec: the [App] record of the content catalog, whose
    declaration is not among the sources; section 3 of the specification
    gives it [name] (the key), [displayName] and [fullPath]. *)
Record App : Type := mkApp {
  name : string;
  displayName : string;
  fullPath : string
}.

End Apps.

(** [#app/utils/process-manager.server.ts] *)
Module ProcessManager.
Import Js.

(** The child process object; the route reads its [pid] only, which is
    [undefined] as long as there is no operating-system process. *)
Record ChildProcess : Type := mkChild {
  pid : option Z
}.

(** Modelled from the spec: the entry types of the two registries, whose
    declarations are not among the sources.  The fields are the ones the
    loader destructures: [port], [process], [color] for a dev server,
    [process] (possibly missing) and [exitCode] (a number, [null] or
    [undefined]) for a test run. *)
Record DevProcess : Type := mkDev {
  port : Z;
  process : ChildProcess;
  color : string
}.

Inductive ExitCode : Type :=
| ExitUndefined
| ExitNull
| ExitNumber (n : Z).

Record TestProcess : Type := mkTest {
  test_process : option ChildProcess;
  exitCode : ExitCode
}.

(** Modelled from the spec: what [getProcesses()] hands out, the two
    registries of section 2, each a [Map] from app name to entry (the
    loader iterates both with [entries()]). *)
Record Processes : Type := mkProcesses {
  devProcesses : JsMap DevProcess;
  testProcesses : JsMap TestProcess
}.

End ProcessManager.

(* ================================================================== *)
(** * routes/admin/index.tsx *)
(* ================================================================== *)

Module AdminRoute.
Import Js Apps ProcessManager.

(** ** The world of the server process *)

(** What the route does to the outside: console output and calls of the
    external inspector. *)
Inductive Event : Type :=
| ConsoleInfo (message : string)
| InspectorOpenCall
| InspectorCloseCall.

(** Modelled from the spec: [usedPorts] is the state of the port allocator
    of section 3, which is not among the sources and which the route never
    names. *)
Record World : Type := mkWorld {
  registries : Processes;
  usedPorts : list Z;
  __inspector_open__ : option bool;
  events : list Event
}.

(** What can be thrown: [new Error(message)], or whatever a collaborator
    throws. *)
Inductive Exn : Type :=
| Error (message : string)
| Foreign (what : string).

Inductive Outcome (A : Type) : Type :=
| Returned (a : A)
| Thrown (e : Exn).
Arguments Returned {A} a.
Arguments Thrown {A} e.

(** Computations of the route: state passing with exceptions. *)
Definition M (A : Type) : Type := World -> Outcome A * World.

Definition ret {A} (a : A) : M A := fun w => (Returned a, w).

Definition bind {A B} (m : M A) (k : A -> M B) : M B :=
  fun w =>
    match m w with
    | (Returned a, w') => k a w'
    | (Thrown e, w') => (Thrown e, w')
    end.

Definition throw {A} (e : Exn) : M A := fun w => (Thrown e, w).

Notation "x <- m ;; k" := (bind m (fun x => k))
  (at level 100, m at next level, right associativity).
Notation "m ;;; k" := (bind m (fun _ => k))
  (at level 100, right associativity).

Definition getProcesses : M Processes := fun w => (Returned (registries w), w).

Definition get_inspector_open : M (option bool) :=
  fun w => (Returned (__inspector_open__ w), w).

Definition set_inspector_open (b : bool) : M unit :=
  fun w =>
    (Returned tt,
     {| registries := registries w;
        usedPorts := usedPorts w;
        __inspector_open__ := Some b;
        events := events w |}).

Definition emit (e : Event) : M unit :=
  fun w =>
    (Returned tt,
     {| registries := registries w;
        usedPorts := usedPorts w;
        __inspector_open__ := __inspector_open__ w;
        events := events w ++ [e] |}).

(** A call into a collaborator that either returns or throws. *)
Definition outcome_of (o : option Exn) : M unit :=
  match o with
  | None => ret tt
  | Some e => throw e
  end.

(** ** Requests *)

Inductive FormDataEntryValue : Type :=
| FString (s : string)
| FFile (filename : string).

Record Request : Type := mkRequest {
  formData : list (string * FormDataEntryValue)
}.

(** [FormData.prototype.get]: the first value under the name, or
    [null]. *)
Definition FormData_get (fd : list (string * FormDataEntryValue))
           (field : string) : option FormDataEntryValue :=
  own_get fd field.

(** [intent === literal] as the [switch] evaluates it. *)
Definition strict_eq_string (v : option FormDataEntryValue) (lit : string)
  : bool :=
  match v with
  | Some (FString s) => (s =? lit)%string
  | _ => false
  end.

(** The text a template literal gives for [intent]. *)
Definition to_template_string (v : option FormDataEntryValue) : string :=
  match v with
  | None => "null"
  | Some (FString s) => s
  | Some (FFile _) => "[object File]"
  end.

(** ** Collaborators

    The behaviour of the imported functions whose code is elsewhere:
    whether [ensureUndeployed()] and the two calls of the external
    inspector return or throw, what [getApps] resolves to and what
    [getServerTimeHeader] returns.  They are taken not to write to the
    registries or to the inspector flag. *)
Record Env : Type := mkEnv {
  ensureUndeployed : option Exn;
  getApps : Request -> list App;
  getServerTimeHeader : string;
  inspector_open : option Exn;
  inspector_close : option Exn
}.

(** ** Responses *)

Record Response (D : Type) : Type := mkResponse {
  body : D;
  headers : list (string * string)
}.

Definition json {D} (data : D) (hs : list (string * string)) : Response D :=
  {| body := data; headers := hs |}.

Record LoaderData : Type := mkLoaderData {
  apps : list App;
  processes : JsObject;
  testProcesses : JsObject;
  inspectorRunning : option bool
}.

(** ** loader *)

(** The callback of the [filter] at the head of the loader. *)
Definition first_with_name (a : App) (i : Z) (ar : list App) : bool :=
  findIndex (fun b => (name a =? name b)%string) ar =? i.

(** [{ port, pid: process.pid, color }] *)
Definition dev_entry (p : DevProcess) : JsVal :=
  VObj [ ("port", VNum (port p));
         ("pid", of_optnum (pid (process p)));
         ("color", VStr (color p)) ].

Definition of_exitCode (c : ExitCode) : JsVal :=
  match c with
  | ExitUndefined => VUndefined
  | ExitNull => VNull
  | ExitNumber n => VNum n
  end.

(** [{ pid: process?.pid, exitCode }] *)
Definition test_entry (p : TestProcess) : JsVal :=
  VObj [ ("pid", match test_process p with
                 | Some cp => of_optnum (pid cp)
                 | None => VUndefined
                 end);
         ("exitCode", of_exitCode (exitCode p)) ].

(** The two [for ... of] loops: one assignment [acc[name] = entry] per
    registry entry, in iteration order. *)
Definition collect {V} (entry : V -> JsVal) (m : JsMap V) : JsObject :=
  fold_left (fun acc e => obj_set acc (fst e) (entry (snd e)))
            (Map_entries m) empty_object.

Definition loader (env : Env) (request : Request)
  : M (Response LoaderData) :=
  outcome_of (ensureUndeployed env) ;;;
  let apps := Array_filter first_with_name (getApps env request) in
  ps <- getProcesses ;;
  let processes := collect dev_entry (devProcesses ps) in
  ps' <- getProcesses ;;
  let testProcesses := collect test_entry (ProcessManager.testProcesses ps') in
  running <- get_inspector_open ;;
  ret (json {| apps := apps;
               processes := processes;
               testProcesses := testProcesses;
               inspectorRunning := running |}
            [("Server-Timing", getServerTimeHeader env)]).

(** ** action *)

Definition success : JsVal := VObj [("success", VBool true)].

(** [!global.__inspector_open__] and its converse: [undefined] counts as
    closed. *)
Definition flag_set (f : option bool) : bool :=
  match f with
  | Some b => b
  | None => false
  end.

Definition action (env : Env) (request : Request) : M (Response JsVal) :=
  outcome_of (ensureUndeployed env) ;;;
  let intent := FormData_get (formData request) "intent" in
  if strict_eq_string intent "inspect" then
    f <- get_inspector_open ;;
    if negb (flag_set f) then
      set_inspector_open true ;;;
      emit InspectorOpenCall ;;;
      outcome_of (inspector_open env) ;;;
      ret (json success [])
    else
      emit (ConsoleInfo "Inspector already running.") ;;;
      ret (json success [])
  else if strict_eq_string intent "stop-inspect" then
    f <- get_inspector_open ;;
    if flag_set f then
      set_inspector_open false ;;;
      emit InspectorCloseCall ;;;
      outcome_of (inspector_close env) ;;;
      ret (json success [])
    else
      emit (ConsoleInfo "Inspector already stopped.") ;;;
      ret (json success [])
  else
    throw (Error ("Unknown intent: " ++ to_template_string intent)%string).

(** ** What the view receives *)

(** [useLoaderData]: the loader data after the JSON transport.  The apps
    are read by [name] only and are carried over as they are. *)
Record ClientData : Type := mkClientData {
  data_apps : list App;
  data_processes : list (string * JsVal);
  data_testProcesses : list (string * JsVal);
  data_inspectorRunning : option bool
}.

Definition useLoaderData (d : LoaderData) : ClientData :=
  {| data_apps := apps d;
     data_processes := roundtrip_props (own (processes d));
     data_testProcesses := roundtrip_props (own (testProcesses d));
     data_inspectorRunning := inspectorRunning d |}.

(** ** AdminLayout *)

(** The [status] prop of [Pinger]. *)
Inductive PingerStatus : Type :=
| running
| starting
| stopped
| taken.

Record View : Type := mkView {
  command : string;
  appItems : list (PingerStatus * string);
  processItems : list (string * (JsVal * JsVal * JsVal));
  testItems : list (string * (JsVal * JsVal))
}.

(** The status shown next to an app of the list. *)
Definition app_status (data : ClientData) (app : App) : PingerStatus :=
  if truthy (Get (data_processes data) (name app)) then running else stopped.

Definition AdminLayout (data : ClientData) : View :=
  {| command :=
       if flag_set (data_inspectorRunning data) then "stop-inspect"
       else "inspect";
     appItems := map (fun app => (app_status data app, name app))
                     (data_apps data);
     processItems :=
       map (fun e =>
              match snd e with
              | VObj ps =>
                  (fst e, (Get ps "port", Get ps "pid", Get ps "color"))
              | _ => (fst e, (VUndefined, VUndefined, VUndefined))
              end)
           (Object_entries (data_processes data));
     testItems :=
       map (fun e =>
              match snd e with
              | VObj ps => (fst e, (Get ps "pid", Get ps "exitCode"))
              | _ => (fst e, (VUndefined, VUndefined))
              end)
           (Object_entries (data_testProcesses data)) |}.

(** ** Running the route *)

(** The data a query of the loader yields in world [w], if it returns. *)
Definition query (env : Env) (request : Request) (w : World)
  : option LoaderData :=
  match fst (loader env request w) with
  | Returned r => Some (body r)
  | Thrown _ => None
  end.

(** A sequence of form submissions handled one after the other. *)
Fixpoint run_actions (env : Env) (reqs : list Request) (w : World)
  : list (Outcome (Response JsVal)) * World :=
  match reqs with
  | [] => ([], w)
  | r :: rest =>
      let (o, w') := action env r w in
      let (os, w'') := run_actions env rest w' in
      (o :: os, w'')
  end.

End AdminRoute.

(* ================================================================== *)
(** * Client hints *)
(* ================================================================== *)

Module ClientHints.
Import Js.

(** ** Strings by code unit

    Cookie strings are cut and trimmed, so they are modelled exactly, as
    sequences of UTF-16 code units. *)
Definition jstring : Type := list N.

Definition lit (s : string) : jstring :=
  map N_of_ascii (list_ascii_of_string s).

Fixpoint jeqb (a b : jstring) : bool :=
  match a, b with
  | [], [] => true
  | x :: a', y :: b' => (x =? y)%N && jeqb a' b'
  | _, _ => false
  end.

(** [String.prototype.startsWith]. *)
Fixpoint startsWith (s prefix : jstring) : bool :=
  match prefix, s with
  | [], _ => true
  | p :: prefix', c :: s' => (c =? p)%N && startsWith s' prefix'
  | _ :: _, [] => false
  end.

(** [String.prototype.split] with a separator of one code unit. *)
Fixpoint split (sep : N) (s : jstring) : list jstring :=
  match s with
  | [] => [[]]
  | c :: rest =>
      if (c =? sep)%N then [] :: split sep rest
      else
        match split sep rest with
        | piece :: pieces => (c :: piece) :: pieces
        | [] => [[c]]
        end
  end.

(** White space and line terminators, the code units [trim] removes. *)
Definition is_space (c : N) : bool :=
  existsb (N.eqb c)
    [ 9; 10; 11; 12; 13; 32; 160; 5760; 8232; 8233; 8239; 8287; 12288;
      65279 ]%N
  || ((8192 <=? c) && (c <=? 8202))%N.

Fixpoint trimStart (s : jstring) : jstring :=
  match s with
  | [] => []
  | c :: rest => if is_space c then trimStart rest else s
  end.

Definition trimEnd (s : jstring) : jstring := rev (trimStart (rev s)).

(** [String.prototype.trim]. *)
Definition trim (s : jstring) : jstring := trimEnd (trimStart s).

(** ** clientHints *)

Record Hint : Type := mkHint {
  cookieName : jstring;
  getValueCode : jstring;
  fallback : jstring;
  transform : option jstring -> jstring
}.

Definition is_exactly (value : option jstring) (s : string) : bool :=
  match value with
  | Some v => jeqb v (lit s)
  | None => false
  end.

Definition theme : Hint :=
  {| cookieName := lit "KCDShop_CH-prefers-color-scheme";
     getValueCode :=
       lit "window.matchMedia('(prefers-color-scheme: dark)').matches ? 'dark' : 'light'";
     fallback := lit "light";
     transform := fun value =>
       if is_exactly value "dark" then lit "dark" else lit "light" |}.

Definition reducedMotion : Hint :=
  {| cookieName := lit "KCDShop_CH-reduced-motion";
     getValueCode :=
       lit "window.matchMedia('(prefers-reduced-motion: reduce)').matches ? 'reduce' : 'no-preference'";
     fallback := lit "no-preference";
     transform := fun value =>
       if is_exactly value "reduce" then lit "reduce"
       else lit "no-preference" |}.

(** The object [clientHints], by its entries in creation order. *)
Definition clientHints : list (string * Hint) :=
  [ ("theme", theme); ("reducedMotion", reducedMotion) ].

(** ** getCookieValue *)

Inductive Result (A : Type) : Type :=
| Ok (a : A)
| Throw (message : string).
Arguments Ok {A} a.
Arguments Throw {A} message.

(** [name] ranges over property names; the guard [if (!hint) throw] is
    what a name outside [clientHints] meets. *)
Definition getCookieValue (cookieString : jstring) (name : string)
  : Result (option jstring) :=
  match own_get clientHints name with
  | None => Throw ("Unknown client hint: " ++ name)%string
  | Some hint =>
      let value :=
        match
          Array_find (fun c => startsWith c (cookieName hint ++ lit "="))
                     (map trim (split 59%N cookieString))
        with
        | Some c => nth_error (split 61%N c) 1
        | None => None
        end in
      Ok value
  end.

(** ** getHints *)

(** Where the cookie string comes from: [document.cookie] when there is a
    document, else the [Cookie] header of the request when there is a
    request (the header may be missing), else the empty string. *)
Definition cookieString_of (document_cookie : option jstring)
           (request : option (option jstring)) : jstring :=
  match document_cookie with
  | Some c => c
  | None =>
      match request with
      | Some (Some c) => c
      | Some None => []
      | None => []
      end
  end.

(** One step of the [reduce]: [acc[hintName] = hint.transform(...)]. *)
Definition hint_step (cookieString : jstring)
           (acc : Result (list (string * jstring))) (e : string * Hint)
  : Result (list (string * jstring)) :=
  match acc with
  | Throw m => Throw m
  | Ok o =>
      match getCookieValue cookieString (fst e) with
      | Throw m => Throw m
      | Ok value => Ok (own_set o (fst e) (transform (snd e) value))
      end
  end.

Definition getHints (document_cookie : option jstring)
           (request : option (option jstring))
  : Result (list (string * jstring)) :=
  let cookieString := cookieString_of document_cookie request in
  fold_left (hint_step cookieString) clientHints (Ok []).

End ClientHints.

(* ================================================================== *)
(** * Reference notions the properties are stated with *)
(* ================================================================== *)

Module Spec.
Import Js Apps ProcessManager AdminRoute.

Definition names (l : list App) : list string := map name l.

(** Deduplication by name as one would say it: walk the catalog and keep a
    record exactly when its name has not been met before. *)
Fixpoint firstByName (seen : list string) (l : list App) : list App :=
  match l with
  | [] => []
  | a :: rest =>
      if existsb (String.eqb (name a)) seen then firstByName seen rest
      else a :: firstByName (name a :: seen) rest
  end.

(** [l1] is [l2] with some elements left out, the others in place. *)
Inductive Subseq {A : Type} : list A -> list A -> Prop :=
| Subseq_nil : Subseq [] []
| Subseq_skip : forall x l1 l2, Subseq l1 l2 -> Subseq l1 (x :: l2)
| Subseq_keep : forall x l1 l2, Subseq l1 l2 -> Subseq (x :: l1) (x :: l2).

(** Names that own-property order and the prototype accessor leave
    alone. *)
Definition plain_name (k : string) : bool :=
  negb (is_array_index k) && negb (k =? "__proto__")%string.

(** One turn of a loop of the loader, and what it does to the own
    properties when the inherited accessor is in reach. *)
Definition collect_step {V} (entry : V -> JsVal)
           (acc : JsObject) (e : string * V) : JsObject :=
  obj_set acc (fst e) (entry (snd e)).

Definition own_step {V} (entry : V -> JsVal)
           (ps : list (string * JsVal)) (e : string * V)
  : list (string * JsVal) :=
  if (fst e =? "__proto__")%string then ps
  else own_set ps (fst e) (entry (snd e)).

(** Ascending numeric order of array indices. *)
Definition index_le (a b : string) : Prop := (index_of a <= index_of b)%N.

Definition entry_index_le {V} (e e' : string * V) : Prop :=
  index_le (fst e) (fst e').

(** The row of the view one expects for a handle of a registry. *)
Definition dev_row (e : string * DevProcess)
  : string * (JsVal * JsVal * JsVal) :=
  (fst e,
   (VNum (port (snd e)), of_optnum (pid (process (snd e))),
    VStr (color (snd e)))).

Definition test_row (e : string * TestProcess) : string * (JsVal * JsVal) :=
  (fst e,
   (match test_process (snd e) with
    | Some cp => of_optnum (pid cp)
    | None => VUndefined
    end,
    of_exitCode (exitCode (snd e)))).

(** The entries of a registry that a listing can hold. *)
Definition listable {V} (m : JsMap V) : list (string * V) :=
  filter (fun e => negb (fst e =? "__proto__")%string) m.

(** The world after one more event, nothing else changed. *)
Definition logged (w : World) (e : Event) : World :=
  {| registries := registries w;
     usedPorts := usedPorts w;
     __inspector_open__ := __inspector_open__ w;
     events := events w ++ [e] |}.

(** A submission of the start button, of the stop button. *)
Definition is_inspect (request : Request) : Prop :=
  FormData_get (formData request) "intent" = Some (FString "inspect").

Definition is_stop_inspect (request : Request) : Prop :=
  FormData_get (formData request) "intent" = Some (FString "stop-inspect").

(** A dev-server handle whose child has no pid yet: by section 3 of the
    specification the pid is missing until the spawn completes. *)
Definition mid_flight (m : JsMap DevProcess) (app : string) : Prop :=
  exists p, Map_get m app = Some p /\ pid (process p) = None.

End Spec.

(* ================================================================== *)
(** * Concrete catalogs, registries and requests *)
(* ================================================================== *)

Module Fixtures.
Import Js Apps ProcessManager AdminRoute.

(** A catalog in which the name ["a"] comes twice. *)
Definition catalog : list App :=
  [ mkApp "a" "First a" "/workshop/a";
    mkApp "b" "Only b" "/workshop/b";
    mkApp "a" "Second a" "/workshop/a2" ].

Definition env : Env :=
  {| ensureUndeployed := None;
     getApps := fun _ => catalog;
     getServerTimeHeader := "adminLoader;dur=1";
     inspector_open := None;
     inspector_close := None |}.

Definition dev_ops : list (MapOp DevProcess) :=
  [ OpSet "a" (mkDev 3000 (mkChild None) "blue");
    OpSet "b" (mkDev 3001 (mkChild (Some 4242)) "green");
    OpSet "a" (mkDev 3002 (mkChild None) "red") ].

Definition test_ops : list (MapOp TestProcess) :=
  [ OpSet "b" (mkTest (Some (mkChild (Some 77))) (ExitNumber 0));
    OpSet "c" (mkTest None ExitUndefined);
    OpDelete "c";
    OpSet "a" (mkTest (Some (mkChild None)) ExitNull) ].

(** Dev servers for ["a"] (no pid yet) and ["b"], test runs of ["b"] and
    ["a"]. *)
Definition world : World :=
  {| registries := mkProcesses (Map_of_ops dev_ops) (Map_of_ops test_ops);
     usedPorts := [3002; 3001];
     __inspector_open__ := None;
     events := [] |}.

(** Dev servers registered under ["10"], then under ["9"]. *)
Definition numbered_ops : list (MapOp DevProcess) :=
  [ OpSet "10" (mkDev 3000 (mkChild (Some 500)) "blue");
    OpSet "9" (mkDev 3001 (mkChild (Some 501)) "green") ].

Definition numbered_world : World :=
  {| registries := mkProcesses (Map_of_ops numbered_ops) (Map_of_ops []);
     usedPorts := [3000; 3001];
     __inspector_open__ := None;
     events := [] |}.

Definition open_world : World :=
  {| registries := registries world;
     usedPorts := usedPorts world;
     __inspector_open__ := Some true;
     events := [InspectorOpenCall] |}.

Definition get_request : Request := mkRequest [].
Definition inspect : Request := mkRequest [("intent", FString "inspect")].
Definition stop_inspect : Request :=
  mkRequest [("intent", FString "stop-inspect")].
Definition restart : Request := mkRequest [("intent", FString "restart")].

Definition no_data : LoaderData :=
  mkLoaderData [] empty_object empty_object None.

Definition data_of (w : World) : LoaderData :=
  match query env get_request w with
  | Some d => d
  | None => no_data
  end.

(** Cookie headers: both hints set; a theme value cut at its second
    ['=']; values that are not hint values. *)
Definition both_cookies : ClientHints.jstring :=
  ClientHints.lit
    "KCDShop_CH-prefers-color-scheme=dark; KCDShop_CH-reduced-motion=reduce".

Definition cut_cookie : ClientHints.jstring :=
  ClientHints.lit "KCDShop_CH-prefers-color-scheme=dark=x".

Definition odd_cookies : ClientHints.jstring :=
  ClientHints.lit
    "KCDShop_CH-prefers-color-scheme=Dark;KCDShop_CH-reduced-motion;=;;x=1".

End Fixtures.

(* ================================================================== *)
(** * The value of a cookie, from the words *)
(* ================================================================== *)

Module Cookies.
Import ClientHints.

(** The value of a cookie in a cookie string, written from what the words
    say and not from [getCookieValue]: a cookie string is a list of pairs
    separated by [;]; a pair carries the cookie [name] with the value
    [value] when, white space around it apart, it is [name], [=] and
    [value]; the value of a cookie is that of the first pair carrying its
    name.  A value may hold any code unit but [;], [=] included. *)

Definition blank (ws : jstring) : Prop :=
  Forall (fun c => is_space c = true) ws.

(** [value] does not end in white space. *)
Definition closed (value : jstring) : Prop :=
  forall s c, value = s ++ [c] -> is_space c = false.

Definition carries (name value pair : jstring) : Prop :=
  exists ws ws',
    pair = ws ++ name ++ 61%N :: value ++ ws'
    /\ blank ws /\ blank ws' /\ closed value.

Definition cookie_value (cookieString name value : jstring) : Prop :=
  exists before pair tail,
    cookieString
    = List.concat (map (fun c => c ++ [59%N]) before) ++ pair ++ tail
    /\ Forall (fun c => ~ In 59%N c /\ ~ exists v, carries name v c) before
    /\ ~ In 59%N pair
    /\ (tail = [] \/ exists rest, tail = 59%N :: rest)
    /\ carries name value pair.

(** [text] is [value] up to its first [=]: all of it when it holds none. *)
Definition up_to_equals (value text : jstring) : Prop :=
  ~ In 61%N text
  /\ (value = text \/ exists rest, value = text ++ 61%N :: rest).

End Cookies.

(* ================================================================== *)
(** * Further notions: the inspector as the route drives it *)
(* ================================================================== *)

Module Toggle.
Import Js Apps ProcessManager AdminRoute.

(** Replaying a stretch of the event log against the state of the
    inspector: a call of [open()] is in order when the inspector is
    closed, a call of [close()] when it is open, console output changes
    nothing.  The result is the state at the end, or [None] as soon as a
    call is out of order. *)
Fixpoint replay (open : bool) (evs : list Event) : option bool :=
  match evs with
  | [] => Some open
  | ConsoleInfo _ :: rest => replay open rest
  | InspectorOpenCall :: rest => if open then None else replay true rest
  | InspectorCloseCall :: rest => if open then replay false rest else None
  end.

(** What posting the command form of the view sends: the form holds the
    one button, named [intent]. *)
Definition submission (v : View) : Request :=
  mkRequest [("intent", FString (command v))].

(** A row of the dev-server list with the row of one name replaced. *)
Definition with_row (name : string) (row : string * (JsVal * JsVal * JsVal))
           (rows : list (string * (JsVal * JsVal * JsVal)))
  : list (string * (JsVal * JsVal * JsVal)) :=
  map (fun r => if (fst r =? name)%string then row else r) rows.

(** The rows of a list that are not under one name. *)
Definition without_row {R : Type} (name : string) (rows : list (string * R))
  : list (string * R) :=
  filter (fun r => negb (fst r =? name)%string) rows.

End Toggle.

(* ================================================================== *)
(** * Further registries, requests and cookie strings *)
(* ================================================================== *)

Module Cases.
Import Js Apps ProcessManager AdminRoute.

Definition server_c : DevProcess := mkDev 3003 (mkChild (Some 909)) "pink".

(** [Fixtures.world] after [devProcesses.set("c", server_c)]. *)
Definition started_world : World :=
  {| registries :=
       mkProcesses (Map_of_ops (Fixtures.dev_ops ++ [OpSet "c" server_c]))
                   (Map_of_ops Fixtures.test_ops);
     usedPorts := [3003; 3002; 3001];
     __inspector_open__ := None;
     events := [] |}.

(** [Fixtures.world] after [devProcesses.delete("a")]. *)
Definition stopped_world : World :=
  {| registries :=
       mkProcesses (Map_of_ops (Fixtures.dev_ops ++ [OpDelete "a"]))
                   (Map_of_ops Fixtures.test_ops);
     usedPorts := [3001];
     __inspector_open__ := None;
     events := [] |}.

End Cases.

Module CookieCases.
Import ClientHints.

(** What a browser sends for three cookies, the theme hint in the
    middle. *)
Definition three_cookies : jstring :=
  lit "session=abc; KCDShop_CH-prefers-color-scheme=dark; x=1".

(** A cookie whose name only begins like the cookie name of the theme
    hint, before the hint itself. *)
Definition lookalike_first : jstring :=
  lit "KCDShop_CH-prefers-color-scheme-old=dark;KCDShop_CH-prefers-color-scheme=light".

End CookieCases.

(* ================================================================== *)
(** * Client hints: the inline script of ClientHintCheck *)
(* ================================================================== *)

Module HintCheck.
Import Js ClientHints.

(** ** encodeURIComponent *)

(** The code units [encodeURIComponent] leaves as they are: letters,
    digits and [- _ . ! ~ * ' ( )]. *)
Definition is_unreserved (c : N) : bool :=
  ((48 <=? c) && (c <=? 57))%N
  || ((65 <=? c) && (c <=? 90))%N
  || ((97 <=? c) && (c <=? 122))%N
  || existsb (N.eqb c) [45; 95; 46; 33; 126; 42; 39; 40; 41]%N.

Definition hex_digit (n : N) : N :=
  if (n <? 10)%N then (48 + n)%N else (55 + n)%N.

Definition percent (byte : N) : jstring :=
  [37; hex_digit (byte / 16); hex_digit (byte mod 16)]%N.

(** The UTF-8 bytes of a code point. *)
Definition utf8 (cp : N) : list N :=
  if (cp <? 128)%N then [cp]
  else if (cp <? 2048)%N then [192 + cp / 64; 128 + cp mod 64]%N
  else if (cp <? 65536)%N then
    [224 + cp / 4096; 128 + (cp / 64) mod 64; 128 + cp mod 64]%N
  else
    [240 + cp / 262144; 128 + (cp / 4096) mod 64; 128 + (cp / 64) mod 64;
     128 + cp mod 64]%N.

Definition prepend (s : jstring) (r : Result jstring) : Result jstring :=
  match r with
  | Ok t => Ok (s ++ t)
  | Throw m => Throw m
  end.

(** A surrogate pair is encoded as the code point it stands for; a lone
    surrogate throws a [URIError]. *)
Fixpoint encodeURIComponent (s : jstring) : Result jstring :=
  match s with
  | [] => Ok []
  | c :: rest =>
      if is_unreserved c then prepend [c] (encodeURIComponent rest)
      else if ((c <? 55296) || ((57344 <=? c) && (c <=? 65535)))%N then
        prepend (flat_map percent (utf8 c)) (encodeURIComponent rest)
      else if ((55296 <=? c) && (c <=? 56319))%N then
        match rest with
        | low :: rest' =>
            if ((56320 <=? low) && (low <=? 57343))%N then
              prepend
                (flat_map percent
                   (utf8 (65536 + (c - 55296) * 1024 + (low - 56320))%N))
                (encodeURIComponent rest')
            else Throw "URIError: URI malformed"
        | [] => Throw "URIError: URI malformed"
        end
      else Throw "URIError: URI malformed"
  end.

(** ** The window the script runs in *)

(** The answers of [window.matchMedia] to the two queries of the table,
    [navigator.cookieEnabled] and [document.cookie]. *)
Record Window : Type := mkWindow {
  prefers_dark : bool;
  prefers_reduced_motion : bool;
  cookieEnabled : bool;
  document_cookie : jstring
}.

(** The value of the expression a [getValueCode] of the table holds, in a
    window; text that is neither of the two is not evaluated. *)
Definition evaluate (w : Window) (code : jstring) : jstring :=
  if jeqb code (getValueCode theme) then
    if prefers_dark w then lit "dark" else lit "light"
  else if jeqb code (getValueCode reducedMotion) then
    if prefers_reduced_motion w then lit "reduce" else lit "no-preference"
  else [].

(** ** The object [cookies] *)

(** What a property of [cookies] can hold: [undefined], a string, or
    something inherited from [Object.prototype]. *)
Inductive Slot : Type :=
| SlotUndefined
| SlotString (s : jstring)
| SlotNative.

Fixpoint slot_get (ps : list (jstring * Slot)) (k : jstring) : option Slot :=
  match ps with
  | [] => None
  | (k', v) :: rest => if jeqb k' k then Some v else slot_get rest k
  end.

Fixpoint slot_set (ps : list (jstring * Slot)) (k : jstring) (v : Slot)
  : list (jstring * Slot) :=
  match ps with
  | [] => [(k, v)]
  | (k', v') :: rest =>
      if jeqb k' k then (k', v) :: rest else (k', v') :: slot_set rest k v
  end.

(** [acc[key] = value], the value being a string or [undefined]: under
    the key ["__proto__"] the inherited accessor ignores such a value. *)
Definition assign (acc : list (jstring * Slot)) (key : jstring) (value : Slot)
  : list (jstring * Slot) :=
  if jeqb key (lit "__proto__") then acc else slot_set acc key value.

(** [cookies[key]]. *)
Definition lookup (acc : list (jstring * Slot)) (key : jstring) : Slot :=
  match slot_get acc key with
  | Some v => v
  | None =>
      if existsb (jeqb key) (map lit Object_prototype_names) then SlotNative
      else SlotUndefined
  end.

(** [const [key, value] = cur.split('=')] *)
Definition key_of (cur : jstring) : jstring := nth 0 (split 61%N cur) [].

Definition value_of (cur : jstring) : Slot :=
  match nth_error (split 61%N cur) 1 with
  | Some v => SlotString v
  | None => SlotUndefined
  end.

(** [document.cookie.split(';').map(c => c.trim()).reduce(...)] *)
Definition parse_cookies (cookie : jstring) : list (jstring * Slot) :=
  fold_left (fun acc cur => assign acc (key_of cur) (value_of cur))
            (map trim (split 59%N cookie)) [].

(** ** The array [hints] and the loop over it *)

Record HintState : Type := mkHintState {
  hint_name : jstring;
  actual : jstring;
  cookie : Slot
}.

Definition hints (w : Window) : list HintState :=
  let cookies := parse_cookies (document_cookie w) in
  map (fun e =>
         {| hint_name := cookieName (snd e);
            actual := evaluate w (getValueCode (snd e));
            cookie := lookup cookies (cookieName (snd e)) |})
      clientHints.

(** [hint.cookie !== hint.actual] *)
Definition differs (h : HintState) : bool :=
  match cookie h with
  | SlotString s => negb (jeqb s (actual h))
  | SlotUndefined | SlotNative => true
  end.

(** What the script has done when it ends: the strings it assigned to
    [document.cookie], in order, and whether it reloaded the page. *)
Record Outcome : Type := mkOutcome {
  written : list jstring;
  reloaded : bool
}.

Definition check_step (st : Result (bool * list jstring)) (h : HintState)
  : Result (bool * list jstring) :=
  match st with
  | Throw m => Throw m
  | Ok (changed, out) =>
      if differs h then
        match encodeURIComponent (hint_name h) with
        | Throw m => Throw m
        | Ok n =>
            match encodeURIComponent (actual h) with
            | Throw m => Throw m
            | Ok a =>
                Ok (true,
                    out ++ [n ++ lit "=" ++ a
                            ++ lit "; Max-Age=31536000; Path=/"])
            end
        end
      else Ok (changed, out)
  end.

Definition script (w : Window) : Result Outcome :=
  match fold_left check_step (hints w) (Ok (false, [])) with
  | Throw m => Throw m
  | Ok (cookieChanged, out) =>
      Ok {| written := out; reloaded := cookieChanged && cookieEnabled w |}
  end.

(** The segments of a cookie string that the script files under one
    name. *)
Definition segments_named (name cookie : jstring) : list jstring :=
  filter (fun cur => jeqb (key_of cur) name) (map trim (split 59%N cookie)).

End HintCheck.

Module HintCases.
Import ClientHints HintCheck.

(** The attributes the script gives every cookie it writes. *)
Definition attributes : jstring := lit "; Max-Age=31536000; Path=/".

(** The state of a hint of the table in a window, as the script computes
    it. *)
Definition state_of (w : Window) (hint : Hint) : HintState :=
  {| hint_name := cookieName hint;
     actual := evaluate w (getValueCode hint);
     cookie := lookup (parse_cookies (document_cookie w)) (cookieName hint) |}.

(** The string the script assigns to [document.cookie] for a hint. *)
Definition cookie_text (w : Window) (hint : Hint) : jstring :=
  cookieName hint ++ lit "=" ++ evaluate w (getValueCode hint) ++ attributes.

(** A dark window whose cookies are in place, and one in which two
    cookies carry the name of the theme hint. *)
Definition settled_window : Window :=
  mkWindow true false true
    (lit "KCDShop_CH-prefers-color-scheme=dark; KCDShop_CH-reduced-motion=no-preference").

Definition doubled_window : Window :=
  mkWindow true false true
    (lit "KCDShop_CH-prefers-color-scheme=light; KCDShop_CH-prefers-color-scheme=dark; KCDShop_CH-reduced-motion=no-preference").

Definition fresh_window : Window := mkWindow false true true [].

End HintCases.

(* ================================================================== *)
(** * components/diff.tsx *)
(* ================================================================== *)

Module DiffView.

(** The element [<input key=... type="hidden" name=... value=... />]. *)
Record Input : Type := mkInput {
  input_key : string;
  input_type : string;
  input_name : string;
  input_value : string
}.

(** The loop of [Diff] over [params.entries()], the entries of the search
    parameters in their order, repeated names included: [continue] on
    [app1] and [app2], [push] otherwise. *)
Definition hiddenInputs (params : list (string * string)) : list Input :=
  fold_left
    (fun acc e =>
       if ((fst e =? "app1") || (fst e =? "app2"))%string then acc
       else acc ++ [ {| input_key := fst e;
                        input_type := "hidden";
                        input_name := fst e;
                        input_value := snd e |} ])
    params [].

(** [URLSearchParams.prototype.getAll]. *)
Definition getAll (params : list (string * string)) (name : string)
  : list string :=
  map snd (filter (fun e => (fst e =? name)%string) params).

(** The name and value pairs a list of inputs contributes to a form. *)
Definition fields (inputs : list Input) : list (string * string) :=
  map (fun i => (input_name i, input_value i)) inputs.

Definition search : list (string * string) :=
  [ ("app1", "01.problem"); ("tag", "a"); ("app2", "01.solution");
    ("tag", "b"); ("preview", "true"); ("app1", "02.problem") ].

End DiffView.

(* ================================================================== *)
(** * Properties *)
(* ================================================================== *)

Import Js Apps ProcessManager AdminRoute Spec.

(** ** Arrays: [findIndex] and the deduplicating [filter] *)

Section FindIndex.
Context {A : Type} (p : A -> bool).

Lemma findIndex_from_skip (l r : list A) (i : Z) :
  (forall x, In x l -> p x = false) ->
  findIndex_from p (l ++ r) i = findIndex_from p r (i + Z.of_nat (List.length l)).
Proof.
  revert i; induction l as [|x l IH]; intros i Hl; simpl.
  - f_equal; lia.
  - rewrite (Hl x) by (left; reflexivity).
    rewrite IH by (intros y Hy; apply Hl; right; exact Hy).
    f_equal; lia.
Qed.

Lemma findIndex_from_hit (l r : list A) (i : Z) (x : A) :
  In x l -> p x = true ->
  i <= findIndex_from p (l ++ r) i < i + Z.of_nat (List.length l).
Proof.
  revert i; induction l as [|y l IH]; intros i Hin Hp; simpl.
  - destruct Hin.
  - destruct (p y) eqn:Hy.
    + lia.
    + destruct Hin as [->|Hin]; [congruence|].
      specialize (IH (i + 1) Hin Hp). lia.
Qed.
End FindIndex.

Lemma existsb_eqb_In (n : string) (l : list string) :
  existsb (String.eqb n) l = true <-> In n l.
Proof.
  rewrite existsb_exists; split.
  - intros [x [Hx He]]. apply String.eqb_eq in He. now subst.
  - intros H. exists n. split; [exact H | apply String.eqb_refl].
Qed.

Lemma existsb_eqb_notIn (n : string) (l : list string) :
  existsb (String.eqb n) l = false <-> ~ In n l.
Proof.
  rewrite <- existsb_eqb_In. destruct (existsb _ _); split; congruence.
Qed.

(** The loader's filter, started in the middle of the array, is the walk
    that remembers the names already met. *)
Lemma filter_from_firstByName (pre l : list App) (seen : list string) :
  (forall n, In n seen <-> In n (names pre)) ->
  filter_from first_with_name (pre ++ l) l (Z.of_nat (List.length pre))
  = firstByName seen l.
Proof.
  revert pre seen; induction l as [|a l IH]; intros pre seen Hseen.
  - reflexivity.
  - cbn [filter_from firstByName].
    assert (Hnext : forall s', (forall n, In n s' <-> In n (names (pre ++ [a]))) ->
              filter_from first_with_name (pre ++ a :: l) l
                          (Z.of_nat (List.length pre) + 1)
              = firstByName s' l).
    { intros s' Hs'. specialize (IH (pre ++ [a]) s' Hs').
      rewrite <- app_assoc in IH. simpl in IH.
      rewrite length_app in IH. simpl in IH.
      replace (Z.of_nat (List.length pre + 1)) with (Z.of_nat (List.length pre) + 1) in IH
        by lia.
      exact IH. }
    unfold first_with_name at 1. unfold findIndex.
    destruct (existsb (String.eqb (name a)) seen) eqn:Hex.
    + apply existsb_eqb_In in Hex. apply Hseen in Hex.
      unfold names in Hex. apply in_map_iff in Hex.
      destruct Hex as [b [Hb Hin]].
      pose proof (@findIndex_from_hit _
                    (fun b => (name a =? name b)%string) pre (a :: l) 0 b Hin)
        as Hhit.
      cbv beta in Hhit.
      rewrite Hb, String.eqb_refl in Hhit. specialize (Hhit eq_refl).
      destruct (Z.eqb_spec
                  (findIndex_from (fun b => (name a =? name b)%string)
                                  (pre ++ a :: l) 0)
                  (Z.of_nat (List.length pre))) as [E|E]; [lia|].
      apply Hnext. intros n. rewrite Hseen. unfold names.
      rewrite map_app, in_app_iff. simpl. split; [tauto|].
      intros [H|[H|[]]]; [exact H|]. subst n.
      apply in_map_iff. exists b. split; [exact Hb | exact Hin].
    + apply existsb_eqb_notIn in Hex.
      rewrite findIndex_from_skip.
      2:{ intros x Hx. apply String.eqb_neq. intros E. apply Hex.
          apply Hseen. unfold names. apply in_map_iff.
          exists x. split; [symmetry; exact E | exact Hx]. }
      simpl. rewrite String.eqb_refl, Z.eqb_refl.
      f_equal. apply Hnext. intros n. unfold names.
      rewrite map_app, in_app_iff. simpl. rewrite Hseen. unfold names.
      tauto.
Qed.

Lemma uniqueApps_firstByName (catalog : list App) :
  Array_filter first_with_name catalog = firstByName [] catalog.
Proof.
  unfold Array_filter.
  apply (@filter_from_firstByName [] catalog []).
  intros n; simpl; tauto.
Qed.

(** ** The walk that keeps first occurrences *)

Lemma firstByName_names (seen : list string) (l : list App) (n : string) :
  In n (names (firstByName seen l)) <-> In n (names l) /\ ~ In n seen.
Proof.
  revert seen; induction l as [|a l IH]; intros seen; simpl.
  - tauto.
  - destruct (existsb (String.eqb (name a)) seen) eqn:Hex.
    + apply existsb_eqb_In in Hex. rewrite IH.
      split; [tauto|]. intros [[E|H] Hn]; [subst; tauto | tauto].
    + apply existsb_eqb_notIn in Hex. simpl. rewrite IH. simpl.
      destruct (string_dec (name a) n) as [E|E].
      * subst. tauto.
      * tauto.
Qed.

Lemma firstByName_NoDup (seen : list string) (l : list App) :
  NoDup (names (firstByName seen l)).
Proof.
  revert seen; induction l as [|a l IH]; intros seen; simpl.
  - constructor.
  - destruct (existsb (String.eqb (name a)) seen) eqn:Hex; [apply IH|].
    simpl. constructor; [|apply IH].
    rewrite firstByName_names. simpl. tauto.
Qed.

Lemma firstByName_Subseq (seen : list string) (l : list App) :
  Subseq (firstByName seen l) l.
Proof.
  revert seen; induction l as [|a l IH]; intros seen; simpl.
  - constructor.
  - destruct (existsb (String.eqb (name a)) seen);
      [apply Subseq_skip | apply Subseq_keep]; apply IH.
Qed.

Lemma firstByName_first (seen : list string) (l : list App) (a : App) :
  In a (firstByName seen l) ->
  exists pre post,
    l = pre ++ a :: post /\ ~ In (name a) (names pre) /\ ~ In (name a) seen.
Proof.
  revert seen; induction l as [|b l IH]; intros seen; simpl.
  - intros [].
  - destruct (existsb (String.eqb (name b)) seen) eqn:Hex.
    + intros Hin. destruct (IH _ Hin) as [pre [post [E [H1 H2]]]].
      apply existsb_eqb_In in Hex.
      exists (b :: pre), post. subst l. split; [reflexivity|].
      split; [|exact H2]. simpl. intros [E|H]; [|tauto].
      apply H2. rewrite <- E. exact Hex.
    + apply existsb_eqb_notIn in Hex. intros [E|Hin].
      * subst b. exists [], l. simpl. tauto.
      * destruct (IH _ Hin) as [pre [post [E [H1 H2]]]].
        exists (b :: pre), post. subst l. split; [reflexivity|].
        simpl in H2 |- *. tauto.
Qed.

Lemma firstByName_fixed (seen : list string) (l : list App) :
  NoDup (names l) -> (forall n, In n (names l) -> ~ In n seen) ->
  firstByName seen l = l.
Proof.
  revert seen; induction l as [|a l IH]; intros seen Hnd Hdis; simpl.
  - reflexivity.
  - simpl in Hnd. inversion Hnd as [|x xs Hnotin Hnd']; subst.
    assert (Hex : existsb (String.eqb (name a)) seen = false).
    { apply existsb_eqb_notIn. apply Hdis. simpl. tauto. }
    rewrite Hex. f_equal. apply IH; [exact Hnd'|].
    intros n Hn [E|Hs].
    + subst n. exact (Hnotin Hn).
    + apply (Hdis n); [simpl; tauto | exact Hs].
Qed.

Lemma NoDup_count_once (l : list string) (n : string) :
  NoDup l ->
  count_occ string_dec l n = if in_dec string_dec n l then 1%nat else 0%nat.
Proof.
  intros Hnd. destruct (in_dec string_dec n l) as [Hin|Hout].
  - apply (proj1 (NoDup_count_occ' string_dec l) Hnd). exact Hin.
  - apply count_occ_not_In. exact Hout.
Qed.

(** ** Own properties *)

Section PropsFacts.
Context {V : Type}.
Implicit Types (ps : list (string * V)) (k : string) (v : V).

Lemma own_set_fresh ps k v :
  ~ In k (keys ps) -> own_set ps k v = ps ++ [(k, v)].
Proof.
  induction ps as [|[k' v'] ps IH]; simpl; intros Hk.
  - reflexivity.
  - destruct (String.eqb_spec k' k) as [E|E]; [tauto|].
    rewrite IH by tauto. reflexivity.
Qed.

Lemma keys_own_set_present ps k v :
  In k (keys ps) -> keys (own_set ps k v) = keys ps.
Proof.
  induction ps as [|[k' v'] ps IH]; simpl; intros Hk.
  - destruct Hk.
  - destruct (String.eqb_spec k' k) as [E|E]; simpl.
    + reflexivity.
    + f_equal. apply IH. destruct Hk; [contradiction | assumption].
Qed.

Lemma In_keys_own_set ps k v k' :
  In k' (keys (own_set ps k v)) <-> In k' (keys ps) \/ k' = k.
Proof.
  destruct (in_dec string_dec k (keys ps)) as [Hin|Hout].
  - rewrite keys_own_set_present by exact Hin.
    split; [tauto|]. intros [H|H]; [exact H | subst; exact Hin].
  - rewrite own_set_fresh by exact Hout. unfold keys.
    rewrite map_app, in_app_iff. simpl. intuition congruence.
Qed.

Lemma NoDup_keys_own_set ps k v :
  NoDup (keys ps) -> NoDup (keys (own_set ps k v)).
Proof.
  intros Hnd. destruct (in_dec string_dec k (keys ps)) as [Hin|Hout].
  - rewrite keys_own_set_present by exact Hin. exact Hnd.
  - rewrite own_set_fresh by exact Hout. unfold keys. rewrite map_app.
    simpl. apply NoDup_app; [exact Hnd | repeat constructor; intros [] |].
    intros x Hx [E|[]]. subst x. exact (Hout Hx).
Qed.

Lemma Forall_own_set (P : string * V -> Prop) ps k v :
  Forall P ps -> (forall k', k' = k -> P (k', v)) ->
  Forall P (own_set ps k v).
Proof.
  intros Hps Hv. induction Hps as [|[k' v'] ps Hx Hps IH]; simpl.
  - constructor; [apply Hv; reflexivity | constructor].
  - destruct (String.eqb_spec k' k) as [E|E].
    + constructor; [apply Hv; exact E | exact Hps].
    + constructor; [exact Hx | exact IH].
Qed.

Lemma own_get_None ps k : own_get ps k = None <-> ~ In k (keys ps).
Proof.
  induction ps as [|[k' v'] ps IH]; simpl.
  - tauto.
  - destruct (String.eqb_spec k' k) as [E|E].
    + split; [discriminate | tauto].
    + rewrite IH. tauto.
Qed.

Lemma own_get_Some_In ps k v : own_get ps k = Some v -> In (k, v) ps.
Proof.
  induction ps as [|[k' v'] ps IH]; simpl.
  - discriminate.
  - destruct (String.eqb_spec k' k) as [E|E].
    + intros [= ->]. left. congruence.
    + intros H. right. exact (IH H).
Qed.

Lemma NoDup_keys_filter (f : string * V -> bool) ps :
  NoDup (keys ps) -> NoDup (keys (filter f ps)).
Proof.
  induction ps as [|e ps IH]; simpl; intros Hnd.
  - constructor.
  - inversion Hnd as [|x xs Hnotin Hnd']; subst.
    destruct (f e); simpl; [|apply IH; exact Hnd'].
    constructor; [|apply IH; exact Hnd'].
    intros Hin. apply Hnotin. unfold keys in *.
    apply in_map_iff in Hin. destruct Hin as [y [Hy Hin]].
    apply filter_In in Hin. apply in_map_iff. exists y. tauto.
Qed.

(** *** Own-property order is a rearrangement *)

Lemma insert_by_index_perm (e : string * V) ps :
  Permutation (insert_by_index e ps) (e :: ps).
Proof.
  induction ps as [|e' ps IH]; simpl.
  - apply Permutation_refl.
  - destruct (index_of (fst e) <=? index_of (fst e'))%N.
    + apply Permutation_refl.
    + apply perm_trans with (e' :: e :: ps).
      * apply perm_skip. exact IH.
      * apply perm_swap.
Qed.

Lemma sort_by_index_perm ps : Permutation (sort_by_index ps) ps.
Proof.
  induction ps as [|e ps IH]; simpl.
  - apply perm_nil.
  - apply perm_trans with (e :: sort_by_index ps).
    + apply insert_by_index_perm.
    + apply perm_skip. exact IH.
Qed.

Lemma filter_split_perm (f : string * V -> bool) ps :
  Permutation (filter f ps ++ filter (fun e => negb (f e)) ps) ps.
Proof.
  induction ps as [|e ps IH]; simpl.
  - apply perm_nil.
  - destruct (f e); simpl.
    + apply perm_skip. exact IH.
    + apply Permutation_sym. apply Permutation_cons_app.
      apply Permutation_sym. exact IH.
Qed.

Lemma ordered_perm ps : Permutation (ordered ps) ps.
Proof.
  unfold ordered.
  apply perm_trans
    with (filter (fun e => is_array_index (fst e)) ps
          ++ filter (fun e => negb (is_array_index (fst e))) ps).
  - apply Permutation_app_tail. apply sort_by_index_perm.
  - apply (filter_split_perm (fun e => is_array_index (fst e))).
Qed.

Lemma ordered_keys_perm ps : Permutation (keys (ordered ps)) (keys ps).
Proof. unfold keys. apply Permutation_map. apply ordered_perm. Qed.

Lemma ordered_NoDup ps : NoDup (keys ps) -> NoDup (keys (ordered ps)).
Proof.
  intros H. eapply Permutation_NoDup; [|exact H].
  apply Permutation_sym. apply ordered_keys_perm.
Qed.

Lemma ordered_In ps (e : string * V) : In e (ordered ps) <-> In e ps.
Proof.
  split; apply Permutation_in;
    [apply ordered_perm | apply Permutation_sym; apply ordered_perm].
Qed.

(** Without array indices among the keys, creation order is kept. *)
Lemma ordered_plain ps :
  (forall k, In k (keys ps) -> is_array_index k = false) ->
  ordered ps = ps.
Proof.
  intros Hplain. unfold ordered.
  assert (H1 : filter (fun e : string * V => is_array_index (fst e)) ps = []).
  { induction ps as [|e ps IH]; simpl; [reflexivity|].
    rewrite (Hplain (fst e)) by (left; reflexivity).
    apply IH. intros k Hk. apply Hplain. right. exact Hk. }
  assert (H2 : filter (fun e : string * V => negb (is_array_index (fst e))) ps
               = ps).
  { induction ps as [|e ps IH]; simpl; [reflexivity|].
    rewrite (Hplain (fst e)) by (left; reflexivity). simpl.
    f_equal. apply IH; [intros k Hk; apply Hplain; right; exact Hk|].
    clear -H1. simpl in H1.
    destruct (is_array_index (fst e)); [discriminate | exact H1]. }
  rewrite H1, H2. reflexivity.
Qed.

End PropsFacts.

(** ** Map *)

Lemma Map_of_ops_NoDup {V : Type} (ops : list (MapOp V)) :
  NoDup (keys (Map_of_ops ops)).
Proof.
  unfold Map_of_ops.
  assert (H : forall m : JsMap V,
             NoDup (keys m) -> NoDup (keys (fold_left (@Map_step V) ops m))).
  { induction ops as [|op ops IH]; intros m Hm; simpl.
    - exact Hm.
    - apply IH. destruct op as [k v|k|]; simpl.
      + apply NoDup_keys_own_set. exact Hm.
      + apply NoDup_keys_filter. exact Hm.
      + constructor. }
  apply H. constructor.
Qed.

(** Every list of entries with pairwise distinct keys is the content of a
    [Map]: set them one after the other. *)
Lemma Map_of_ops_sets {V : Type} (m : JsMap V) :
  NoDup (keys m) ->
  Map_of_ops (map (fun e => OpSet (fst e) (snd e)) m) = m.
Proof.
  unfold Map_of_ops.
  assert (H : forall acc : JsMap V,
             NoDup (keys (acc ++ m)) ->
             fold_left (@Map_step V)
                       (map (fun e => OpSet (fst e) (snd e)) m) acc
             = acc ++ m).
  { induction m as [|[k v] m IH]; intros acc Hnd; simpl.
    - rewrite app_nil_r. reflexivity.
    - unfold Map_set. rewrite own_set_fresh.
      + rewrite IH; rewrite <- app_assoc; [reflexivity | exact Hnd].
      + unfold keys in Hnd. rewrite map_app in Hnd. simpl in Hnd.
        apply NoDup_remove_2 in Hnd. intros Hin. apply Hnd.
        apply in_or_app. left. exact Hin. }
  intros Hnd. apply (H []). exact Hnd.
Qed.

(** ** JSON transport *)

Lemma JSON_roundtrip_obj (ps : list (string * JsVal)) :
  JSON_roundtrip (VObj ps) = VObj (ordered (kept_props ps)).
Proof.
  simpl. do 2 f_equal. unfold kept_props.
  induction ps as [|[k x] ps IH]; simpl.
  - reflexivity.
  - destruct (serializable x); simpl; rewrite IH; reflexivity.
Qed.

Lemma roundtrip_props_eq (ps : list (string * JsVal)) :
  roundtrip_props ps = ordered (kept_props ps).
Proof. unfold roundtrip_props. rewrite JSON_roundtrip_obj. reflexivity. Qed.

Lemma keys_kept_props (ps : list (string * JsVal)) :
  keys (kept_props ps) = keys (filter (fun e => serializable (snd e)) ps).
Proof. unfold kept_props, keys. rewrite map_map. reflexivity. Qed.

Lemma roundtrip_props_NoDup (ps : list (string * JsVal)) :
  NoDup (keys ps) -> NoDup (keys (roundtrip_props ps)).
Proof.
  intros H. rewrite roundtrip_props_eq. apply ordered_NoDup.
  rewrite keys_kept_props. apply NoDup_keys_filter. exact H.
Qed.

(** Sorting by index does not depend on the values. *)
Lemma sort_by_index_map {V W : Type} (f : V -> W) (ps : list (string * V)) :
  sort_by_index (map (fun e => (fst e, f (snd e))) ps)
  = map (fun e => (fst e, f (snd e))) (sort_by_index ps).
Proof.
  induction ps as [|e ps IH]; simpl; [reflexivity|].
  rewrite IH. generalize (sort_by_index ps) as l.
  induction l as [|e' l IHl]; simpl; [reflexivity|].
  destruct (index_of (fst e) <=? index_of (fst e'))%N; simpl.
  - reflexivity.
  - rewrite IHl. reflexivity.
Qed.

Lemma ordered_map {V W : Type} (f : V -> W) (ps : list (string * V)) :
  ordered (map (fun e => (fst e, f (snd e))) ps)
  = map (fun e => (fst e, f (snd e))) (ordered ps).
Proof.
  unfold ordered. rewrite map_app, <- sort_by_index_map. f_equal.
  - f_equal. induction ps as [|e ps IH]; simpl; [reflexivity|].
    destruct (is_array_index (fst e)); simpl; rewrite IH; reflexivity.
  - induction ps as [|e ps IH]; simpl; [reflexivity|].
    destruct (is_array_index (fst e)); simpl; rewrite IH; reflexivity.
Qed.

(** ** The loader's loops *)

Section Collect.
Context {V : Type} (entry : V -> JsVal).

(** Every entry the loop stores is an object literal without a
    ["__proto__"] property of its own. *)
Hypothesis entry_literal :
  forall p, exists ps, entry p = VObj ps /\ own_get ps "__proto__" = None.

Lemma collect_step_own (acc : JsObject) (e : string * V) :
  proto_accessor_reachable acc = true ->
  own (collect_step entry acc e) = own_step entry (own acc) e
  /\ proto_accessor_reachable (collect_step entry acc e) = true.
Proof.
  intros Hr. unfold collect_step, own_step, obj_set.
  destruct (fst e =? "__proto__")%string; rewrite ?Hr; simpl.
  - destruct (entry_literal (snd e)) as [ps [-> Hps]]. simpl.
    unfold proto_accessor_reachable. simpl. rewrite Hps. tauto.
  - split; [reflexivity | exact Hr].
Qed.

Lemma fold_collect_own (m : list (string * V)) (acc : JsObject) :
  proto_accessor_reachable acc = true ->
  own (fold_left (collect_step entry) m acc) = fold_left (own_step entry) m (own acc).
Proof.
  revert acc; induction m as [|e m IH]; intros acc Hr; simpl.
  - reflexivity.
  - destruct (collect_step_own acc e Hr) as [Ho Hr'].
    rewrite IH by exact Hr'. rewrite Ho. reflexivity.
Qed.

(** The own properties the loop leaves behind, without the object
    around them. *)
Lemma collect_own (m : JsMap V) :
  own (collect entry m) = fold_left (own_step entry) m [].
Proof.
  unfold collect, Map_entries.
  change (fun acc e => obj_set acc (fst e) (entry (snd e)))
    with (collect_step entry).
  apply (fold_collect_own m empty_object). reflexivity.
Qed.

Lemma fold_own_step_NoDup (m : list (string * V)) ps :
  NoDup (keys ps) -> NoDup (keys (fold_left (own_step entry) m ps)).
Proof.
  revert ps; induction m as [|e m IH]; intros ps Hnd; simpl.
  - exact Hnd.
  - apply IH. unfold own_step.
    destruct (fst e =? "__proto__")%string;
      [exact Hnd | apply NoDup_keys_own_set; exact Hnd].
Qed.

Lemma fold_own_step_keys (m : list (string * V)) ps k :
  In k (keys (fold_left (own_step entry) m ps))
  <-> In k (keys ps) \/ (In k (keys m) /\ k <> "__proto__").
Proof.
  revert ps; induction m as [|e m IH]; intros ps; simpl.
  - tauto.
  - rewrite IH. unfold own_step.
    destruct (String.eqb_spec (fst e) "__proto__") as [E|E].
    + split; [tauto|]. intros [H|[[H|H] Hk]]; [tauto | congruence | tauto].
    + rewrite In_keys_own_set. split.
      * intros [[H|H]|H]; [tauto | subst k; tauto | tauto].
      * intros [H|[[H|H] Hk]]; [tauto | subst k; tauto | tauto].
Qed.

Lemma fold_own_step_values (m : list (string * V)) ps :
  Forall (fun e => exists p, snd e = entry p) ps ->
  Forall (fun e => exists p, snd e = entry p) (fold_left (own_step entry) m ps).
Proof.
  revert ps; induction m as [|e m IH]; intros ps Hps; simpl.
  - exact Hps.
  - apply IH. unfold own_step.
    destruct (fst e =? "__proto__")%string; [exact Hps|].
    apply Forall_own_set; [exact Hps|].
    intros k' _. exists (snd e). reflexivity.
Qed.

(** With pairwise distinct keys every assignment appends. *)
Lemma fold_own_step_distinct (m : list (string * V)) ps :
  NoDup (keys ps ++ keys m) ->
  fold_left (own_step entry) m ps
  = ps ++ map (fun e => (fst e, entry (snd e)))
              (filter (fun e => negb (fst e =? "__proto__")%string) m).
Proof.
  revert ps; induction m as [|e m IH]; intros ps Hnd; simpl.
  - rewrite app_nil_r. reflexivity.
  - assert (Hrest : NoDup (keys ps ++ keys m)).
    { simpl in Hnd. apply NoDup_remove_1 in Hnd. exact Hnd. }
    unfold own_step at 2.
    destruct (fst e =? "__proto__")%string; simpl.
    + apply IH. exact Hrest.
    + rewrite own_set_fresh.
      * rewrite IH.
        -- rewrite <- app_assoc. reflexivity.
        -- unfold keys. rewrite map_app. simpl. rewrite <- app_assoc.
           simpl. exact Hnd.
      * simpl in Hnd. apply NoDup_remove_2 in Hnd. intros Hin.
        apply Hnd. apply in_or_app. left. exact Hin.
Qed.

Lemma collect_own_distinct (m : JsMap V) :
  NoDup (keys m) ->
  own (collect entry m)
  = map (fun e => (fst e, entry (snd e)))
        (filter (fun e => negb (fst e =? "__proto__")%string) m).
Proof.
  intros Hnd. rewrite collect_own.
  rewrite fold_own_step_distinct; [reflexivity | exact Hnd].
Qed.

Lemma collect_own_NoDup (m : JsMap V) : NoDup (keys (own (collect entry m))).
Proof. rewrite collect_own. apply fold_own_step_NoDup. constructor. Qed.

Lemma collect_own_keys (m : JsMap V) (k : string) :
  In k (keys (own (collect entry m)))
  <-> In k (keys m) /\ k <> "__proto__".
Proof. rewrite collect_own, fold_own_step_keys. simpl. tauto. Qed.

Lemma collect_own_values (m : JsMap V) :
  Forall (fun e => exists p, snd e = entry p) (own (collect entry m)).
Proof. rewrite collect_own. apply fold_own_step_values. constructor. Qed.

End Collect.

Lemma dev_entry_literal (p : DevProcess) :
  exists ps, dev_entry p = VObj ps /\ own_get ps "__proto__" = None.
Proof. eexists. split; reflexivity. Qed.

Lemma test_entry_literal (p : TestProcess) :
  exists ps, test_entry p = VObj ps /\ own_get ps "__proto__" = None.
Proof. eexists. split; reflexivity. Qed.

(** ** The loader, unfolded *)

Lemma loader_eq (env : Env) (request : Request) (w : World) :
  loader env request w
  = match ensureUndeployed env with
    | Some e => (Thrown e, w)
    | None =>
        (Returned
           (json (mkLoaderData
                    (Array_filter first_with_name (getApps env request))
                    (collect dev_entry (devProcesses (registries w)))
                    (collect test_entry
                             (ProcessManager.testProcesses (registries w)))
                    (__inspector_open__ w))
                 [("Server-Timing", getServerTimeHeader env)]),
         w)
    end.
Proof.
  unfold loader, bind, outcome_of.
  destruct (ensureUndeployed env); reflexivity.
Qed.

Lemma query_inv (env : Env) (request : Request) (w : World) (d : LoaderData) :
  query env request w = Some d ->
  ensureUndeployed env = None
  /\ d = mkLoaderData
           (Array_filter first_with_name (getApps env request))
           (collect dev_entry (devProcesses (registries w)))
           (collect test_entry (ProcessManager.testProcesses (registries w)))
           (__inspector_open__ w).
Proof.
  unfold query. rewrite loader_eq.
  destruct (ensureUndeployed env); simpl; [discriminate|].
  intros [= <-]. split; reflexivity.
Qed.

Lemma loader_world (env : Env) (request : Request) (w : World) :
  snd (loader env request w) = w.
Proof. rewrite loader_eq. destruct (ensureUndeployed env); reflexivity. Qed.

Lemma NoDup_at_most_once (l : list string) (n : string) :
  NoDup l -> (count_occ string_dec l n <= 1)%nat.
Proof. intros H. apply (proj1 (NoDup_count_occ string_dec l) H). Qed.

Lemma layout_process_names (data : ClientData) :
  map fst (processItems (AdminLayout data))
  = keys (Object_entries (data_processes data)).
Proof.
  unfold AdminLayout, keys; simpl. rewrite map_map.
  apply map_ext. intros [k v]; simpl. destruct v; reflexivity.
Qed.

Lemma layout_test_names (data : ClientData) :
  map fst (testItems (AdminLayout data))
  = keys (Object_entries (data_testProcesses data)).
Proof.
  unfold AdminLayout, keys; simpl. rewrite map_map.
  apply map_ext. intros [k v]; simpl. destruct v; reflexivity.
Qed.

(** ** Registries and listings: one handle per name *)

(** C1.  A registry is a [Map], so whatever calls built it, it holds at
    most one handle per app name; and each listing made from a registry,
    the object the loader returns as well as the rows the view renders
    from it, names every app at most once. *)
Theorem one_handle_per_name
        (dev_calls : list (MapOp DevProcess))
        (test_calls : list (MapOp TestProcess))
        (env : Env) (request : Request) (w : World) (d : LoaderData)
        (app : string) :
  registries w = mkProcesses (Map_of_ops dev_calls) (Map_of_ops test_calls) ->
  query env request w = Some d ->
  let view := AdminLayout (useLoaderData d) in
  (count_occ string_dec (keys (devProcesses (registries w))) app <= 1
   /\ count_occ string_dec
                (keys (ProcessManager.testProcesses (registries w))) app <= 1
   /\ count_occ string_dec (keys (Object_entries (own (processes d)))) app <= 1
   /\ count_occ string_dec
                (keys (Object_entries (own (testProcesses d)))) app <= 1
   /\ count_occ string_dec (map fst (processItems view)) app <= 1
   /\ count_occ string_dec (map fst (testItems view)) app <= 1)%nat.
Proof.
  intros Hreg Hq view. apply query_inv in Hq. destruct Hq as [_ ->].
  subst view. rewrite layout_process_names, layout_test_names.
  rewrite Hreg. simpl.
  repeat split; apply NoDup_at_most_once.
  - apply Map_of_ops_NoDup.
  - apply Map_of_ops_NoDup.
  - apply ordered_NoDup. apply collect_own_NoDup. exact dev_entry_literal.
  - apply ordered_NoDup. apply collect_own_NoDup. exact test_entry_literal.
  - apply ordered_NoDup. apply roundtrip_props_NoDup.
    apply collect_own_NoDup. exact dev_entry_literal.
  - apply ordered_NoDup. apply roundtrip_props_NoDup.
    apply collect_own_NoDup. exact test_entry_literal.
Qed.

Lemma one_handle_per_name_witness :
  let d := Fixtures.data_of Fixtures.world in
  let view := AdminLayout (useLoaderData d) in
  (count_occ string_dec (keys (devProcesses (registries Fixtures.world))) "a"
   <= 1
   /\ count_occ string_dec
                (keys (ProcessManager.testProcesses
                         (registries Fixtures.world))) "a" <= 1
   /\ count_occ string_dec (keys (Object_entries (own (processes d)))) "a" <= 1
   /\ count_occ string_dec
                (keys (Object_entries (own (testProcesses d)))) "a" <= 1
   /\ count_occ string_dec (map fst (processItems view)) "a" <= 1
   /\ count_occ string_dec (map fst (testItems view)) "a" <= 1)%nat.
Proof.
  exact (@one_handle_per_name Fixtures.dev_ops Fixtures.test_ops Fixtures.env
           Fixtures.get_request Fixtures.world
           (Fixtures.data_of Fixtures.world) "a" eq_refl eq_refl).
Defined.

(** ** The status query reads only *)

(** C6.  Whatever the registries, the allocator and the inspector flag
    are, and whether the query returns or is refused, the world after the
    loader is the world before it: same registry entries with the same
    fields, same used ports. *)
Theorem loader_reads_only (env : Env) (request : Request) (w : World) :
  snd (loader env request w) = w
  /\ devProcesses (registries (snd (loader env request w)))
     = devProcesses (registries w)
  /\ ProcessManager.testProcesses (registries (snd (loader env request w)))
     = ProcessManager.testProcesses (registries w)
  /\ usedPorts (snd (loader env request w)) = usedPorts w.
Proof.
  rewrite loader_world. repeat split; reflexivity.
Qed.

Lemma loader_reads_only_witness :
  snd (loader Fixtures.env Fixtures.get_request Fixtures.world)
  = Fixtures.world.
Proof.
  exact (proj1 (loader_reads_only Fixtures.env Fixtures.get_request
                  Fixtures.world)).
Defined.

(** ** Deduplication of the catalog *)

Lemma layout_app_names (d : LoaderData) :
  map snd (appItems (AdminLayout (useLoaderData d))) = names (apps d).
Proof. unfold AdminLayout, names; simpl. rewrite map_map. reflexivity. Qed.

(** C3.  Whatever catalog [getApps] resolves to, duplicates included, the
    apps the loader returns, and with them the rows of the app list of the
    view, carry every name of the catalog exactly once and no other
    name. *)
Theorem apps_deduplicated_by_name
        (env : Env) (request : Request) (w : World) (d : LoaderData)
        (n : string) :
  query env request w = Some d ->
  count_occ string_dec (names (apps d)) n
  = (if in_dec string_dec n (names (getApps env request)) then 1 else 0)%nat
  /\ map snd (appItems (AdminLayout (useLoaderData d))) = names (apps d).
Proof.
  intros Hq. split; [|apply layout_app_names].
  apply query_inv in Hq. destruct Hq as [_ ->]. simpl.
  rewrite uniqueApps_firstByName.
  rewrite NoDup_count_once by apply firstByName_NoDup.
  destruct (in_dec string_dec n (names (firstByName [] (getApps env request))))
    as [Hin|Hout];
    destruct (in_dec string_dec n (names (getApps env request)))
      as [Hin'|Hout']; try reflexivity.
  - apply firstByName_names in Hin. tauto.
  - exfalso. apply Hout. apply firstByName_names. simpl. tauto.
Qed.

Lemma apps_deduplicated_by_name_witness :
  count_occ string_dec (names (Fixtures.catalog)) "a" = 2%nat
  /\ count_occ string_dec (names (apps (Fixtures.data_of Fixtures.world))) "a"
     = 1%nat.
Proof.
  split; [reflexivity|].
  exact (proj1 (@apps_deduplicated_by_name Fixtures.env Fixtures.get_request
                  Fixtures.world (Fixtures.data_of Fixtures.world) "a"
                  eq_refl)).
Defined.

(** C9.  The deduplication at the head of the loader is the walk that
    keeps a record exactly when its name has not been met before: what it
    returns is the catalog with records left out and the others in place,
    every record it returns stands in the catalog before any other record
    of the same name, doing it twice is doing it once, and a catalog
    without duplicate names comes back as it is. *)
Theorem dedup_keeps_first_in_order (catalog : list App) :
  let dedup := Array_filter first_with_name in
  dedup catalog = firstByName [] catalog
  /\ Subseq (dedup catalog) catalog
  /\ (forall a, In a (dedup catalog) ->
        exists before after,
          catalog = before ++ a :: after
          /\ ~ In (name a) (names before))
  /\ dedup (dedup catalog) = dedup catalog
  /\ (NoDup (names catalog) -> dedup catalog = catalog).
Proof.
  intros dedup. subst dedup. rewrite !uniqueApps_firstByName.
  split; [reflexivity|].
  split; [apply firstByName_Subseq|].
  split.
  { intros a Ha. destruct (firstByName_first _ _ _ Ha)
      as [pre [post [E [H _]]]].
    exists pre, post. tauto. }
  split.
  - apply firstByName_fixed; [apply firstByName_NoDup | intros n _ []].
  - intros Hnd. apply firstByName_fixed; [exact Hnd | intros n _ []].
Qed.

Lemma dedup_keeps_first_in_order_witness :
  let kept := Array_filter first_with_name Fixtures.catalog in
  kept = [ mkApp "a" "First a" "/workshop/a"; mkApp "b" "Only b" "/workshop/b" ]
  /\ NoDup (names kept)
  /\ Array_filter first_with_name kept = kept.
Proof.
  assert (Hnd : NoDup (names (Array_filter first_with_name Fixtures.catalog))).
  { repeat constructor; simpl; intuition discriminate. }
  split; [reflexivity|]. split; [exact Hnd|].
  exact (proj2 (proj2 (proj2 (proj2
           (dedup_keeps_first_in_order
              (Array_filter first_with_name Fixtures.catalog))))) Hnd).
Defined.

(** ** What the listings hold *)

Lemma keys_dev_entry (p : DevProcess) :
  exists ps, dev_entry p = VObj ps /\ keys ps = ["port"; "pid"; "color"].
Proof. eexists. split; reflexivity. Qed.

Lemma keys_test_entry (p : TestProcess) :
  exists ps, test_entry p = VObj ps /\ keys ps = ["pid"; "exitCode"].
Proof. eexists. split; reflexivity. Qed.

Lemma In_keys {V : Type} (ps : list (string * V)) (k : string) (v : V) :
  In (k, v) ps -> In k (keys ps).
Proof. intros H. change k with (fst (k, v)). apply in_map. exact H. Qed.

Section Listing.
Context {V : Type} (entry : V -> JsVal).
Hypothesis entry_literal :
  forall p, exists ps, entry p = VObj ps /\ own_get ps "__proto__" = None.

(** An entry of the listing is the literal built from a handle of the
    registry, under the name of a handle of the registry. *)
Lemma listing_entry (m : JsMap V) (k : string) (v : JsVal) :
  In (k, v) (Object_entries (own (collect entry m))) ->
  In k (keys m) /\ exists p, v = entry p.
Proof.
  intros Hin. unfold Object_entries in Hin.
  apply (proj1 (ordered_In _ _)) in Hin. split.
  - apply (collect_own_keys entry entry_literal m k).
    apply In_keys with v. exact Hin.
  - pose proof (collect_own_values entry entry_literal m) as Hall.
    rewrite Forall_forall in Hall. exact (Hall _ Hin).
Qed.
End Listing.

(** C4, as the code has it.  Every entry of the dev-server listing the
    loader builds is an object with exactly the properties [port], [pid]
    and [color], filed under the app name of a handle of the registry:
    there is no [status] property.  Every entry of the test listing is an
    object with exactly [pid] and [exitCode], filed under the app name. *)
Theorem listing_entry_fields
        (env : Env) (request : Request) (w : World) (d : LoaderData)
        (appName : string) (v : JsVal) :
  query env request w = Some d ->
  (In (appName, v) (Object_entries (own (processes d))) ->
   In appName (keys (devProcesses (registries w)))
   /\ exists ps, v = VObj ps /\ keys ps = ["port"; "pid"; "color"])
  /\ (In (appName, v) (Object_entries (own (testProcesses d))) ->
      In appName (keys (ProcessManager.testProcesses (registries w)))
      /\ exists ps, v = VObj ps /\ keys ps = ["pid"; "exitCode"]).
Proof.
  intros Hq. apply query_inv in Hq. destruct Hq as [_ ->]. simpl. split.
  - intros Hin.
    destruct (listing_entry dev_entry dev_entry_literal _ _ _ Hin)
      as [Hk [p ->]].
    split; [exact Hk | apply keys_dev_entry].
  - intros Hin.
    destruct (listing_entry test_entry test_entry_literal _ _ _ Hin)
      as [Hk [p ->]].
    split; [exact Hk | apply keys_test_entry].
Qed.

Lemma listing_entry_fields_witness :
  let v := VObj [("port", VNum 3001); ("pid", VNum 4242);
                 ("color", VStr "green")] in
  In ("b", v)
     (Object_entries (own (processes (Fixtures.data_of Fixtures.world))))
  /\ In "b" (keys (devProcesses (registries Fixtures.world)))
  /\ exists ps, v = VObj ps /\ keys ps = ["port"; "pid"; "color"].
Proof.
  assert (Hin : In ("b", VObj [("port", VNum 3001); ("pid", VNum 4242);
                                ("color", VStr "green")])
                   (Object_entries
                      (own (processes (Fixtures.data_of Fixtures.world))))).
  { right. left. reflexivity. }
  split; [exact Hin|].
  exact (proj1 (@listing_entry_fields Fixtures.env Fixtures.get_request
                  Fixtures.world (Fixtures.data_of Fixtures.world) "b" _
                  eq_refl) Hin).
Defined.

(** C4, as stated, fails: the entry of app ["b"] in the listing made from
    [Fixtures.world] has three properties, and [status] is not one of
    them. *)
Lemma dev_listing_has_no_status :
  ~ (forall (env : Env) (request : Request) (w : World) (d : LoaderData)
            (appName : string) (v : JsVal),
        query env request w = Some d ->
        In (appName, v) (Object_entries (own (processes d))) ->
        exists ps,
          v = VObj ps
          /\ Permutation (keys ps) ["port"; "pid"; "color"; "status"]).
Proof.
  intros H.
  destruct (H Fixtures.env Fixtures.get_request Fixtures.world
              (Fixtures.data_of Fixtures.world) "b"
              (VObj [("port", VNum 3001); ("pid", VNum 4242);
                     ("color", VStr "green")])
              eq_refl (or_intror (or_introl eq_refl)))
    as [ps [E Hperm]].
  injection E as <-. apply Permutation_length in Hperm. discriminate Hperm.
Qed.

(** ** What the view is handed *)

Lemma kept_props_all (ps : list (string * JsVal)) :
  Forall (fun e => serializable (snd e) = true) ps ->
  kept_props ps = map (fun e => (fst e, JSON_roundtrip (snd e))) ps.
Proof.
  unfold kept_props. intros H. f_equal.
  induction H as [|e l He _ IH]; simpl; [reflexivity|].
  rewrite He, IH. reflexivity.
Qed.

Lemma keys_map_snd {V W : Type} (f : V -> W) (ps : list (string * V)) :
  keys (map (fun e => (fst e, f (snd e))) ps) = keys ps.
Proof. unfold keys. rewrite map_map. reflexivity. Qed.

Section Transport.
Context {V : Type} (entry : V -> JsVal).
Hypothesis entry_literal :
  forall p, exists ps, entry p = VObj ps /\ own_get ps "__proto__" = None.

Lemma transported (m : JsMap V) :
  roundtrip_props (own (collect entry m))
  = map (fun e => (fst e, JSON_roundtrip (snd e)))
        (ordered (own (collect entry m))).
Proof.
  rewrite roundtrip_props_eq, kept_props_all.
  - apply ordered_map.
  - eapply Forall_impl; [|apply (collect_own_values entry entry_literal)].
    intros e [p ->]. destruct (entry_literal p) as [ps [-> _]].
    reflexivity.
Qed.

Lemma transported_keys (m : JsMap V) (k : string) :
  In k (keys (roundtrip_props (own (collect entry m))))
  <-> In k (keys m) /\ k <> "__proto__".
Proof.
  rewrite transported, keys_map_snd.
  rewrite <- (collect_own_keys entry entry_literal m k).
  split; apply Permutation_in;
    [apply ordered_keys_perm
    | apply Permutation_sym; apply ordered_keys_perm].
Qed.

Lemma transported_objects (m : JsMap V) :
  Forall (fun e => exists ps, snd e = VObj ps)
         (roundtrip_props (own (collect entry m))).
Proof.
  rewrite transported. apply Forall_forall. intros e He.
  apply in_map_iff in He. destruct He as [e' [<- He']].
  apply (proj1 (ordered_In _ _)) in He'.
  pose proof (collect_own_values entry entry_literal m) as Hall.
  rewrite Forall_forall in Hall. destruct (Hall _ He') as [p Hp].
  destruct (entry_literal p) as [ps [Hps _]]. simpl.
  rewrite Hp, Hps, JSON_roundtrip_obj. eexists. reflexivity.
Qed.

(** Looking up the name of a registered app in the transported listing
    gives something truthy: its entry, or, for the name ["__proto__"],
    which the listing cannot hold, the prototype of the listing. *)
Lemma registered_lookup_truthy (m : JsMap V) (k : string) :
  In k (keys m) ->
  truthy (Get (roundtrip_props (own (collect entry m))) k) = true.
Proof.
  intros Hk. unfold Get.
  destruct (own_get (roundtrip_props (own (collect entry m))) k)
    as [v|] eqn:Hget.
  - apply own_get_Some_In in Hget.
    pose proof (transported_objects m) as Hall.
    rewrite Forall_forall in Hall. destruct (Hall _ Hget) as [ps Hv].
    simpl in Hv. subst v. reflexivity.
  - apply own_get_None in Hget. rewrite transported_keys in Hget.
    destruct (string_dec k "__proto__") as [->|Hne]; [reflexivity|].
    tauto.
Qed.

Lemma unregistered_lookup_undefined (m : JsMap V) (k : string) :
  ~ In k (keys m) -> ~ In k Object_prototype_names ->
  Get (roundtrip_props (own (collect entry m))) k = VUndefined.
Proof.
  intros Hk Hp. unfold Get.
  assert (Hget : own_get (roundtrip_props (own (collect entry m))) k = None).
  { apply own_get_None. rewrite transported_keys. tauto. }
  rewrite Hget. apply existsb_eqb_notIn in Hp. rewrite Hp. reflexivity.
Qed.
End Transport.

(** ** The status the view shows *)

(** C5, as the code has it.  When the guard lets the query through, the
    loader returns, from the registries in memory and without changing
    anything; the status the view shows for an app is [running] or
    [stopped] and nothing else; it is [running] for every app with a
    handle in the dev-server registry, a handle without pid included; and
    it is [stopped] for an app without handle, unless its name names a
    property of [Object.prototype]. *)
Theorem status_is_running_or_stopped
        (env : Env) (request : Request) (w : World) :
  ensureUndeployed env = None ->
  exists d,
    loader env request w
    = (Returned (json d [("Server-Timing", getServerTimeHeader env)]), w)
    /\ forall app,
        let shown := app_status (useLoaderData d) app in
        let dev := devProcesses (registries w) in
        (shown = running \/ shown = stopped)
        /\ (In (name app) (keys dev) -> shown = running)
        /\ (mid_flight dev (name app) -> shown = running)
        /\ (~ In (name app) (keys dev) ->
            ~ In (name app) Object_prototype_names -> shown = stopped).
Proof.
  intros Hg. rewrite loader_eq, Hg. eexists. split; [reflexivity|].
  intros app shown dev. subst shown dev.
  unfold app_status, useLoaderData, json.
  cbn [data_processes processes body].
  assert (Hreg : In (name app) (keys (devProcesses (registries w))) ->
                 (if truthy
                       (Get (roundtrip_props
                               (own (collect dev_entry
                                             (devProcesses (registries w)))))
                            (name app))
                  then running else stopped) = running).
  { intros Hin.
    rewrite (@registered_lookup_truthy _ dev_entry dev_entry_literal
               _ _ Hin).
    reflexivity. }
  split; [|split; [exact Hreg|split]].
  - destruct (truthy _); [left | right]; reflexivity.
  - intros [p [Hget _]]. apply Hreg. unfold Map_get in Hget.
    apply own_get_Some_In in Hget. apply In_keys with p. exact Hget.
  - intros Hout Hproto.
    rewrite (@unregistered_lookup_undefined _ dev_entry dev_entry_literal
               _ _ Hout Hproto).
    reflexivity.
Qed.

Lemma status_is_running_or_stopped_witness :
  exists d,
    loader Fixtures.env Fixtures.get_request Fixtures.world
    = (Returned (json d [("Server-Timing", "adminLoader;dur=1")]),
       Fixtures.world)
    /\ mid_flight (devProcesses (registries Fixtures.world)) "a"
    /\ app_status (useLoaderData d) (mkApp "a" "First a" "/workshop/a")
       = running.
Proof.
  destruct (@status_is_running_or_stopped Fixtures.env Fixtures.get_request
              Fixtures.world eq_refl) as [d [Hd Hall]].
  assert (Hmid : mid_flight (devProcesses (registries Fixtures.world)) "a").
  { eexists. split; reflexivity. }
  exists d. split; [exact Hd|]. split; [exact Hmid|].
  exact (proj1 (proj2 (proj2 (Hall (mkApp "a" "First a" "/workshop/a"))))
               Hmid).
Defined.

(** C5, as stated, fails: in [Fixtures.world] the dev server of app ["a"]
    has no pid yet, and the status shown for ["a"] is [running], not
    [starting]. *)
Lemma mid_flight_is_shown_running :
  ~ (forall (env : Env) (request : Request) (w : World) (d : LoaderData)
            (app : App),
        query env request w = Some d ->
        In app (apps d) ->
        mid_flight (devProcesses (registries w)) (name app) ->
        app_status (useLoaderData d) app = starting).
Proof.
  intros H.
  assert (Hmid : mid_flight (devProcesses (registries Fixtures.world))
                            (name (mkApp "a" "First a" "/workshop/a"))).
  { eexists. split; reflexivity. }
  specialize (H Fixtures.env Fixtures.get_request Fixtures.world
                (Fixtures.data_of Fixtures.world)
                (mkApp "a" "First a" "/workshop/a")
                eq_refl (or_introl eq_refl) Hmid).
  vm_compute in H. discriminate H.
Qed.

(** ** The order of a listing *)

Section OrderFacts.
Context {V : Type}.
Implicit Types (ps : list (string * V)) (e : string * V).

Lemma insert_by_index_Sorted e ps :
  Sorted entry_index_le ps -> Sorted entry_index_le (insert_by_index e ps).
Proof.
  induction ps as [|e' ps IH]; simpl; intros Hs.
  - repeat constructor.
  - destruct (N.leb_spec (index_of (fst e)) (index_of (fst e'))) as [Hle|Hlt].
    + constructor; [exact Hs | constructor; exact Hle].
    + inversion Hs as [|x xs Hs' Hhd]; subst.
      constructor; [apply IH; exact Hs'|].
      destruct ps as [|e'' ps]; simpl.
      * constructor. unfold entry_index_le, index_le. lia.
      * destruct (index_of (fst e) <=? index_of (fst e''))%N.
        -- constructor. unfold entry_index_le, index_le. lia.
        -- inversion Hhd; subst. constructor. assumption.
Qed.

Lemma sort_by_index_Sorted ps : Sorted entry_index_le (sort_by_index ps).
Proof.
  induction ps as [|e ps IH]; simpl.
  - constructor.
  - apply insert_by_index_Sorted. exact IH.
Qed.

Lemma sort_by_index_fixed ps :
  Sorted entry_index_le ps -> sort_by_index ps = ps.
Proof.
  induction ps as [|e ps IH]; simpl; intros Hs; [reflexivity|].
  inversion Hs as [|x xs Hs' Hhd]; subst.
  rewrite IH by exact Hs'.
  destruct ps as [|e' ps]; simpl; [reflexivity|].
  inversion Hhd as [|y ys Hle]; subst.
  unfold entry_index_le, index_le in Hle.
  apply N.leb_le in Hle. rewrite Hle. reflexivity.
Qed.

Lemma filter_all (f : string * V -> bool) ps :
  Forall (fun e => f e = true) ps -> filter f ps = ps.
Proof.
  induction 1 as [|e l He _ IH]; simpl; [reflexivity|].
  rewrite He, IH. reflexivity.
Qed.

Lemma filter_none (f : string * V -> bool) ps :
  Forall (fun e => f e = false) ps -> filter f ps = [].
Proof.
  induction 1 as [|e l He _ IH]; simpl; [reflexivity|].
  rewrite He, IH. reflexivity.
Qed.

Lemma sorted_part_indices ps :
  Forall (fun e => is_array_index (fst e) = true)
         (sort_by_index (filter (fun e => is_array_index (fst e)) ps)).
Proof.
  apply Forall_forall. intros e He.
  apply (Permutation_in _ (sort_by_index_perm _)) in He.
  apply filter_In in He. tauto.
Qed.

Lemma rest_part_plain ps :
  Forall (fun e => is_array_index (fst e) = false)
         (filter (fun e => negb (is_array_index (fst e))) ps).
Proof.
  apply Forall_forall. intros e He. apply filter_In in He.
  destruct He as [_ He]. apply negb_true_iff in He. exact He.
Qed.

(** Own-property order is stable: ordering an ordered list changes
    nothing. *)
Lemma ordered_idem ps : ordered (ordered ps) = ordered ps.
Proof.
  unfold ordered at 1.
  set (S := sort_by_index (filter (fun e => is_array_index (fst e)) ps)).
  set (R := filter (fun e => negb (is_array_index (fst e))) ps).
  assert (HS : Forall (fun e => is_array_index (fst e) = true) S)
    by apply sorted_part_indices.
  assert (HR : Forall (fun e => is_array_index (fst e) = false) R)
    by apply rest_part_plain.
  change (ordered ps) with (S ++ R).
  rewrite !filter_app.
  rewrite (filter_all (fun e => is_array_index (fst e)) HS).
  rewrite (filter_none (fun e => is_array_index (fst e)) HR).
  rewrite (@filter_none (fun e => negb (is_array_index (fst e))) S).
  2:{ eapply Forall_impl; [|exact HS]. intros e He. cbv beta.
      rewrite He. reflexivity. }
  rewrite (@filter_all (fun e => negb (is_array_index (fst e))) R).
  2:{ eapply Forall_impl; [|exact HR]. intros e He. cbv beta.
      rewrite He. reflexivity. }
  rewrite app_nil_r. simpl.
  rewrite sort_by_index_fixed; [reflexivity|].
  apply sort_by_index_Sorted.
Qed.

(** What own-property order is: the entries under array indices,
    ascending, then the other entries as they were. *)
Lemma ordered_shape ps :
  exists numbered others,
    ordered ps = numbered ++ others
    /\ Sorted entry_index_le numbered
    /\ Permutation numbered (filter (fun e => is_array_index (fst e)) ps)
    /\ others = filter (fun e => negb (is_array_index (fst e))) ps.
Proof.
  exists (sort_by_index (filter (fun e => is_array_index (fst e)) ps)),
         (filter (fun e => negb (is_array_index (fst e))) ps).
  split; [reflexivity|]. split; [apply sort_by_index_Sorted|].
  split; [apply sort_by_index_perm | reflexivity].
Qed.

End OrderFacts.

Section ClientEntries.
Context {V : Type} (entry : V -> JsVal).
Hypothesis entry_literal :
  forall p, exists ps, entry p = VObj ps /\ own_get ps "__proto__" = None.

Lemma server_entries (m : JsMap V) :
  NoDup (keys m) ->
  Object_entries (own (collect entry m))
  = map (fun e => (fst e, entry (snd e))) (ordered (listable m)).
Proof.
  intros Hnd. unfold Object_entries.
  rewrite (@collect_own_distinct _ entry entry_literal m Hnd).
  apply ordered_map.
Qed.

Lemma client_entries (m : JsMap V) :
  NoDup (keys m) ->
  Object_entries (roundtrip_props (own (collect entry m)))
  = map (fun e => (fst e, JSON_roundtrip (entry (snd e))))
        (ordered (listable m)).
Proof.
  intros Hnd. unfold Object_entries.
  rewrite (@transported _ entry entry_literal).
  rewrite (ordered_map JSON_roundtrip), ordered_idem.
  pose proof (@server_entries m Hnd) as Hs. unfold Object_entries in Hs.
  rewrite Hs, map_map. reflexivity.
Qed.
End ClientEntries.

Lemma listable_plain {V : Type} (m : JsMap V) :
  (forall k, In k (keys m) -> plain_name k = true) ->
  ordered (listable m) = m.
Proof.
  intros Hplain.
  assert (Hl : listable m = m).
  { unfold listable. apply filter_all. apply Forall_forall.
    intros e He. specialize (Hplain (fst e) (in_map fst _ _ He)).
    unfold plain_name in Hplain. apply andb_true_iff in Hplain. tauto. }
  rewrite Hl. apply ordered_plain. intros k Hk.
  specialize (Hplain k Hk). unfold plain_name in Hplain.
  apply andb_true_iff in Hplain. destruct Hplain as [H _].
  apply negb_true_iff in H. exact H.
Qed.

Lemma dev_row_of_entry (e : string * DevProcess) :
  match JSON_roundtrip (dev_entry (snd e)) with
  | VObj ps => (fst e, (Get ps "port", Get ps "pid", Get ps "color"))
  | _ => (fst e, (VUndefined, VUndefined, VUndefined))
  end = dev_row e.
Proof.
  destruct e as [k [po [[pi|]] co]]; reflexivity.
Qed.

Lemma test_row_of_entry (e : string * TestProcess) :
  match JSON_roundtrip (test_entry (snd e)) with
  | VObj ps => (fst e, (Get ps "pid", Get ps "exitCode"))
  | _ => (fst e, (VUndefined, VUndefined))
  end = test_row e.
Proof.
  destruct e as [k [[[[pi|]]|] [| |n]]]; reflexivity.
Qed.

Lemma process_rows (m : JsMap DevProcess) (d : ClientData) :
  Object_entries (data_processes d)
  = map (fun e => (fst e, JSON_roundtrip (dev_entry (snd e))))
        (ordered (listable m)) ->
  processItems (AdminLayout d) = map dev_row (ordered (listable m)).
Proof.
  intros H. unfold AdminLayout. simpl. rewrite H, map_map.
  apply map_ext. intros e. apply dev_row_of_entry.
Qed.

Lemma test_rows (m : JsMap TestProcess) (d : ClientData) :
  Object_entries (data_testProcesses d)
  = map (fun e => (fst e, JSON_roundtrip (test_entry (snd e))))
        (ordered (listable m)) ->
  testItems (AdminLayout d) = map test_row (ordered (listable m)).
Proof.
  intros H. unfold AdminLayout. simpl. rewrite H, map_map.
  apply map_ext. intros e. apply test_row_of_entry.
Qed.

(** C7, as the code has it.  Whatever calls built the two registries, the
    rows the view renders are the handles of the registry in own-property
    order of their names: handles under array-index names first, by
    ascending index, then the other handles in registry insertion order, a
    handle under ["__proto__"] being left out; the object the loader
    returns enumerates in the same order.  When no name is an array index
    or ["__proto__"], that is registry insertion order.  The loader leaves
    the world as it was, so a second query yields the same data. *)
Theorem listing_order
        (dev_calls : list (MapOp DevProcess))
        (test_calls : list (MapOp TestProcess))
        (env : Env) (request : Request) (w : World) (d : LoaderData) :
  let dev := Map_of_ops dev_calls in
  let test := Map_of_ops test_calls in
  registries w = mkProcesses dev test ->
  query env request w = Some d ->
  let view := AdminLayout (useLoaderData d) in
  processItems view = map dev_row (ordered (listable dev))
  /\ testItems view = map test_row (ordered (listable test))
  /\ keys (Object_entries (own (processes d))) = map fst (processItems view)
  /\ keys (Object_entries (own (testProcesses d))) = map fst (testItems view)
  /\ (exists numbered others,
         ordered (listable dev) = numbered ++ others
         /\ Sorted entry_index_le numbered
         /\ Permutation numbered
              (filter (fun e => is_array_index (fst e)) (listable dev))
         /\ others
            = filter (fun e => negb (is_array_index (fst e))) (listable dev))
  /\ ((forall k, In k (keys dev) -> plain_name k = true) ->
      processItems view = map dev_row (Map_entries dev))
  /\ ((forall k, In k (keys test) -> plain_name k = true) ->
      testItems view = map test_row (Map_entries test))
  /\ query env request (snd (loader env request w)) = Some d.
Proof.
  intros dev test Hreg Hq view.
  assert (Hdev : NoDup (keys dev)) by apply Map_of_ops_NoDup.
  assert (Htest : NoDup (keys test)) by apply Map_of_ops_NoDup.
  assert (Hagain : query env request (snd (loader env request w)) = Some d)
    by (rewrite loader_world; exact Hq).
  apply query_inv in Hq. destruct Hq as [_ Hd].
  rewrite Hreg in Hd. cbn [devProcesses ProcessManager.testProcesses] in Hd.
  assert (Hp : processItems view = map dev_row (ordered (listable dev))).
  { subst view d. apply process_rows.
    apply (@client_entries _ dev_entry dev_entry_literal dev Hdev). }
  assert (Ht : testItems view = map test_row (ordered (listable test))).
  { subst view d. apply test_rows.
    apply (@client_entries _ test_entry test_entry_literal test Htest). }
  split; [exact Hp|]. split; [exact Ht|].
  split.
  { rewrite Hp, Hd. cbn [processes].
    rewrite (@server_entries _ dev_entry dev_entry_literal dev Hdev).
    unfold keys. rewrite !map_map. reflexivity. }
  split.
  { rewrite Ht, Hd. cbn [testProcesses].
    rewrite (@server_entries _ test_entry test_entry_literal test Htest).
    unfold keys. rewrite !map_map. reflexivity. }
  split; [apply ordered_shape|].
  split; [|split; [|exact Hagain]].
  - intros Hplain. rewrite Hp, (@listable_plain _ dev Hplain). reflexivity.
  - intros Hplain. rewrite Ht, (@listable_plain _ test Hplain). reflexivity.
Qed.

Lemma listing_order_witness :
  let view :=
    AdminLayout (useLoaderData (Fixtures.data_of Fixtures.world)) in
  processItems view
  = [ ("a", (VNum 3002, VUndefined, VStr "red"));
      ("b", (VNum 3001, VNum 4242, VStr "green")) ]
  /\ testItems view
     = [ ("b", (VNum 77, VNum 0)); ("a", (VUndefined, VNull)) ].
Proof.
  assert (Hpd : forall k, In k (keys (Map_of_ops Fixtures.dev_ops))
                          -> plain_name k = true).
  { intros k [<-|[<-|[]]]; reflexivity. }
  assert (Hpt : forall k, In k (keys (Map_of_ops Fixtures.test_ops))
                          -> plain_name k = true).
  { intros k [<-|[<-|[]]]; reflexivity. }
  pose proof (@listing_order Fixtures.dev_ops Fixtures.test_ops Fixtures.env
                Fixtures.get_request Fixtures.world
                (Fixtures.data_of Fixtures.world) eq_refl eq_refl) as H.
  split.
  - exact (proj1 (proj2 (proj2 (proj2 (proj2 (proj2 H))))) Hpd).
  - exact (proj1 (proj2 (proj2 (proj2 (proj2 (proj2 (proj2 H)))))) Hpt).
Defined.

(** C7, as stated, fails: with dev servers registered under ["10"] and
    then under ["9"], the view lists ["9"] before ["10"]. *)
Lemma numbered_names_are_reordered :
  ~ (forall (dev_calls : list (MapOp DevProcess))
            (test_calls : list (MapOp TestProcess))
            (env : Env) (request : Request) (w : World) (d : LoaderData),
        registries w
        = mkProcesses (Map_of_ops dev_calls) (Map_of_ops test_calls) ->
        query env request w = Some d ->
        map fst (processItems (AdminLayout (useLoaderData d)))
        = keys (Map_entries (devProcesses (registries w)))).
Proof.
  intros H.
  specialize (H Fixtures.numbered_ops [] Fixtures.env Fixtures.get_request
                Fixtures.numbered_world
                (Fixtures.data_of Fixtures.numbered_world) eq_refl eq_refl).
  vm_compute in H. discriminate H.
Qed.

(** ** The inspector toggle *)

Lemma strict_eq_string_true (v : option FormDataEntryValue) (s : string) :
  strict_eq_string v s = true <-> v = Some (FString s).
Proof.
  destruct v as [[s'|f]|]; simpl; try (split; discriminate).
  rewrite String.eqb_eq. split; congruence.
Qed.

Lemma strict_eq_string_false (v : option FormDataEntryValue) (s : string) :
  v <> Some (FString s) -> strict_eq_string v s = false.
Proof.
  intros H. destruct (strict_eq_string v s) eqn:E; [|reflexivity].
  apply strict_eq_string_true in E. contradiction.
Qed.

Lemma action_inspect (env : Env) (request : Request) (w : World) :
  ensureUndeployed env = None -> is_inspect request ->
  action env request w
  = if flag_set (__inspector_open__ w) then
      (Returned (json success []),
       logged w (ConsoleInfo "Inspector already running."))
    else
      (match inspector_open env with
       | None => Returned (json success [])
       | Some e => Thrown e
       end,
       {| registries := registries w;
          usedPorts := usedPorts w;
          __inspector_open__ := Some true;
          events := events w ++ [InspectorOpenCall] |}).
Proof.
  intros Hg Hi. unfold action, bind, outcome_of. rewrite Hg.
  unfold is_inspect in Hi. rewrite Hi. simpl.
  destruct (flag_set (__inspector_open__ w)); simpl; [reflexivity|].
  destruct (inspector_open env); reflexivity.
Qed.

Lemma action_stop_inspect (env : Env) (request : Request) (w : World) :
  ensureUndeployed env = None -> is_stop_inspect request ->
  action env request w
  = if flag_set (__inspector_open__ w) then
      (match inspector_close env with
       | None => Returned (json success [])
       | Some e => Thrown e
       end,
       {| registries := registries w;
          usedPorts := usedPorts w;
          __inspector_open__ := Some false;
          events := events w ++ [InspectorCloseCall] |})
    else
      (Returned (json success []),
       logged w (ConsoleInfo "Inspector already stopped.")).
Proof.
  intros Hg Hi. unfold action, bind, outcome_of. rewrite Hg.
  unfold is_stop_inspect in Hi. rewrite Hi. simpl.
  destruct (flag_set (__inspector_open__ w)); simpl; [|reflexivity].
  destruct (inspector_close env); reflexivity.
Qed.

Lemma flag_after_inspect (env : Env) (request : Request) (w : World) :
  ensureUndeployed env = None -> is_inspect request ->
  __inspector_open__ (snd (action env request w)) = Some true.
Proof.
  intros Hg Hi. rewrite (@action_inspect env request w Hg Hi).
  unfold logged. destruct (__inspector_open__ w) as [[|]|]; reflexivity.
Qed.

Lemma toggles_succeed (env : Env) (reqs : list Request) (w : World) :
  ensureUndeployed env = None ->
  inspector_open env = None -> inspector_close env = None ->
  Forall (fun r => is_inspect r \/ is_stop_inspect r) reqs ->
  Forall (fun o => o = Returned (json success []))
         (fst (run_actions env reqs w)).
Proof.
  intros Hg Ho Hc Hall. revert w.
  induction Hall as [|r reqs Hr _ IH]; intros w; simpl.
  - constructor.
  - destruct (action env r w) as [o w'] eqn:Hact.
    specialize (IH w'). destruct (run_actions env reqs w') as [os w''].
    simpl in *. constructor; [|exact IH].
    destruct Hr as [Hi|Hs].
    + rewrite (@action_inspect env r w Hg Hi), Ho in Hact.
      destruct (flag_set (__inspector_open__ w)); congruence.
    + rewrite (@action_stop_inspect env r w Hg Hs), Hc in Hact.
      destruct (flag_set (__inspector_open__ w)); congruence.
Qed.

(** C2.  The guard letting the submission through: a start request when
    the flag says open returns success and only logs, the external
    [open()] is not called; a stop request when the flag says closed
    (or was never set) returns success and only logs, [close()] is not
    called; after two start requests in a row, from any world, the second
    has returned success without a call of [open()] and the loader, for
    whatever request, returns and reports [inspectorRunning] as [true];
    and when the external inspector does not
    throw, every request of a sequence of start and stop requests returns
    success. *)
Theorem redundant_toggle_is_success
        (env : Env) (start stop : Request) (w : World) :
  ensureUndeployed env = None ->
  is_inspect start -> is_stop_inspect stop ->
  (flag_set (__inspector_open__ w) = true ->
   action env start w
   = (Returned (json success []),
      logged w (ConsoleInfo "Inspector already running.")))
  /\ (flag_set (__inspector_open__ w) = false ->
      action env stop w
      = (Returned (json success []),
         logged w (ConsoleInfo "Inspector already stopped.")))
  /\ (let w1 := snd (action env start w) in
      action env start w1
      = (Returned (json success []),
         logged w1 (ConsoleInfo "Inspector already running."))
      /\ forall request,
          exists d,
            query env request (snd (action env start w1)) = Some d
            /\ inspectorRunning d = Some true)
  /\ (forall reqs,
        inspector_open env = None -> inspector_close env = None ->
        Forall (fun r => is_inspect r \/ is_stop_inspect r) reqs ->
        Forall (fun o => o = Returned (json success []))
               (fst (run_actions env reqs w))).
Proof.
  intros Hg Hstart Hstop.
  split; [|split; [|split]].
  - intros Hopen. rewrite (@action_inspect env start w Hg Hstart), Hopen. reflexivity.
  - intros Hclosed. rewrite (@action_stop_inspect env stop w Hg Hstop), Hclosed.
    reflexivity.
  - intros w1.
    assert (Hflag : __inspector_open__ w1 = Some true)
      by (apply flag_after_inspect; assumption).
    assert (Hsecond : action env start w1
                      = (Returned (json success []),
                         logged w1 (ConsoleInfo "Inspector already running."))).
    { rewrite (@action_inspect env start w1 Hg Hstart), Hflag. reflexivity. }
    split; [exact Hsecond|].
    intros request. rewrite Hsecond. unfold query.
    rewrite loader_eq, Hg. eexists. split; [reflexivity|].
    simpl. exact Hflag.
  - intros reqs Ho Hc Hall. apply toggles_succeed; assumption.
Qed.

Lemma redundant_toggle_is_success_witness :
  action Fixtures.env Fixtures.inspect Fixtures.open_world
  = (Returned (json success []),
     logged Fixtures.open_world (ConsoleInfo "Inspector already running."))
  /\ action Fixtures.env Fixtures.stop_inspect Fixtures.world
     = (Returned (json success []),
        logged Fixtures.world (ConsoleInfo "Inspector already stopped."))
  /\ events (snd (action Fixtures.env Fixtures.inspect
                         (snd (action Fixtures.env Fixtures.inspect
                                      Fixtures.world))))
     = [InspectorOpenCall; ConsoleInfo "Inspector already running."]
  /\ exists d,
       query Fixtures.env Fixtures.get_request
             (snd (action Fixtures.env Fixtures.inspect
                          (snd (action Fixtures.env Fixtures.inspect
                                       Fixtures.world))))
       = Some d
       /\ inspectorRunning d = Some true.
Proof.
  split; [|split; [|split]].
  - exact (proj1 (@redundant_toggle_is_success Fixtures.env Fixtures.inspect
                    Fixtures.stop_inspect Fixtures.open_world
                    eq_refl eq_refl eq_refl) eq_refl).
  - exact (proj1 (proj2 (@redundant_toggle_is_success Fixtures.env
                           Fixtures.inspect Fixtures.stop_inspect
                           Fixtures.world eq_refl eq_refl eq_refl)) eq_refl).
  - exact (f_equal (fun r => events (snd r))
             (proj1 (proj1 (proj2 (proj2
                (@redundant_toggle_is_success Fixtures.env Fixtures.inspect
                   Fixtures.stop_inspect Fixtures.world
                   eq_refl eq_refl eq_refl)))))).
  - exact (proj2 (proj1 (proj2 (proj2
             (@redundant_toggle_is_success Fixtures.env Fixtures.inspect
                Fixtures.stop_inspect Fixtures.world
                eq_refl eq_refl eq_refl))))
             Fixtures.get_request).
Defined.

(** ** Unknown intents *)

(** C8.  A submission whose intent is neither the string [inspect] nor
    the string [stop-inspect], a missing intent and a file included, makes
    the action throw and leaves the world, hence the inspector flag and
    both registries, as it was; the guard letting the submission through,
    what is thrown is the error [Unknown intent: ] followed by the
    intent. *)
Theorem unknown_intent_is_rejected
        (env : Env) (request : Request) (w : World) :
  let intent := FormData_get (formData request) "intent" in
  intent <> Some (FString "inspect") ->
  intent <> Some (FString "stop-inspect") ->
  snd (action env request w) = w
  /\ (exists e, fst (action env request w) = Thrown e)
  /\ (ensureUndeployed env = None ->
      action env request w
      = (Thrown (Error ("Unknown intent: " ++ to_template_string intent)),
         w)).
Proof.
  intros intent H1 H2.
  assert (Hact : action env request w
                 = match ensureUndeployed env with
                   | Some e => (Thrown e, w)
                   | None =>
                       (Thrown (Error ("Unknown intent: "
                                       ++ to_template_string intent)), w)
                   end).
  { unfold action, bind, outcome_of. fold intent.
    rewrite (@strict_eq_string_false _ _ H1), (@strict_eq_string_false _ _ H2).
    destruct (ensureUndeployed env); reflexivity. }
  rewrite Hact. destruct (ensureUndeployed env) as [e|]; simpl.
  - split; [reflexivity|]. split; [eexists; reflexivity | discriminate].
  - split; [reflexivity|]. split; [eexists; reflexivity | reflexivity].
Qed.

Lemma unknown_intent_is_rejected_witness :
  action Fixtures.env Fixtures.restart Fixtures.open_world
  = (Thrown (Error "Unknown intent: restart"), Fixtures.open_world)
  /\ action Fixtures.env Fixtures.get_request Fixtures.open_world
     = (Thrown (Error "Unknown intent: null"), Fixtures.open_world).
Proof.
  split.
  - refine (proj2 (proj2 (@unknown_intent_is_rejected Fixtures.env
                            Fixtures.restart Fixtures.open_world _ _))
                  eq_refl); discriminate.
  - refine (proj2 (proj2 (@unknown_intent_is_rejected Fixtures.env
                            Fixtures.get_request Fixtures.open_world _ _))
                  eq_refl); discriminate.
Defined.

(** ** Client hints *)

Import ClientHints.

Lemma jeqb_eq (a b : jstring) : jeqb a b = true <-> a = b.
Proof.
  revert b; induction a as [|x a IH]; intros [|y b]; simpl;
    try (split; [discriminate | congruence]).
  - split; reflexivity.
  - rewrite andb_true_iff, N.eqb_eq, IH. split.
    + intros [-> ->]. reflexivity.
    + intros [= -> ->]. split; reflexivity.
Qed.

Lemma is_exactly_true (value : option jstring) (s : string) :
  is_exactly value s = true <-> value = Some (lit s).
Proof.
  destruct value as [v|]; simpl.
  - rewrite jeqb_eq. split; congruence.
  - split; discriminate.
Qed.

(** [getCookieValue] returns for every name [clientHints] lists. *)
Lemma getCookieValue_listed (cookieString : jstring) (name : string) :
  In name (keys clientHints) ->
  exists value, getCookieValue cookieString name = Ok value.
Proof.
  intros Hin. unfold getCookieValue.
  destruct (own_get clientHints name) as [hint|] eqn:Hget.
  - eexists. reflexivity.
  - apply own_get_None in Hget. contradiction.
Qed.

(** What [getHints] gives on a few cookie strings: no cookie at all, a
    document whose cookie takes precedence over the request, values that
    are not hint values, and a value cut at its second ['=']. *)
Example getHints_without_cookie :
  getHints None None
  = Ok [("theme", lit "light"); ("reducedMotion", lit "no-preference")]
  /\ getHints None (Some None) = getHints None None.
Proof. split; reflexivity. Qed.

Example getHints_document_first :
  getHints (Some []) (Some (Some Fixtures.both_cookies))
  = Ok [("theme", lit "light"); ("reducedMotion", lit "no-preference")].
Proof. reflexivity. Qed.

Example getHints_odd_cookies :
  getHints None (Some (Some Fixtures.odd_cookies))
  = Ok [("theme", lit "light"); ("reducedMotion", lit "no-preference")].
Proof. reflexivity. Qed.

Example getCookieValue_cut :
  getCookieValue Fixtures.cut_cookie "theme" = Ok (Some (lit "dark")).
Proof. reflexivity. Qed.

Example getCookieValue_unlisted :
  getCookieValue Fixtures.both_cookies "contrast"
  = Throw "Unknown client hint: contrast".
Proof. reflexivity. Qed.

(* ================================================================== *)
(** * Further properties of the admin route *)
(* ================================================================== *)

Import Toggle.

(** ** What one submission does to the world *)

Lemma action_world (env : Env) (request : Request) (w : World) :
  snd (action env request w) = w
  \/ (exists message, snd (action env request w) = logged w (ConsoleInfo message)
                      /\ (flag_set (__inspector_open__ w) = true
                          \/ flag_set (__inspector_open__ w) = false))
  \/ (flag_set (__inspector_open__ w) = false
      /\ snd (action env request w)
         = {| registries := registries w;
              usedPorts := usedPorts w;
              __inspector_open__ := Some true;
              events := events w ++ [InspectorOpenCall] |})
  \/ (flag_set (__inspector_open__ w) = true
      /\ snd (action env request w)
         = {| registries := registries w;
              usedPorts := usedPorts w;
              __inspector_open__ := Some false;
              events := events w ++ [InspectorCloseCall] |}).
Proof.
  unfold action, bind, outcome_of.
  destruct (ensureUndeployed env) as [e|]; simpl; [left; reflexivity|].
  destruct (strict_eq_string (FormData_get (formData request) "intent")
                             "inspect").
  - simpl. destruct (flag_set (__inspector_open__ w)) eqn:Hf; simpl.
    + right. left. eexists. split; [reflexivity | left; reflexivity].
    + right. right. left. split; [reflexivity|].
      destruct (inspector_open env); reflexivity.
  - destruct (strict_eq_string (FormData_get (formData request) "intent")
                               "stop-inspect").
    + simpl. destruct (flag_set (__inspector_open__ w)) eqn:Hf; simpl.
      * right. right. right. split; [reflexivity|].
        destruct (inspector_close env); reflexivity.
      * right. left. eexists. split; [reflexivity | right; reflexivity].
    + left. reflexivity.
Qed.

Lemma replay_app (open : bool) (l1 l2 : list Event) :
  replay open (l1 ++ l2)
  = match replay open l1 with
    | Some open' => replay open' l2
    | None => None
    end.
Proof.
  revert open; induction l1 as [|e l1 IH]; intros open; simpl.
  - reflexivity.
  - destruct e; [apply IH | |]; destruct open; try reflexivity; apply IH.
Qed.

Lemma action_step (env : Env) (request : Request) (w : World) :
  registries (snd (action env request w)) = registries w
  /\ usedPorts (snd (action env request w)) = usedPorts w
  /\ exists new,
      events (snd (action env request w)) = events w ++ new
      /\ (List.length new <= 1)%nat
      /\ replay (flag_set (__inspector_open__ w)) new
         = Some (flag_set (__inspector_open__ (snd (action env request w)))).
Proof.
  destruct (action_world env request w)
    as [H|[[m [H Hf]]|[[Hf H]|[Hf H]]]]; rewrite H; simpl;
    (split; [reflexivity|]); (split; [reflexivity|]).
  - exists []. rewrite app_nil_r. simpl.
    split; [reflexivity|]. split; [lia | reflexivity].
  - exists [ConsoleInfo m]. simpl.
    split; [reflexivity|]. split; [lia | reflexivity].
  - exists [InspectorOpenCall]. simpl. rewrite Hf.
    split; [reflexivity|]. split; [lia | reflexivity].
  - exists [InspectorCloseCall]. simpl. rewrite Hf.
    split; [reflexivity|]. split; [lia | reflexivity].
Qed.

Lemma run_actions_cons (env : Env) (r : Request) (rest : list Request)
      (w : World) :
  snd (run_actions env (r :: rest) w)
  = snd (run_actions env rest (snd (action env r w))).
Proof.
  simpl. destruct (action env r w) as [o w']. simpl.
  destruct (run_actions env rest w') as [os w'']. reflexivity.
Qed.

Lemma run_actions_steps (env : Env) (reqs : list Request) (w : World) :
  registries (snd (run_actions env reqs w)) = registries w
  /\ usedPorts (snd (run_actions env reqs w)) = usedPorts w
  /\ exists new,
      events (snd (run_actions env reqs w)) = events w ++ new
      /\ (List.length new <= List.length reqs)%nat
      /\ replay (flag_set (__inspector_open__ w)) new
         = Some (flag_set
                   (__inspector_open__ (snd (run_actions env reqs w)))).
Proof.
  revert w; induction reqs as [|r reqs IH]; intros w.
  - simpl. split; [reflexivity|]. split; [reflexivity|].
    exists []. rewrite app_nil_r. simpl.
    split; [reflexivity|]. split; [lia | reflexivity].
  - rewrite run_actions_cons.
    destruct (action_step env r w) as [Hr [Hu [n1 [He [Hl Hp]]]]].
    destruct (IH (snd (action env r w))) as [Hr' [Hu' [n2 [He' [Hl' Hp']]]]].
    split; [congruence|]. split; [congruence|].
    exists (n1 ++ n2). split; [|split].
    + rewrite He', He, app_assoc. reflexivity.
    + rewrite length_app. simpl. lia.
    + rewrite replay_app, Hp. exact Hp'.
Qed.

(** X1.  Whatever is submitted to the action, in whatever number and
    order, accepted or refused, with an external inspector that works or
    throws: the registries and the used ports stay as they were, the
    event log only grows, by at most one event per submission, and the
    apps and both listings the loader returns afterwards are the ones it
    returned before. *)
Theorem actions_leave_registries
        (env : Env) (reqs : list Request) (w : World) :
  let w' := snd (run_actions env reqs w) in
  registries w' = registries w
  /\ usedPorts w' = usedPorts w
  /\ (exists new,
         events w' = events w ++ new
         /\ (List.length new <= List.length reqs)%nat)
  /\ (forall request d d',
         query env request w = Some d -> query env request w' = Some d' ->
         apps d' = apps d
         /\ processes d' = processes d
         /\ testProcesses d' = testProcesses d).
Proof.
  intros w'. subst w'.
  destruct (run_actions_steps env reqs w) as [Hr [Hu [new [He [Hl _]]]]].
  split; [exact Hr|]. split; [exact Hu|].
  split; [exists new; split; assumption|].
  intros request d d' Hq Hq'.
  apply query_inv in Hq. apply query_inv in Hq'.
  destruct Hq as [_ ->]. destruct Hq' as [_ ->]. simpl.
  rewrite Hr. repeat split; reflexivity.
Qed.

(** X2.  Over any sequence of submissions, the calls the route makes to
    the external inspector are in order with respect to the flag: it calls
    [open()] only when the flag says closed and [close()] only when the
    flag says open, so never [open()] twice without a [close()] in
    between, nor the converse; and the flag at the end tells which call
    came last.  This holds as well when the guard refuses submissions and
    when the external calls throw. *)
Theorem inspector_calls_in_order
        (env : Env) (reqs : list Request) (w : World) :
  exists new,
    events (snd (run_actions env reqs w)) = events w ++ new
    /\ replay (flag_set (__inspector_open__ w)) new
       = Some (flag_set (__inspector_open__ (snd (run_actions env reqs w)))).
Proof.
  destruct (run_actions_steps env reqs w) as [_ [_ [new [He [_ Hp]]]]].
  exists new. split; assumption.
Qed.

(** X3.  The button the view offers is never a redundant one.  Posted to
    the action in the world the loader saw, it makes exactly one call of
    the external inspector, [open()] if the flag said closed and
    [close()] if it said open, flips the flag, and the view then offers
    the other button. *)
Theorem offered_button_toggles
        (env : Env) (request : Request) (w : World) (d : LoaderData) :
  query env request w = Some d ->
  let posted := submission (AdminLayout (useLoaderData d)) in
  let w' := snd (action env posted w) in
  events w'
  = events w ++ [if flag_set (__inspector_open__ w) then InspectorCloseCall
                 else InspectorOpenCall]
  /\ __inspector_open__ w' = Some (negb (flag_set (__inspector_open__ w)))
  /\ registries w' = registries w
  /\ (forall d',
         query env request w' = Some d' ->
         command (AdminLayout (useLoaderData d'))
         = if flag_set (__inspector_open__ w) then "inspect"
           else "stop-inspect").
Proof.
  intros Hq posted w'. apply query_inv in Hq. destruct Hq as [Hg ->].
  subst w' posted. unfold submission, AdminLayout, useLoaderData.
  cbn [command data_inspectorRunning inspectorRunning].
  destruct (flag_set (__inspector_open__ w)) eqn:Hf.
  - cbv iota.
    rewrite (@action_stop_inspect env
               (mkRequest [("intent", FString "stop-inspect")]) w Hg eq_refl),
      Hf.
    simpl.
    repeat split. intros d' Hq'. apply query_inv in Hq'.
    destruct Hq' as [_ ->]. reflexivity.
  - cbv iota.
    rewrite (@action_inspect env
               (mkRequest [("intent", FString "inspect")]) w Hg eq_refl),
      Hf.
    simpl.
    repeat split. intros d' Hq'. apply query_inv in Hq'.
    destruct Hq' as [_ ->]. reflexivity.
Qed.

Lemma offered_button_toggles_witness :
  let d := Fixtures.data_of Fixtures.open_world in
  let w' := snd (action Fixtures.env (submission (AdminLayout (useLoaderData d)))
                        Fixtures.open_world) in
  events w' = [InspectorOpenCall; InspectorCloseCall]
  /\ __inspector_open__ w' = Some false.
Proof.
  pose proof (@offered_button_toggles Fixtures.env Fixtures.get_request
                Fixtures.open_world (Fixtures.data_of Fixtures.open_world)
                eq_refl) as H.
  split; [exact (proj1 H) | exact (proj1 (proj2 H))].
Defined.

(** ** Registry operations seen through the listing *)

Section LookupFacts.
Context {V : Type}.
Implicit Types (ps : list (string * V)) (k : string) (v : V).

Lemma own_get_of_In ps k v :
  NoDup (keys ps) -> In (k, v) ps -> own_get ps k = Some v.
Proof.
  induction ps as [|[k' v'] ps IH]; simpl; intros Hnd Hin.
  - destruct Hin.
  - inversion Hnd as [|x xs Hnotin Hnd']; subst.
    destruct Hin as [E|Hin].
    + inversion E; subst. rewrite String.eqb_refl. reflexivity.
    + destruct (String.eqb_spec k' k) as [E|E].
      * subst k'. exfalso. apply Hnotin. apply In_keys with v. exact Hin.
      * apply IH; assumption.
Qed.

Lemma own_get_own_set ps k v k' :
  own_get (own_set ps k v) k'
  = if (k =? k')%string then Some v else own_get ps k'.
Proof.
  induction ps as [|[k0 v0] ps IH]; simpl.
  - destruct (k =? k')%string; reflexivity.
  - destruct (String.eqb_spec k0 k) as [E|E]; simpl.
    + subst k0. destruct (k =? k')%string; reflexivity.
    + destruct (String.eqb_spec k0 k') as [E'|E'].
      * subst k0. destruct (String.eqb_spec k k'); [congruence|reflexivity].
      * exact IH.
Qed.

Lemma own_set_present ps k v :
  In k (keys ps) -> NoDup (keys ps) ->
  own_set ps k v
  = map (fun e => if (fst e =? k)%string then (fst e, v) else e) ps.
Proof.
  induction ps as [|[k0 v0] ps IH]; simpl; intros Hin Hnd.
  - destruct Hin.
  - inversion Hnd as [|x xs Hnotin Hnd']; subst.
    destruct (String.eqb_spec k0 k) as [E|E].
    + subst k0. f_equal. clear IH Hin Hnd Hnd'.
      induction ps as [|[k1 v1] ps IH]; simpl; [reflexivity|].
      destruct (String.eqb_spec k1 k) as [E|E].
      * subst. exfalso. apply Hnotin. left. reflexivity.
      * f_equal. apply IH. intros H. apply Hnotin. right. exact H.
    + f_equal. apply IH; [|exact Hnd'].
      destruct Hin as [H|H]; [contradiction | exact H].
Qed.

Lemma Map_of_ops_snoc (calls : list (MapOp V)) (op : MapOp V) :
  Map_of_ops (calls ++ [op]) = Map_step (Map_of_ops calls) op.
Proof. unfold Map_of_ops. rewrite fold_left_app. reflexivity. Qed.

End LookupFacts.

Lemma In_listable {V : Type} (m : JsMap V) (e : string * V) :
  In e (listable m) <-> In e m /\ fst e <> "__proto__".
Proof.
  unfold listable. rewrite filter_In, negb_true_iff, String.eqb_neq. tauto.
Qed.

(** The rows of the two lists, for registries that are [Map]s. *)
Lemma dev_rows (env : Env) (request : Request) (w : World) (d : LoaderData) :
  NoDup (keys (devProcesses (registries w))) ->
  query env request w = Some d ->
  processItems (AdminLayout (useLoaderData d))
  = map dev_row (ordered (listable (devProcesses (registries w)))).
Proof.
  intros Hnd Hq. apply query_inv in Hq. destruct Hq as [_ ->].
  apply process_rows.
  apply (@client_entries _ dev_entry dev_entry_literal _ Hnd).
Qed.

Lemma test_item_rows (env : Env) (request : Request) (w : World)
      (d : LoaderData) :
  NoDup (keys (ProcessManager.testProcesses (registries w))) ->
  query env request w = Some d ->
  testItems (AdminLayout (useLoaderData d))
  = map test_row
        (ordered (listable (ProcessManager.testProcesses (registries w)))).
Proof.
  intros Hnd Hq. apply query_inv in Hq. destruct Hq as [_ ->].
  apply test_rows.
  apply (@client_entries _ test_entry test_entry_literal _ Hnd).
Qed.

Lemma row_lookup {V R : Type} (row_of : string * V -> string * R)
      (m : JsMap V) (r : string * R) :
  (forall e, fst (row_of e) = fst e) ->
  NoDup (keys m) ->
  In r (map row_of (ordered (listable m)))
  <-> exists p,
        Map_get m (fst r) = Some p
        /\ fst r <> "__proto__"
        /\ r = row_of (fst r, p).
Proof.
  intros Hfst Hnd. rewrite in_map_iff. split.
  - intros [[k p] [Hr Hin]]. apply (proj1 (ordered_In _ _)) in Hin.
    apply In_listable in Hin. destruct Hin as [Hin Hk]. simpl in Hk.
    assert (Ek : fst r = k) by (rewrite <- Hr, Hfst; reflexivity).
    exists p. rewrite Ek. split; [|split].
    + apply own_get_of_In; assumption.
    + exact Hk.
    + symmetry. exact Hr.
  - intros [p [Hget [Hk Hr]]]. exists (fst r, p). split.
    + symmetry. exact Hr.
    + apply (proj2 (ordered_In _ _)). apply In_listable. split.
      * apply own_get_Some_In. exact Hget.
      * exact Hk.
Qed.

(** X4.  The registries being [Map]s, the rows of the view are the
    lookups of the registries and nothing else: there is a row under a
    name exactly when the registry has a handle under it (and the name is
    not ["__proto__"]), and the row then shows the port, pid and color, or
    the pid and exit code, of that very handle. *)
Theorem rows_are_registry_lookups
        (dev_calls : list (MapOp DevProcess))
        (test_calls : list (MapOp TestProcess))
        (env : Env) (request : Request) (w : World) (d : LoaderData) :
  registries w = mkProcesses (Map_of_ops dev_calls) (Map_of_ops test_calls) ->
  query env request w = Some d ->
  let view := AdminLayout (useLoaderData d) in
  (forall r,
      In r (processItems view)
      <-> exists p,
            Map_get (Map_of_ops dev_calls) (fst r) = Some p
            /\ fst r <> "__proto__"
            /\ r = dev_row (fst r, p))
  /\ (forall r,
         In r (testItems view)
         <-> exists p,
               Map_get (Map_of_ops test_calls) (fst r) = Some p
               /\ fst r <> "__proto__"
               /\ r = test_row (fst r, p)).
Proof.
  intros Hreg Hq view. subst view.
  assert (Hd : NoDup (keys (devProcesses (registries w))))
    by (rewrite Hreg; apply Map_of_ops_NoDup).
  assert (Ht : NoDup (keys (ProcessManager.testProcesses (registries w))))
    by (rewrite Hreg; apply Map_of_ops_NoDup).
  rewrite (@dev_rows env request w d Hd Hq),
    (@test_item_rows env request w d Ht Hq).
  rewrite Hreg in *. simpl in *. split; intros r.
  - apply row_lookup; [intros e; reflexivity | exact Hd].
  - apply row_lookup; [intros e; reflexivity | exact Ht].
Qed.

Lemma rows_are_registry_lookups_witness :
  In ("b", (VNum 3001, VNum 4242, VStr "green"))
     (processItems
        (AdminLayout (useLoaderData (Fixtures.data_of Fixtures.world))))
  /\ ~ In ("c", (VUndefined, VUndefined))
         (testItems
            (AdminLayout (useLoaderData (Fixtures.data_of Fixtures.world)))).
Proof.
  pose proof (@rows_are_registry_lookups Fixtures.dev_ops Fixtures.test_ops
                Fixtures.env Fixtures.get_request Fixtures.world
                (Fixtures.data_of Fixtures.world) eq_refl eq_refl) as H.
  split.
  - apply (proj1 H). eexists. split; [reflexivity|].
    split; [discriminate | reflexivity].
  - intros Hin. apply (proj2 H) in Hin. destruct Hin as [p [Hget _]].
    discriminate Hget.
Defined.

(** *** How own-property order follows the operations of a [Map] *)

Section OrderOperations.
Context {V : Type}.
Implicit Types (ps : list (string * V)) (e : string * V).

Lemma insert_by_index_keyed {W : Type} (g : string * V -> string * W) e ps :
  (forall x, fst (g x) = fst x) ->
  insert_by_index (g e) (map g ps) = map g (insert_by_index e ps).
Proof.
  intros Hg. induction ps as [|e' ps IH]; simpl; [reflexivity|].
  rewrite !Hg.
  destruct (index_of (fst e) <=? index_of (fst e'))%N; simpl.
  - reflexivity.
  - rewrite IH. reflexivity.
Qed.

Lemma sort_by_index_keyed {W : Type} (g : string * V -> string * W) ps :
  (forall x, fst (g x) = fst x) ->
  sort_by_index (map g ps) = map g (sort_by_index ps).
Proof.
  intros Hg. induction ps as [|e ps IH]; simpl; [reflexivity|].
  rewrite IH. apply insert_by_index_keyed. exact Hg.
Qed.

Lemma filter_keyed {W : Type} (g : string * V -> string * W)
      (f : string -> bool) ps :
  (forall x, fst (g x) = fst x) ->
  filter (fun x => f (fst x)) (map g ps)
  = map g (filter (fun x => f (fst x)) ps).
Proof.
  intros Hg. induction ps as [|e ps IH]; simpl; [reflexivity|].
  rewrite Hg. destruct (f (fst e)); simpl; rewrite IH; reflexivity.
Qed.

(** Changing values under their names does not move anything. *)
Lemma ordered_keyed {W : Type} (g : string * V -> string * W) ps :
  (forall x, fst (g x) = fst x) ->
  ordered (map g ps) = map g (ordered ps).
Proof.
  intros Hg. unfold ordered. rewrite map_app.
  rewrite (filter_keyed g is_array_index ps Hg).
  rewrite (filter_keyed g (fun k => negb (is_array_index k)) ps Hg).
  rewrite sort_by_index_keyed by exact Hg. reflexivity.
Qed.

(** A new name that is no array index goes last. *)
Lemma ordered_snoc e ps :
  is_array_index (fst e) = false -> ordered (ps ++ [e]) = ordered ps ++ [e].
Proof.
  intros He. unfold ordered. rewrite !filter_app. simpl. rewrite He. simpl.
  rewrite app_nil_r, app_assoc. reflexivity.
Qed.

Lemma insert_by_index_first e ps :
  Forall (fun x => entry_index_le e x) ps -> insert_by_index e ps = e :: ps.
Proof.
  intros H. destruct H as [|x l Hx _]; simpl; [reflexivity|].
  unfold entry_index_le, index_le in Hx. apply N.leb_le in Hx.
  rewrite Hx. reflexivity.
Qed.

Lemma filter_insert_dropped (f : string * V -> bool) e ps :
  f e = false -> filter f (insert_by_index e ps) = filter f ps.
Proof.
  intros He. induction ps as [|e' ps IH]; simpl.
  - rewrite He. reflexivity.
  - destruct (index_of (fst e) <=? index_of (fst e'))%N; simpl.
    + rewrite He. reflexivity.
    + rewrite IH. reflexivity.
Qed.

Lemma filter_insert_kept (f : string * V -> bool) e ps :
  StronglySorted entry_index_le ps -> f e = true ->
  filter f (insert_by_index e ps) = insert_by_index e (filter f ps).
Proof.
  intros Hs He. induction Hs as [|e' ps Hs IH Hall]; simpl.
  - rewrite He. reflexivity.
  - destruct (N.leb_spec (index_of (fst e)) (index_of (fst e'))) as [Hle|Hlt].
    + simpl. rewrite He. destruct (f e') eqn:He'.
      * simpl. apply N.leb_le in Hle. rewrite Hle. reflexivity.
      * symmetry. apply insert_by_index_first.
        apply Forall_forall. intros x Hx. apply filter_In in Hx.
        destruct Hx as [Hx _]. rewrite Forall_forall in Hall.
        specialize (Hall x Hx). unfold entry_index_le, index_le in *. lia.
    + simpl. destruct (f e') eqn:He'; simpl.
      * rewrite IH. apply N.leb_gt in Hlt. rewrite Hlt. reflexivity.
      * exact IH.
Qed.

Lemma entry_index_le_trans :
  forall a b c : string * V,
    entry_index_le a b -> entry_index_le b c -> entry_index_le a c.
Proof. unfold entry_index_le, index_le. intros a b c. lia. Qed.

Lemma sort_by_index_StronglySorted ps :
  StronglySorted entry_index_le (sort_by_index ps).
Proof.
  apply Sorted_StronglySorted.
  - exact entry_index_le_trans.
  - apply sort_by_index_Sorted.
Qed.

Lemma filter_sort_by_index (f : string * V -> bool) ps :
  filter f (sort_by_index ps) = sort_by_index (filter f ps).
Proof.
  induction ps as [|e ps IH]; simpl; [reflexivity|].
  destruct (f e) eqn:He; simpl.
  - rewrite filter_insert_kept;
      [rewrite IH; reflexivity | apply sort_by_index_StronglySorted | exact He].
  - rewrite filter_insert_dropped by exact He. exact IH.
Qed.

Lemma filter_swap (f g : string * V -> bool) ps :
  filter f (filter g ps) = filter g (filter f ps).
Proof.
  induction ps as [|e ps IH]; simpl; [reflexivity|].
  destruct (f e) eqn:Hf, (g e) eqn:Hg; simpl;
    rewrite ?Hf, ?Hg, IH; reflexivity.
Qed.

(** Leaving entries out does not move the others. *)
Lemma ordered_filter (f : string * V -> bool) ps :
  ordered (filter f ps) = filter f (ordered ps).
Proof.
  unfold ordered. rewrite filter_app, filter_sort_by_index.
  rewrite (filter_swap f (fun e => is_array_index (fst e))).
  rewrite (filter_swap f (fun e => negb (is_array_index (fst e)))).
  reflexivity.
Qed.

End OrderOperations.

Lemma keys_dev_rows (X : list (string * DevProcess)) :
  map fst (map dev_row X) = keys X.
Proof. unfold keys. rewrite map_map. reflexivity. Qed.

Lemma In_keys_ordered_listable {V : Type} (m : JsMap V) (k : string) :
  In k (keys (ordered (listable m))) <-> In k (keys m) /\ k <> "__proto__".
Proof.
  split.
  - intros H. apply (Permutation_in _ (ordered_keys_perm _)) in H.
    unfold keys in *. apply in_map_iff in H. destruct H as [e [<- He]].
    apply In_listable in He. split; [apply in_map; tauto | tauto].
  - intros [H Hk]. apply (Permutation_in _
                            (Permutation_sym (ordered_keys_perm _))).
    unfold keys in *. apply in_map_iff in H. destruct H as [e [<- He]].
    apply in_map. apply In_listable. tauto.
Qed.

Lemma registered_shown_running
      (env : Env) (request : Request) (w : World) (d : LoaderData) (app : App) :
  query env request w = Some d ->
  In (name app) (keys (devProcesses (registries w))) ->
  app_status (useLoaderData d) app = running.
Proof.
  intros Hq Hin. apply query_inv in Hq. destruct Hq as [_ ->].
  unfold app_status, useLoaderData. cbn [data_processes processes].
  rewrite (@registered_lookup_truthy _ dev_entry dev_entry_literal _ _ Hin).
  reflexivity.
Qed.

Lemma unregistered_shown_stopped
      (env : Env) (request : Request) (w : World) (d : LoaderData) (app : App) :
  query env request w = Some d ->
  ~ In (name app) (keys (devProcesses (registries w))) ->
  ~ In (name app) Object_prototype_names ->
  app_status (useLoaderData d) app = stopped.
Proof.
  intros Hq Hout Hp. apply query_inv in Hq. destruct Hq as [_ ->].
  unfold app_status, useLoaderData. cbn [data_processes processes].
  rewrite (@unregistered_lookup_undefined _ dev_entry dev_entry_literal
             _ _ Hout Hp).
  reflexivity.
Qed.

(** X5.  After [devProcesses.set(name, p)], for a name other than
    ["__proto__"]: the list has the row of [p] under [name] and an app of
    that name is shown running; if the name was listed already the row
    takes the place of the old one, if it was not (and is no array index)
    the row comes last; the rows under other names are what they were. *)
Theorem started_server_is_listed
        (dev_calls : list (MapOp DevProcess))
        (tests tests' : JsMap TestProcess)
        (env : Env) (request : Request) (w w' : World) (d d' : LoaderData)
        (name : string) (p : DevProcess) :
  registries w = mkProcesses (Map_of_ops dev_calls) tests ->
  registries w'
  = mkProcesses (Map_of_ops (dev_calls ++ [OpSet name p])) tests' ->
  query env request w = Some d ->
  query env request w' = Some d' ->
  name <> "__proto__" ->
  let rows := processItems (AdminLayout (useLoaderData d)) in
  let rows' := processItems (AdminLayout (useLoaderData d')) in
  In (dev_row (name, p)) rows'
  /\ (forall app, Apps.name app = name ->
                  app_status (useLoaderData d') app = running)
  /\ (In name (map fst rows) ->
      rows' = with_row name (dev_row (name, p)) rows)
  /\ (~ In name (map fst rows) -> is_array_index name = false ->
      rows' = rows ++ [dev_row (name, p)])
  /\ (forall r, fst r <> name -> (In r rows' <-> In r rows)).
Proof.
  intros Hreg Hreg' Hq Hq' Hname rows rows'.
  set (m := Map_of_ops dev_calls) in *.
  assert (Hm : NoDup (keys m)) by apply Map_of_ops_NoDup.
  assert (Hm' : NoDup (keys (Map_set m name p)))
    by (apply NoDup_keys_own_set; exact Hm).
  rewrite Map_of_ops_snoc in Hreg'. fold m in Hreg'. simpl in Hreg'.
  assert (Hrows : rows = map dev_row (ordered (listable m))).
  { subst rows. rewrite (@dev_rows env request w d); [|rewrite Hreg; exact Hm|exact Hq].
    rewrite Hreg. reflexivity. }
  assert (Hrows' : rows' = map dev_row (ordered (listable (Map_set m name p)))).
  { subst rows'.
    rewrite (@dev_rows env request w' d');
      [|rewrite Hreg'; exact Hm'|exact Hq'].
    rewrite Hreg'. reflexivity. }
  assert (Hlisted : In name (map fst rows) <-> In name (keys m)).
  { rewrite Hrows, keys_dev_rows, In_keys_ordered_listable. tauto. }
  split; [|split; [|split; [|split]]].
  - rewrite Hrows'.
    apply (@row_lookup _ _ dev_row (Map_set m name p) (dev_row (name, p)));
      [intros e; reflexivity | exact Hm' |].
    exists p. simpl. unfold Map_get, Map_set.
    rewrite own_get_own_set, String.eqb_refl. tauto.
  - intros app Happ.
    apply (@registered_shown_running env request w' d' app Hq').
    rewrite Hreg'. simpl. unfold Map_set. apply In_keys_own_set.
    right. exact Happ.
  - intros Hin. apply Hlisted in Hin. rewrite Hrows', Hrows.
    unfold Map_set. rewrite (@own_set_present _ m name p Hin Hm).
    unfold listable.
    rewrite (@filter_keyed _ _
               (fun e : string * DevProcess =>
                  if (fst e =? name)%string then (fst e, p) else e)
               (fun k => negb (k =? "__proto__")%string)).
    2:{ intros x. destruct (fst x =? name)%string; reflexivity. }
    rewrite ordered_keyed.
    2:{ intros x. destruct (fst x =? name)%string; reflexivity. }
    unfold with_row. rewrite !map_map. apply map_ext. intros e.
    cbn [dev_row fst].
    destruct (String.eqb_spec (fst e) name) as [E|E]; [|reflexivity].
    unfold dev_row. simpl. rewrite E. reflexivity.
  - intros Hout Hidx. rewrite Hlisted in Hout. rewrite Hrows', Hrows.
    unfold Map_set. rewrite (@own_set_fresh _ m name p Hout).
    unfold listable. rewrite filter_app. simpl.
    apply String.eqb_neq in Hname. rewrite Hname. simpl.
    rewrite ordered_snoc by exact Hidx. rewrite map_app. reflexivity.
  - intros r Hr. rewrite Hrows', Hrows.
    rewrite (@row_lookup _ _ dev_row (Map_set m name p) r);
      [|intros e; reflexivity | exact Hm'].
    rewrite (@row_lookup _ _ dev_row m r);
      [|intros e; reflexivity | exact Hm].
    unfold Map_get, Map_set. rewrite own_get_own_set.
    destruct (String.eqb_spec name (fst r)) as [E|E]; [congruence|].
    tauto.
Qed.

Lemma started_server_is_listed_witness :
  processItems
    (AdminLayout (useLoaderData (Fixtures.data_of Cases.started_world)))
  = processItems
      (AdminLayout (useLoaderData (Fixtures.data_of Fixtures.world)))
    ++ [("c", (VNum 3003, VNum 909, VStr "pink"))].
Proof.
  assert (Hname : "c" <> "__proto__") by discriminate.
  assert (Hout : ~ In "c"
                   (map fst
                      (processItems
                         (AdminLayout
                            (useLoaderData
                               (Fixtures.data_of Fixtures.world)))))).
  { simpl. intuition discriminate. }
  exact (proj1 (proj2 (proj2 (proj2
           (@started_server_is_listed Fixtures.dev_ops
              (Map_of_ops Fixtures.test_ops) (Map_of_ops Fixtures.test_ops)
              Fixtures.env Fixtures.get_request
              Fixtures.world Cases.started_world
              (Fixtures.data_of Fixtures.world)
              (Fixtures.data_of Cases.started_world)
              "c" Cases.server_c eq_refl eq_refl eq_refl eq_refl Hname))))
           Hout eq_refl).
Defined.

Lemma filter_map_keyed {V R : Type} (row_of : string * V -> string * R)
      (f : string -> bool) (X : list (string * V)) :
  (forall e, fst (row_of e) = fst e) ->
  filter (fun r => f (fst r)) (map row_of X)
  = map row_of (filter (fun e => f (fst e)) X).
Proof.
  intros Hfst. induction X as [|e X IH]; simpl; [reflexivity|].
  rewrite Hfst. destruct (f (fst e)); simpl; rewrite IH; reflexivity.
Qed.

(** X6.  After [devProcesses.delete(name)] the list is the former list
    without the row under [name], the other rows in their places; and an
    app of that name is shown stopped, unless the name names a property of
    [Object.prototype]. *)
Theorem stopped_server_is_unlisted
        (dev_calls : list (MapOp DevProcess))
        (tests tests' : JsMap TestProcess)
        (env : Env) (request : Request) (w w' : World) (d d' : LoaderData)
        (name : string) :
  registries w = mkProcesses (Map_of_ops dev_calls) tests ->
  registries w'
  = mkProcesses (Map_of_ops (dev_calls ++ [OpDelete name])) tests' ->
  query env request w = Some d ->
  query env request w' = Some d' ->
  processItems (AdminLayout (useLoaderData d'))
  = without_row name (processItems (AdminLayout (useLoaderData d)))
  /\ (forall app, Apps.name app = name ->
                  ~ In name Object_prototype_names ->
                  app_status (useLoaderData d') app = stopped).
Proof.
  intros Hreg Hreg' Hq Hq'.
  set (m := Map_of_ops dev_calls) in *.
  assert (Hm : NoDup (keys m)) by apply Map_of_ops_NoDup.
  assert (Hm' : NoDup (keys (Map_delete m name)))
    by (apply NoDup_keys_filter; exact Hm).
  rewrite Map_of_ops_snoc in Hreg'. fold m in Hreg'. simpl in Hreg'.
  split.
  - rewrite (@dev_rows env request w d); [|rewrite Hreg; exact Hm|exact Hq].
    rewrite (@dev_rows env request w' d');
      [|rewrite Hreg'; exact Hm'|exact Hq'].
    rewrite Hreg, Hreg'. cbn [devProcesses].
    unfold without_row, Map_delete, listable.
    rewrite (filter_map_keyed dev_row
               (fun k => negb (k =? name)%string));
      [|intros e; reflexivity].
    rewrite filter_swap, ordered_filter. reflexivity.
  - intros app Happ Hproto.
    apply (@unregistered_shown_stopped env request w' d' app Hq').
    + rewrite Hreg'. cbn [devProcesses]. rewrite Happ.
      unfold Map_delete, keys. intros Hin. apply in_map_iff in Hin.
      destruct Hin as [e [He Hin]]. apply filter_In in Hin.
      destruct Hin as [_ Hin]. rewrite He, String.eqb_refl in Hin.
      discriminate Hin.
    + rewrite Happ. exact Hproto.
Qed.

Lemma stopped_server_is_unlisted_witness :
  processItems
    (AdminLayout (useLoaderData (Fixtures.data_of Cases.stopped_world)))
  = [("b", (VNum 3001, VNum 4242, VStr "green"))]
  /\ app_status (useLoaderData (Fixtures.data_of Cases.stopped_world))
                (mkApp "a" "First a" "/workshop/a")
     = stopped.
Proof.
  pose proof (@stopped_server_is_unlisted Fixtures.dev_ops
                (Map_of_ops Fixtures.test_ops) (Map_of_ops Fixtures.test_ops)
                Fixtures.env Fixtures.get_request
                Fixtures.world Cases.stopped_world
                (Fixtures.data_of Fixtures.world)
                (Fixtures.data_of Cases.stopped_world)
                "a" eq_refl eq_refl eq_refl eq_refl) as H.
  split.
  - exact (proj1 H).
  - apply (proj2 H); [reflexivity|]. simpl. intuition discriminate.
Defined.

(** X7.  An app whose name is the name of a property of
    [Object.prototype] ([constructor], [toString], [__proto__], ...) is
    shown running whatever the registry holds, also when it holds nothing:
    the lookup [data.processes[app.name]] then finds the inherited
    property. *)
Theorem prototype_names_are_shown_running
        (env : Env) (request : Request) (w : World) (d : LoaderData)
        (app : App) :
  query env request w = Some d ->
  In (name app) Object_prototype_names ->
  app_status (useLoaderData d) app = running.
Proof.
  intros Hq Hin. apply query_inv in Hq. destruct Hq as [_ ->].
  unfold app_status, useLoaderData. cbn [data_processes processes].
  unfold Get.
  destruct (own_get
              (roundtrip_props
                 (own (collect dev_entry (devProcesses (registries w)))))
              (name app)) as [v|] eqn:Hget.
  - apply own_get_Some_In in Hget.
    pose proof (@transported_objects _ dev_entry dev_entry_literal
                  (devProcesses (registries w))) as Hall.
    rewrite Forall_forall in Hall. destruct (Hall _ Hget) as [ps Hv].
    simpl in Hv. subst v. reflexivity.
  - apply existsb_eqb_In in Hin. rewrite Hin. reflexivity.
Qed.

Lemma prototype_names_are_shown_running_witness :
  devProcesses (registries Fixtures.numbered_world)
  = [ ("10", mkDev 3000 (mkChild (Some 500)) "blue");
      ("9", mkDev 3001 (mkChild (Some 501)) "green") ]
  /\ app_status (useLoaderData (Fixtures.data_of Fixtures.numbered_world))
                (mkApp "constructor" "Constructors" "/workshop/constructor")
     = running.
Proof.
  split; [reflexivity|].
  apply (@prototype_names_are_shown_running Fixtures.env Fixtures.get_request
           Fixtures.numbered_world);
    [reflexivity|].
  left. reflexivity.
Defined.

(** ** Deduplication and growing catalogs *)

Lemma firstByName_ext (s1 s2 : list string) (l : list App) :
  (forall n, In n s1 <-> In n s2) -> firstByName s1 l = firstByName s2 l.
Proof.
  revert s1 s2; induction l as [|a l IH]; intros s1 s2 H; simpl.
  - reflexivity.
  - assert (E : existsb (String.eqb (name a)) s1
                = existsb (String.eqb (name a)) s2).
    { destruct (existsb (String.eqb (name a)) s2) eqn:E2.
      - apply existsb_eqb_In. apply H. apply existsb_eqb_In. exact E2.
      - apply existsb_eqb_notIn. rewrite H. apply existsb_eqb_notIn.
        exact E2. }
    rewrite E. destruct (existsb (String.eqb (name a)) s2).
    + apply IH. exact H.
    + f_equal. apply IH. intros n. simpl. rewrite H. tauto.
Qed.

Lemma firstByName_app (seen : list string) (l1 l2 : list App) :
  firstByName seen (l1 ++ l2)
  = firstByName seen l1 ++ firstByName (names l1 ++ seen) l2.
Proof.
  revert seen; induction l1 as [|a l1 IH]; intros seen; simpl.
  - reflexivity.
  - destruct (existsb (String.eqb (name a)) seen) eqn:E.
    + rewrite IH. f_equal. apply firstByName_ext. intros n.
      apply existsb_eqb_In in E. simpl.
      split; [intros H; right; exact H|].
      intros [H|H]; [subst n; apply in_or_app; right; exact E | exact H].
    + simpl. rewrite IH. do 2 f_equal. apply firstByName_ext. intros n.
      simpl. rewrite !in_app_iff. simpl. tauto.
Qed.

Lemma firstByName_more_seen (s1 s2 : list string) (l : list App) :
  firstByName (s1 ++ s2) l
  = filter (fun a => negb (existsb (String.eqb (name a)) s1))
           (firstByName s2 l).
Proof.
  revert s2; induction l as [|a l IH]; intros s2; simpl.
  - reflexivity.
  - rewrite existsb_app.
    destruct (existsb (String.eqb (name a)) s2) eqn:E2.
    + rewrite orb_true_r. apply IH.
    + rewrite orb_false_r.
      destruct (existsb (String.eqb (name a)) s1) eqn:E1; simpl; rewrite E1;
        simpl.
      * rewrite <- IH. apply firstByName_ext. intros n.
        apply existsb_eqb_In in E1. rewrite !in_app_iff. simpl.
        split; [tauto|]. intros [H|[H|H]]; [tauto | subst; tauto | tauto].
      * f_equal. rewrite <- IH. apply firstByName_ext. intros n.
        simpl. rewrite !in_app_iff. simpl. tauto.
Qed.

(** X8.  Deduplicating a catalog that continues another: the records kept
    from the first part are those kept when the first part stands alone,
    in the same places, and what follows them are the records kept from
    the second part alone, less those whose name the first part has.
    Appending apps to the catalog never displaces or drops an app that was
    listed. *)
Theorem dedup_of_appended_catalog (first second : list App) :
  let dedup := Array_filter first_with_name in
  dedup (first ++ second)
  = dedup first
    ++ filter (fun a => negb (existsb (String.eqb (name a)) (names first)))
              (dedup second).
Proof.
  intros dedup. subst dedup. rewrite !uniqueApps_firstByName.
  rewrite firstByName_app. f_equal. apply firstByName_more_seen.
Qed.

(* ================================================================== *)
(** * Further properties of the client hints *)
(* ================================================================== *)

(** ** Cutting and trimming *)

Lemma split_cons_sep (sep : N) (rest : jstring) :
  split sep (sep :: rest) = [] :: split sep rest.
Proof. simpl. rewrite N.eqb_refl. reflexivity. Qed.

Lemma split_not_nil (sep : N) (s : jstring) : split sep s <> [].
Proof.
  destruct s as [|c s]; simpl; [discriminate|].
  destruct (c =? sep)%N; [discriminate|].
  destruct (split sep s); discriminate.
Qed.

Lemma split_without_sep (sep : N) (s : jstring) :
  ~ In sep s -> split sep s = [s].
Proof.
  induction s as [|c s IH]; simpl; intros H; [reflexivity|].
  destruct (N.eqb_spec c sep) as [E|E]; [tauto|].
  rewrite IH by tauto. reflexivity.
Qed.

Lemma split_app_sep (sep : N) (a rest : jstring) :
  ~ In sep a -> split sep (a ++ sep :: rest) = a :: split sep rest.
Proof.
  induction a as [|c a IH]; simpl; intros H.
  - rewrite N.eqb_refl. reflexivity.
  - destruct (N.eqb_spec c sep) as [E|E]; [tauto|].
    rewrite IH by tauto. reflexivity.
Qed.

(** A segment followed by nothing or by [sep] and more is the first
    piece. *)
Lemma split_head (sep : N) (a tail : jstring) :
  ~ In sep a -> tail = [] \/ (exists rest, tail = sep :: rest) ->
  exists pieces, split sep (a ++ tail) = a :: pieces.
Proof.
  intros Ha [->|[rest ->]].
  - rewrite app_nil_r, split_without_sep by exact Ha. eexists. reflexivity.
  - rewrite split_app_sep by exact Ha. eexists. reflexivity.
Qed.

Lemma startsWith_app (p r : jstring) : startsWith (p ++ r) p = true.
Proof.
  induction p as [|c p IH]; simpl; [destruct r; reflexivity|].
  rewrite N.eqb_refl. exact IH.
Qed.

Lemma startsWith_prefix (s p : jstring) :
  startsWith s p = true <-> exists r, s = p ++ r.
Proof.
  split.
  - revert s; induction p as [|c p IH]; intros s H.
    + exists s. reflexivity.
    + destruct s as [|x s]; simpl in H; [discriminate|].
      apply andb_true_iff in H. destruct H as [Hx Hs].
      apply N.eqb_eq in Hx. subst x.
      destruct (IH s Hs) as [r ->]. exists r. reflexivity.
  - intros [r ->]. apply startsWith_app.
Qed.

(** Two names followed by [sep], neither holding [sep]: one is a prefix of
    the other only if they are the same name. *)
Lemma name_before_sep (sep : N) (n n' v v' : jstring) :
  ~ In sep n -> ~ In sep n' ->
  n ++ sep :: v = n' ++ sep :: v' -> n = n'.
Proof.
  revert n'; induction n as [|c n IH]; intros [|c' n'] Hn Hn' H; simpl in *.
  - reflexivity.
  - injection H as Hc _. subst c'. tauto.
  - injection H as Hc _. subst c. tauto.
  - injection H as Hc H. subst c'. f_equal.
    apply (IH n'); tauto.
Qed.

Lemma trimStart_spaces (ws s : jstring) :
  Forall (fun c => is_space c = true) ws -> trimStart (ws ++ s) = trimStart s.
Proof.
  induction 1 as [|c ws Hc _ IH]; simpl; [reflexivity|].
  rewrite Hc. exact IH.
Qed.

Lemma trimStart_word (c : N) (s : jstring) :
  is_space c = false -> trimStart (c :: s) = c :: s.
Proof. intros H. simpl. rewrite H. reflexivity. Qed.

Lemma trimEnd_word (s : jstring) (c : N) :
  is_space c = false -> trimEnd (s ++ [c]) = s ++ [c].
Proof.
  intros H. unfold trimEnd. rewrite rev_app_distr. simpl. rewrite H.
  simpl. rewrite rev_involutive. reflexivity.
Qed.

Lemma trimEnd_spaces (s ws : jstring) :
  Forall (fun x => is_space x = true) ws -> trimEnd (s ++ ws) = trimEnd s.
Proof.
  intros Hws. unfold trimEnd. rewrite rev_app_distr.
  rewrite trimStart_spaces; [reflexivity|].
  apply Forall_forall. intros x Hx. apply in_rev in Hx.
  rewrite Forall_forall in Hws. apply Hws. exact Hx.
Qed.

Lemma trim_padded_both (ws : jstring) (c : N) (s : jstring) (z : N)
      (ws' : jstring) :
  Forall (fun x => is_space x = true) ws ->
  Forall (fun x => is_space x = true) ws' ->
  is_space c = false -> is_space z = false ->
  trim (ws ++ (c :: s ++ [z]) ++ ws') = c :: s ++ [z].
Proof.
  intros Hws Hws' Hc Hz. unfold trim.
  rewrite trimStart_spaces by exact Hws.
  assert (E : trimStart ((c :: s ++ [z]) ++ ws') = (c :: s ++ [z]) ++ ws').
  { simpl. rewrite Hc. reflexivity. }
  rewrite E, trimEnd_spaces by exact Hws'.
  apply (@trimEnd_word (c :: s) z Hz).
Qed.

Lemma not_In_of_forallb (x : N) (l : jstring) :
  forallb (fun c => negb (c =? x)%N) l = true -> ~ In x l.
Proof.
  intros H Hin. rewrite forallb_forall in H. specialize (H x Hin).
  rewrite N.eqb_refl in H. discriminate H.
Qed.

(** ** The shape of the cookie names of the table *)

Lemma hint_cookieName_shape (name : string) (hint : Hint) :
  In (name, hint) clientHints ->
  own_get clientHints name = Some hint
  /\ ~ In 59%N (cookieName hint)
  /\ ~ In 61%N (cookieName hint)
  /\ exists c cs, cookieName hint = c :: cs /\ is_space c = false.
Proof.
  intros [E|[E|[]]]; injection E as <- <-.
  - split; [reflexivity|].
    split; [apply not_In_of_forallb; reflexivity|].
    split; [apply not_In_of_forallb; reflexivity|].
    eexists. eexists. split; reflexivity.
  - split; [reflexivity|].
    split; [apply not_In_of_forallb; reflexivity|].
    split; [apply not_In_of_forallb; reflexivity|].
    eexists. eexists. split; reflexivity.
Qed.

(** ** Reading a cookie string segment by segment *)

Lemma getCookieValue_head (name : string) (hint : Hint)
      (seg tail : jstring) :
  own_get clientHints name = Some hint ->
  ~ In 59%N seg -> tail = [] \/ (exists rest, tail = 59%N :: rest) ->
  startsWith (trim seg) (cookieName hint ++ lit "=") = true ->
  getCookieValue (seg ++ tail) name
  = Ok (nth_error (split 61%N (trim seg)) 1).
Proof.
  intros Hget Hseg Htail Hm. unfold getCookieValue. rewrite Hget.
  destruct (@split_head 59%N seg tail Hseg Htail) as [pieces ->].
  simpl. rewrite Hm. reflexivity.
Qed.

Lemma getCookieValue_skip (name : string) (hint : Hint)
      (seg rest : jstring) :
  own_get clientHints name = Some hint ->
  ~ In 59%N seg ->
  startsWith (trim seg) (cookieName hint ++ lit "=") = false ->
  getCookieValue (seg ++ 59%N :: rest) name = getCookieValue rest name.
Proof.
  intros Hget Hseg Hm. unfold getCookieValue. rewrite Hget.
  rewrite split_app_sep by exact Hseg. simpl. rewrite Hm. reflexivity.
Qed.

Lemma spaces_without (x : N) (ws : jstring) :
  is_space x = false -> Forall (fun c => is_space c = true) ws -> ~ In x ws.
Proof.
  intros Hx Hws Hin. rewrite Forall_forall in Hws.
  specialize (Hws x Hin). congruence.
Qed.

(** X9.  A cookie [name=value] of a hint is read back from a cookie
    string: padded with white space or not, last in the string or
    followed by [;] and anything, and after any number of segments that do
    not begin with the cookie name and [=], [getCookieValue] returns
    exactly [value], for every value free of white space, [;] and [=]. *)
Theorem cookie_is_read_back
        (name : string) (hint : Hint) (others : list jstring)
        (ws ws' value tail : jstring) :
  In (name, hint) clientHints ->
  Forall (fun c => ~ In 59%N c
                   /\ startsWith (trim c) (cookieName hint ++ lit "=") = false)
         others ->
  Forall (fun c => is_space c = true) ws ->
  Forall (fun c => is_space c = true) ws' ->
  Forall (fun c => is_space c = false /\ c <> 59%N /\ c <> 61%N) value ->
  tail = [] \/ (exists rest, tail = 59%N :: rest) ->
  getCookieValue
    (List.concat (map (fun c => c ++ [59%N]) others)
     ++ (ws ++ cookieName hint ++ lit "=" ++ value ++ ws') ++ tail)
    name
  = Ok (Some value).
Proof.
  intros Hin Hothers Hws Hws' Hval Htail.
  destruct (hint_cookieName_shape Hin)
    as [Hget [Hn59 [Hn61 [c [cs [Hcn Hc]]]]]].
  set (seg := ws ++ cookieName hint ++ lit "=" ++ value ++ ws').
  induction Hothers as [|o others [Ho Hm] _ IH].
  - cbn [List.concat map]. rewrite app_nil_l. subst seg.
    assert (Hv59 : ~ In 59%N value).
    { intros H. rewrite Forall_forall in Hval.
      destruct (Hval _ H) as [_ [H' _]]. congruence. }
    assert (Hv61 : ~ In 61%N value).
    { intros H. rewrite Forall_forall in Hval.
      destruct (Hval _ H) as [_ [_ H']]. congruence. }
    assert (Hseg : ~ In 59%N (ws ++ cookieName hint ++ lit "=" ++ value ++ ws')).
    { rewrite !in_app_iff. intros [H|[H|[H|[H|H]]]].
      - exact (spaces_without 59%N eq_refl Hws H).
      - exact (Hn59 H).
      - destruct H as [H|[]]. discriminate H.
      - exact (Hv59 H).
      - exact (spaces_without 59%N eq_refl Hws' H). }
    assert (Htrim : trim (ws ++ cookieName hint ++ lit "=" ++ value ++ ws')
                    = cookieName hint ++ lit "=" ++ value).
    { rewrite Hcn.
      destruct (exists_last (l := lit "=" ++ value)) as [s [z Hsz]];
        [discriminate|].
      assert (Hz : is_space z = false).
      { destruct value as [|v0 value'] using rev_ind.
        - simpl in Hsz. destruct s as [|? [|? ?]]; simpl in Hsz;
            try discriminate Hsz. injection Hsz as <-. reflexivity.
        - rewrite app_assoc in Hsz. apply app_inj_tail in Hsz.
          destruct Hsz as [_ <-]. rewrite Forall_forall in Hval.
          apply (Hval v0). apply in_or_app. right. left. reflexivity. }
      replace (ws ++ (c :: cs) ++ lit "=" ++ value ++ ws')
        with (ws ++ (c :: (cs ++ s) ++ [z]) ++ ws').
      2:{ f_equal.
          assert (E : lit "=" ++ value ++ ws' = (s ++ [z]) ++ ws')
            by (rewrite app_assoc, Hsz; reflexivity).
          rewrite E. simpl. f_equal. rewrite <- !app_assoc. reflexivity. }
      rewrite trim_padded_both by assumption.
      rewrite Hsz. simpl. f_equal. rewrite <- app_assoc. reflexivity. }
    rewrite (@getCookieValue_head name hint _ tail Hget Hseg Htail).
    + rewrite Htrim.
      change (lit "=" ++ value) with (61%N :: value).
      rewrite split_app_sep by exact Hn61.
      rewrite split_without_sep by exact Hv61. reflexivity.
    + rewrite Htrim, app_assoc. apply startsWith_app.
  - cbn [List.concat map].
    replace (((o ++ [59%N]) ++ List.concat (map (fun c => c ++ [59%N]) others))
             ++ seg ++ tail)
      with (o ++ 59%N
              :: (List.concat (map (fun c => c ++ [59%N]) others)
                  ++ seg ++ tail))
      by (rewrite <- !app_assoc; reflexivity).
    rewrite (@getCookieValue_skip name hint o _ Hget Ho Hm).
    exact IH.
Qed.

Lemma cookie_is_read_back_witness :
  CookieCases.three_cookies
  = List.concat (map (fun c => c ++ [59%N]) [lit "session=abc"])
    ++ (lit " " ++ cookieName theme ++ lit "=" ++ lit "dark" ++ [])
    ++ lit "; x=1"
  /\ getCookieValue CookieCases.three_cookies "theme" = Ok (Some (lit "dark")).
Proof.
  split; [reflexivity|].
  refine (@cookie_is_read_back "theme" theme [lit "session=abc"]
            (lit " ") [] (lit "dark") (lit "; x=1") _ _ _ _ _ _).
  - left. reflexivity.
  - constructor; [|constructor].
    split; [apply not_In_of_forallb; reflexivity | reflexivity].
  - constructor; [reflexivity | constructor].
  - constructor.
  - repeat (apply Forall_cons;
            [split; [reflexivity | split; discriminate]|]).
    apply Forall_nil.
  - right. eexists. reflexivity.
Defined.

(** X10.  A cookie of another name is never taken for the cookie of a
    hint: a segment without [=], or one whose name (the text before its
    first [=]) is not the cookie name of the hint, even if it begins or
    ends like it, is passed over, and the value comes from what follows
    the segment. *)
Theorem differently_named_cookie_is_skipped
        (name : string) (hint : Hint) (segment rest : jstring) :
  In (name, hint) clientHints ->
  ~ In 59%N segment ->
  (~ In 61%N (trim segment)
   \/ exists n v,
        trim segment = n ++ 61%N :: v
        /\ ~ In 61%N n /\ n <> cookieName hint) ->
  getCookieValue (segment ++ 59%N :: rest) name = getCookieValue rest name.
Proof.
  intros Hin Hseg Hother.
  destruct (hint_cookieName_shape Hin) as [Hget [_ [Hn61 _]]].
  apply (@getCookieValue_skip name hint segment rest Hget Hseg).
  destruct (startsWith (trim segment) (cookieName hint ++ lit "=")) eqn:Hm;
    [|reflexivity].
  exfalso. apply startsWith_prefix in Hm. destruct Hm as [r Hr].
  rewrite <- app_assoc in Hr. change (lit "=" ++ r) with (61%N :: r) in Hr.
  destruct Hother as [Hno|[n [v [Htrim [Hn Hne]]]]].
  - apply Hno. rewrite Hr. apply in_or_app. right. left. reflexivity.
  - apply Hne. rewrite Htrim in Hr.
    exact (@name_before_sep 61%N n (cookieName hint) v r Hn Hn61 Hr).
Qed.

Lemma differently_named_cookie_is_skipped_witness :
  getCookieValue CookieCases.lookalike_first "theme"
  = getCookieValue (lit "KCDShop_CH-prefers-color-scheme=light") "theme"
  /\ getCookieValue CookieCases.lookalike_first "theme"
     = Ok (Some (lit "light")).
Proof.
  assert (H : getCookieValue CookieCases.lookalike_first "theme"
              = getCookieValue (lit "KCDShop_CH-prefers-color-scheme=light")
                               "theme").
  { refine (@differently_named_cookie_is_skipped "theme" theme
              (lit "KCDShop_CH-prefers-color-scheme-old=dark")
              (lit "KCDShop_CH-prefers-color-scheme=light") _ _ _).
    - left. reflexivity.
    - apply not_In_of_forallb. reflexivity.
    - right. exists (lit "KCDShop_CH-prefers-color-scheme-old"), (lit "dark").
      split; [reflexivity|].
      split; [apply not_In_of_forallb; reflexivity | discriminate]. }
  split; [exact H|]. rewrite H. reflexivity.
Defined.

(** ** The inline script of ClientHintCheck *)

Import HintCheck.

Lemma split_shape (sep : N) (c : jstring) :
  (~ In sep c /\ split sep c = [c])
  \/ exists k r, c = k ++ sep :: r /\ ~ In sep k
                 /\ split sep c = k :: split sep r.
Proof.
  induction c as [|x c IH].
  - left. split; [intros [] | reflexivity].
  - destruct (N.eqb_spec x sep) as [E|E].
    + subst x. right. exists [], c. split; [reflexivity|].
      split; [intros [] | apply split_cons_sep].
    + destruct IH as [[Hno Hs]|[k [r [Hc [Hk Hs]]]]].
      * left. split; [simpl; tauto|].
        apply split_without_sep. simpl. tauto.
      * right. exists (x :: k), r. subst c. split; [reflexivity|].
        split; [simpl; tauto|].
        change ((x :: k) ++ sep :: r) with (x :: (k ++ sep :: r)).
        change (split sep (x :: k ++ sep :: r))
          with (if (x =? sep)%N then [] :: split sep (k ++ sep :: r)
                else match split sep (k ++ sep :: r) with
                     | piece :: pieces => (x :: piece) :: pieces
                     | [] => [[x]]
                     end).
        apply N.eqb_neq in E. rewrite E, Hs. reflexivity.
Qed.

(** The test of [getCookieValue] and the filing of the script agree on a
    segment: it begins with the name and [=] exactly when the script files
    it under the name with a value. *)
Lemma matches_iff_filed (cn c : jstring) :
  ~ In 61%N cn ->
  startsWith c (cn ++ lit "=") = true
  <-> key_of c = cn /\ exists v, nth_error (split 61%N c) 1 = Some v.
Proof.
  intros Hcn. unfold key_of. split.
  - intros H. apply startsWith_prefix in H. destruct H as [r ->].
    rewrite <- app_assoc. change (lit "=" ++ r) with (61%N :: r).
    rewrite split_app_sep by exact Hcn. simpl. split; [reflexivity|].
    destruct (split 61%N r) as [|v vs] eqn:E;
      [exfalso; exact (split_not_nil _ _ E)|].
    exists v. reflexivity.
  - intros [Hk [v Hv]].
    destruct (split_shape 61%N c) as [[_ Hs]|[k [r [Hc [_ Hs]]]]].
    + rewrite Hs in Hv. discriminate Hv.
    + rewrite Hs in Hk. simpl in Hk. subst k c.
      change (61%N :: r) with (lit "=" ++ r). rewrite app_assoc.
      apply startsWith_app.
Qed.

Lemma jeqb_refl (a : jstring) : jeqb a a = true.
Proof. apply jeqb_eq. reflexivity. Qed.

Lemma jeqb_neq (a b : jstring) : jeqb a b = false <-> a <> b.
Proof.
  rewrite <- jeqb_eq. destruct (jeqb a b); split; congruence.
Qed.

Lemma slot_get_set (ps : list (jstring * Slot)) (k : jstring) (v : Slot)
      (k' : jstring) :
  slot_get (slot_set ps k v) k'
  = if jeqb k k' then Some v else slot_get ps k'.
Proof.
  induction ps as [|[k0 v0] ps IH]; simpl.
  - destruct (jeqb k k'); reflexivity.
  - destruct (jeqb k0 k) eqn:E; simpl.
    + apply jeqb_eq in E. subst k0. destruct (jeqb k k'); reflexivity.
    + destruct (jeqb k0 k') eqn:E'.
      * apply jeqb_eq in E'. subst k0.
        destruct (jeqb k k') eqn:E2; [|reflexivity].
        apply jeqb_eq in E2. subst k'. rewrite jeqb_refl in E.
        discriminate E.
      * exact IH.
Qed.

(** What the script finds under a name after filing all segments: the
    value of the last segment filed under it. *)
Lemma filed_last (segs : list jstring) (acc : list (jstring * Slot))
      (cn : jstring) :
  cn <> lit "__proto__" ->
  slot_get
    (fold_left (fun acc cur => assign acc (key_of cur) (value_of cur))
               segs acc) cn
  = match rev (filter (fun cur => jeqb (key_of cur) cn) segs) with
    | seg :: _ => Some (value_of seg)
    | [] => slot_get acc cn
    end.
Proof.
  intros Hcn. induction segs as [|c segs IH] using rev_ind.
  - reflexivity.
  - rewrite fold_left_app, filter_app, rev_app_distr. simpl.
    unfold assign at 1.
    destruct (jeqb (key_of c) cn) eqn:Hk; simpl.
    + apply jeqb_eq in Hk. apply jeqb_neq in Hcn. rewrite Hk, Hcn.
      rewrite slot_get_set, jeqb_refl. reflexivity.
    + destruct (jeqb (key_of c) (lit "__proto__")); [exact IH|].
      rewrite slot_get_set, Hk. exact IH.
Qed.

Lemma lookup_string (acc : list (jstring * Slot)) (k s : jstring) :
  lookup acc k = SlotString s <-> slot_get acc k = Some (SlotString s).
Proof.
  unfold lookup. destruct (slot_get acc k) as [v|].
  - split; congruence.
  - destruct (existsb (jeqb k) (map lit Object_prototype_names));
      split; discriminate.
Qed.

(** A hint is settled when the cookie the script finds for it is its
    actual value. *)
Lemma settled_iff (w : Window) (name : string) (hint : Hint) :
  In (name, hint) clientHints ->
  differs {| hint_name := cookieName hint;
             actual := evaluate w (getValueCode hint);
             cookie := lookup (parse_cookies (document_cookie w))
                              (cookieName hint) |} = false
  <-> exists before seg,
        segments_named (cookieName hint) (document_cookie w) = before ++ [seg]
        /\ nth_error (split 61%N seg) 1
           = Some (evaluate w (getValueCode hint)).
Proof.
  intros Hin.
  assert (Hcn : cookieName hint <> lit "__proto__").
  { destruct Hin as [E|[E|[]]]; injection E as <- <-; discriminate. }
  unfold differs. cbn [cookie actual].
  unfold segments_named.
  set (segs := map trim (split 59%N (document_cookie w))).
  set (a := evaluate w (getValueCode hint)).
  split.
  - destruct (lookup (parse_cookies (document_cookie w)) (cookieName hint))
      as [|s|] eqn:Hl; try discriminate.
    intros Hs. apply negb_false_iff, jeqb_eq in Hs. subst s.
    apply lookup_string in Hl. unfold parse_cookies in Hl. fold segs in Hl.
    rewrite (@filed_last segs [] (cookieName hint) Hcn) in Hl.
    destruct (rev (filter (fun cur => jeqb (key_of cur) (cookieName hint))
                          segs)) as [|seg rest] eqn:Hrev;
      [discriminate Hl|].
    exists (rev rest), seg. split.
    + rewrite <- (rev_involutive (filter _ segs)), Hrev. reflexivity.
    + unfold value_of in Hl.
      destruct (nth_error (split 61%N seg) 1); congruence.
  - intros [before [seg [Hf Hv]]].
    assert (Hl : lookup (parse_cookies (document_cookie w)) (cookieName hint)
                 = SlotString a).
    { apply lookup_string. unfold parse_cookies. fold segs.
      rewrite (@filed_last segs [] (cookieName hint) Hcn), Hf.
      rewrite rev_app_distr. simpl. unfold value_of. rewrite Hv.
      reflexivity. }
    rewrite Hl, jeqb_refl. reflexivity.
Qed.

Import HintCases.

Lemma evaluate_theme (w : Window) :
  evaluate w (getValueCode theme)
  = if prefers_dark w then lit "dark" else lit "light".
Proof. reflexivity. Qed.

Lemma evaluate_reducedMotion (w : Window) :
  evaluate w (getValueCode reducedMotion)
  = if prefers_reduced_motion w then lit "reduce" else lit "no-preference".
Proof. reflexivity. Qed.

Lemma encode_cookieName (name : string) (hint : Hint) :
  In (name, hint) clientHints ->
  encodeURIComponent (cookieName hint) = Ok (cookieName hint).
Proof.
  intros [E|[E|[]]]; injection E as <- <-; reflexivity.
Qed.

Lemma encode_actual (w : Window) (name : string) (hint : Hint) :
  In (name, hint) clientHints ->
  encodeURIComponent (evaluate w (getValueCode hint))
  = Ok (evaluate w (getValueCode hint)).
Proof.
  intros [E|[E|[]]]; injection E as <- <-.
  - rewrite evaluate_theme. destruct (prefers_dark w); reflexivity.
  - rewrite evaluate_reducedMotion.
    destruct (prefers_reduced_motion w); reflexivity.
Qed.

Lemma check_step_listed (w : Window) (name : string) (hint : Hint)
      (changed : bool) (out : list jstring) :
  In (name, hint) clientHints ->
  check_step (Ok (changed, out)) (state_of w hint)
  = if differs (state_of w hint)
    then Ok (true, out ++ [cookie_text w hint])
    else Ok (changed, out).
Proof.
  intros Hin. unfold check_step.
  destruct (differs (state_of w hint)); [|reflexivity].
  unfold state_of. cbn [hint_name actual].
  rewrite (encode_cookieName Hin), (@encode_actual w name hint Hin).
  reflexivity.
Qed.

(** What the script does, hint by hint. *)
Lemma script_cases (w : Window) :
  script w
  = Ok {| written :=
            (if differs (state_of w theme) then [cookie_text w theme] else [])
            ++ (if differs (state_of w reducedMotion)
                then [cookie_text w reducedMotion] else []);
          reloaded :=
            (differs (state_of w theme) || differs (state_of w reducedMotion))
            && cookieEnabled w |}.
Proof.
  unfold script.
  change (hints w) with [state_of w theme; state_of w reducedMotion].
  cbn [fold_left].
  rewrite (@check_step_listed w "theme" theme false []
             (or_introl eq_refl)).
  destruct (differs (state_of w theme)).
  - rewrite (@check_step_listed w "reducedMotion" reducedMotion true _
               (or_intror (or_introl eq_refl))).
    destruct (differs (state_of w reducedMotion)); reflexivity.
  - rewrite (@check_step_listed w "reducedMotion" reducedMotion false _
               (or_intror (or_introl eq_refl))).
    destruct (differs (state_of w reducedMotion)); reflexivity.
Qed.

Lemma getHints_of_values (document : option jstring)
      (request : option (option jstring))
      (themeValue motionValue : option jstring) :
  getCookieValue (cookieString_of document request) "theme" = Ok themeValue ->
  getCookieValue (cookieString_of document request) "reducedMotion"
  = Ok motionValue ->
  getHints document request
  = Ok [("theme", transform theme themeValue);
        ("reducedMotion", transform reducedMotion motionValue)].
Proof.
  intros Ht Hm. unfold getHints, clientHints. cbn [fold_left].
  unfold hint_step. cbn [fst snd]. rewrite Ht, Hm. reflexivity.
Qed.

Lemma transform_actual (w : Window) (name : string) (hint : Hint) :
  In (name, hint) clientHints ->
  transform hint (Some (evaluate w (getValueCode hint)))
  = evaluate w (getValueCode hint).
Proof.
  intros [E|[E|[]]]; injection E as <- <-.
  - rewrite evaluate_theme. destruct (prefers_dark w); reflexivity.
  - rewrite evaluate_reducedMotion.
    destruct (prefers_reduced_motion w); reflexivity.
Qed.

(** With one segment filed under the cookie name of a hint,
    [getCookieValue] returns what that segment holds. *)
Lemma getCookieValue_unique (name : string) (hint : Hint)
      (cookieString seg v : jstring) :
  In (name, hint) clientHints ->
  segments_named (cookieName hint) cookieString = [seg] ->
  nth_error (split 61%N seg) 1 = Some v ->
  getCookieValue cookieString name = Ok (Some v).
Proof.
  intros Hin Hseg Hv.
  destruct (hint_cookieName_shape Hin) as [Hget [_ [Hn61 _]]].
  unfold getCookieValue. rewrite Hget. unfold Array_find.
  unfold segments_named in Hseg.
  set (segs := map trim (split 59%N cookieString)) in *.
  assert (Hin_seg : In seg segs /\ jeqb (key_of seg) (cookieName hint) = true).
  { apply (proj1 (filter_In
                    (fun cur => jeqb (key_of cur) (cookieName hint)) seg segs)).
    rewrite Hseg. left. reflexivity. }
  destruct (find (fun c => startsWith c (cookieName hint ++ lit "=")) segs)
    as [c|] eqn:Hfind.
  - apply find_some in Hfind. destruct Hfind as [Hc Hm].
    apply (@matches_iff_filed (cookieName hint) c Hn61) in Hm. destruct Hm as [Hk _].
    assert (Hc' : In c (filter (fun cur => jeqb (key_of cur) (cookieName hint))
                               segs)).
    { apply filter_In. split; [exact Hc | apply jeqb_eq; exact Hk]. }
    rewrite Hseg in Hc'. destruct Hc' as [<-|[]]. rewrite Hv. reflexivity.
  - exfalso. destruct Hin_seg as [Hs Hk]. apply jeqb_eq in Hk.
    pose proof (find_none _ _ Hfind seg Hs) as Hno.
    assert (Hyes : startsWith seg (cookieName hint ++ lit "=") = true).
    { apply (@matches_iff_filed (cookieName hint) seg Hn61). split; [exact Hk|].
      exists v. exact Hv. }
    cbv beta in Hno. congruence.
Qed.

Lemma rest_settles (w : Window) (name : string) (hint : Hint) :
  script w = Ok {| written := []; reloaded := false |} ->
  In (name, hint) clientHints ->
  differs (state_of w hint) = false.
Proof.
  rewrite script_cases. intros H Hin. injection H as Hw _.
  destruct Hin as [E|[E|[]]]; injection E as <- <-.
  - destruct (differs (state_of w theme)); [discriminate Hw | reflexivity].
  - destruct (differs (state_of w reducedMotion)); [|reflexivity].
    destruct (differs (state_of w theme)); discriminate Hw.
Qed.

(** X11.  The script rests, writing no cookie and not reloading, exactly
    when the cookies are settled: for each hint of the table, the last
    segment of [document.cookie] whose text before the first [=] is the
    cookie name of the hint holds, between its first and second [=], the
    value the window has for the hint. *)
Theorem script_rests_iff_cookies_settled (w : Window) :
  script w = Ok {| written := []; reloaded := false |}
  <-> forall name hint,
        In (name, hint) clientHints ->
        exists before seg,
          segments_named (cookieName hint) (document_cookie w)
          = before ++ [seg]
          /\ nth_error (split 61%N seg) 1
             = Some (evaluate w (getValueCode hint)).
Proof.
  split.
  - intros H name hint Hin.
    apply (@settled_iff w name hint Hin). fold (state_of w hint).
    exact (@rest_settles w name hint H Hin).
  - intros H. rewrite script_cases.
    pose proof (proj2 (@settled_iff w "theme" theme (or_introl eq_refl))
                      (H "theme" theme (or_introl eq_refl))) as H1.
    pose proof (proj2 (@settled_iff w "reducedMotion" reducedMotion
                         (or_intror (or_introl eq_refl)))
                      (H "reducedMotion" reducedMotion
                         (or_intror (or_introl eq_refl)))) as H2.
    fold (state_of w theme) in H1. fold (state_of w reducedMotion) in H2.
    rewrite H1, H2. reflexivity.
Qed.

(** X12.  When the script rests and no cookie name of a hint is carried
    by more than one segment of [document.cookie], [getHints] on that
    cookie string, in the browser as well as on the server that is sent
    it, gives for every hint the value the window has for it. *)
Theorem resting_script_agrees_with_getHints
        (w : Window) (request : option (option jstring)) :
  (forall name hint,
      In (name, hint) clientHints ->
      (List.length (segments_named (cookieName hint) (document_cookie w))
       <= 1)%nat) ->
  script w = Ok {| written := []; reloaded := false |} ->
  getHints (Some (document_cookie w)) request
  = Ok [("theme", evaluate w (getValueCode theme));
        ("reducedMotion", evaluate w (getValueCode reducedMotion))]
  /\ getHints None (Some (Some (document_cookie w)))
     = Ok [("theme", evaluate w (getValueCode theme));
           ("reducedMotion", evaluate w (getValueCode reducedMotion))].
Proof.
  intros Hone Hrest.
  assert (Hval : forall name hint,
             In (name, hint) clientHints ->
             getCookieValue (document_cookie w) name
             = Ok (Some (evaluate w (getValueCode hint)))).
  { intros name hint Hin.
    pose proof (@rest_settles w name hint Hrest Hin) as Hd.
    unfold state_of in Hd.
    destruct (proj1 (@settled_iff w name hint Hin) Hd)
      as [before [seg [Hf Hv]]].
    specialize (Hone name hint Hin). rewrite Hf, length_app in Hone.
    simpl in Hone. destruct before as [|b before]; [|simpl in Hone; lia].
    apply (@getCookieValue_unique name hint _ seg _ Hin Hf Hv). }
  pose proof (Hval "theme" theme (or_introl eq_refl)) as Ht.
  pose proof (Hval "reducedMotion" reducedMotion
                   (or_intror (or_introl eq_refl))) as Hm.
  rewrite <- (@transform_actual w "theme" theme (or_introl eq_refl)).
  rewrite <- (@transform_actual w "reducedMotion" reducedMotion
                (or_intror (or_introl eq_refl))).
  split; apply getHints_of_values; assumption.
Qed.

Lemma resting_script_agrees_with_getHints_witness :
  script settled_window = Ok {| written := []; reloaded := false |}
  /\ getHints None (Some (Some (document_cookie settled_window)))
     = Ok [("theme", lit "dark"); ("reducedMotion", lit "no-preference")].
Proof.
  assert (Hone : forall name hint,
             In (name, hint) clientHints ->
             (List.length (segments_named (cookieName hint)
                                          (document_cookie settled_window))
              <= 1)%nat).
  { intros name hint [E|[E|[]]]; injection E as <- <-; vm_compute; lia. }
  split; [reflexivity|].
  exact (proj2 (@resting_script_agrees_with_getHints settled_window None
                  Hone eq_refl)).
Defined.

(** Two cookies of the name of the theme hint, the last one up to date:
    the script rests, and [getHints], which reads the first one, gives the
    other theme.  The condition of X12 on repeated names is needed. *)
Example doubled_cookie_disagreement :
  script doubled_window = Ok {| written := []; reloaded := false |}
  /\ evaluate doubled_window (getValueCode theme) = lit "dark"
  /\ getHints None (Some (Some (document_cookie doubled_window)))
     = Ok [("theme", lit "light"); ("reducedMotion", lit "no-preference")].
Proof. repeat split; reflexivity. Qed.

Lemma read_back_text (w : Window) (name : string) (hint : Hint) :
  In (name, hint) clientHints ->
  getCookieValue (cookie_text w hint) name
  = Ok (Some (evaluate w (getValueCode hint))).
Proof.
  intros [E|[E|[]]]; injection E as <- <-; unfold cookie_text.
  - rewrite evaluate_theme. destruct (prefers_dark w); reflexivity.
  - rewrite evaluate_reducedMotion.
    destruct (prefers_reduced_motion w); reflexivity.
Qed.

(** X13.  The script never throws.  It reloads only when cookies are
    enabled and it has written a cookie.  Every string it assigns to
    [document.cookie] is the cookie of a hint whose cookie differed, with
    the value the window has for the hint and the attributes [Max-Age] and
    [Path]; and read as a cookie string, that string gives
    [getCookieValue] the same value back, which [transform] keeps. *)
Theorem script_writes_are_read_back (w : Window) :
  exists out,
    script w = Ok out
    /\ (reloaded out = true -> cookieEnabled w = true /\ written out <> [])
    /\ (cookieEnabled w = true -> written out <> [] -> reloaded out = true)
    /\ forall text,
        In text (written out) ->
        exists name hint,
          In (name, hint) clientHints
          /\ differs (state_of w hint) = true
          /\ text = cookieName hint ++ lit "="
                    ++ evaluate w (getValueCode hint)
                    ++ lit "; Max-Age=31536000; Path=/"
          /\ getCookieValue text name
             = Ok (Some (evaluate w (getValueCode hint)))
          /\ transform hint (Some (evaluate w (getValueCode hint)))
             = evaluate w (getValueCode hint).
Proof.
  rewrite script_cases. eexists. split; [reflexivity|].
  cbn [written reloaded].
  assert (Htheme : In ("theme", theme) clientHints) by (left; reflexivity).
  assert (Hmotion : In ("reducedMotion", reducedMotion) clientHints)
    by (right; left; reflexivity).
  split; [|split].
  - intros H. apply andb_true_iff in H. destruct H as [Hd He].
    split; [exact He|].
    destruct (differs (state_of w theme)); [discriminate|].
    destruct (differs (state_of w reducedMotion)); [discriminate|].
    discriminate Hd.
  - intros He Hw. rewrite He, andb_true_r.
    destruct (differs (state_of w theme)); [reflexivity|].
    destruct (differs (state_of w reducedMotion)); [reflexivity|].
    exfalso. apply Hw. reflexivity.
  - intros text Hin. apply in_app_or in Hin. destruct Hin as [Hin|Hin].
    + destruct (differs (state_of w theme)) eqn:Hd; [|destruct Hin].
      destruct Hin as [<-|[]]. exists "theme", theme.
      split; [exact Htheme|]. split; [exact Hd|].
      split; [reflexivity|].
      split; [apply (read_back_text w Htheme)
             | apply (@transform_actual w "theme" theme Htheme)].
    + destruct (differs (state_of w reducedMotion)) eqn:Hd; [|destruct Hin].
      destruct Hin as [<-|[]]. exists "reducedMotion", reducedMotion.
      split; [exact Hmotion|]. split; [exact Hd|].
      split; [reflexivity|].
      split; [apply (read_back_text w Hmotion)
             | apply (@transform_actual w "reducedMotion" reducedMotion
                        Hmotion)].
Qed.

(** X14.  The table is consistent with itself.  Each hint has one value
    apart from its fallback (['dark'] beside ['light'] for [theme],
    ['reduce'] beside ['no-preference'] for [reducedMotion]): [transform]
    returns that value when it is given it, and the fallback for every
    other value and for a missing cookie; so [transform] of a missing
    cookie is the [fallback] the table declares, and [transform] keeps the
    values it returns. *)
Theorem transform_defaults_to_fallback
        (name : string) (hint : Hint) (value : option jstring) :
  In (name, hint) clientHints ->
  transform hint None = fallback hint
  /\ transform hint (Some (fallback hint)) = fallback hint
  /\ transform hint (Some (transform hint value)) = transform hint value
  /\ (transform hint value <> fallback hint ->
      value = Some (transform hint value))
  /\ exists other,
       other <> fallback hint
       /\ ((name = "theme" /\ other = lit "dark"
            /\ fallback hint = lit "light")
           \/ (name = "reducedMotion" /\ other = lit "reduce"
               /\ fallback hint = lit "no-preference"))
       /\ transform hint (Some other) = other
       /\ forall v, v <> Some other -> transform hint v = fallback hint.
Proof.
  intros [E|[E|[]]]; injection E as <- <-; cbn [transform fallback theme
                                                reducedMotion].
  - split; [reflexivity|]. split; [reflexivity|].
    pose proof (is_exactly_true value "dark") as Hd.
    split; [destruct (is_exactly value "dark"); reflexivity|].
    split.
    + destruct (is_exactly value "dark").
      * intros _. apply Hd. reflexivity.
      * intros H. exfalso. apply H. reflexivity.
    + exists (lit "dark"). split; [discriminate|].
      split; [left; split; [reflexivity | split; reflexivity]|].
      split; [reflexivity|].
      intros v Hv. pose proof (is_exactly_true v "dark") as Hv'.
      destruct (is_exactly v "dark"); [|reflexivity].
      exfalso. apply Hv. apply Hv'. reflexivity.
  - split; [reflexivity|]. split; [reflexivity|].
    pose proof (is_exactly_true value "reduce") as Hd.
    split; [destruct (is_exactly value "reduce"); reflexivity|].
    split.
    + destruct (is_exactly value "reduce").
      * intros _. apply Hd. reflexivity.
      * intros H. exfalso. apply H. reflexivity.
    + exists (lit "reduce"). split; [discriminate|].
      split; [right; split; [reflexivity | split; reflexivity]|].
      split; [reflexivity|].
      intros v Hv. pose proof (is_exactly_true v "reduce") as Hv'.
      destruct (is_exactly v "reduce"); [|reflexivity].
      exfalso. apply Hv. apply Hv'. reflexivity.
Qed.

Lemma transform_defaults_to_fallback_witness :
  transform reducedMotion None = lit "no-preference"
  /\ transform reducedMotion (Some (lit "REDUCE")) = lit "no-preference"
  /\ transform reducedMotion (Some (lit "reduce ")) = lit "no-preference".
Proof.
  pose proof (@transform_defaults_to_fallback "reducedMotion" reducedMotion
                (Some (lit "REDUCE")) (or_intror (or_introl eq_refl))) as H.
  split; [exact (proj1 H)|].
  destruct (proj2 (proj2 (proj2 (proj2 H))))
    as [other [_ [Hwhich [_ Hrest]]]].
  assert (Hother : other = lit "reduce").
  { destruct Hwhich as [[Hn _]|[_ [Ho _]]]; [discriminate Hn | exact Ho]. }
  subst other.
  split; apply Hrest; intros E; vm_compute in E; discriminate E.
Defined.

(* ================================================================== *)
(** * The hidden inputs of the diff form *)
(* ================================================================== *)

Import DiffView.

Lemma hiddenInputs_from (params : list (string * string))
      (acc : list Input) :
  fold_left
    (fun acc e =>
       if ((fst e =? "app1") || (fst e =? "app2"))%string then acc
       else acc ++ [ {| input_key := fst e;
                        input_type := "hidden";
                        input_name := fst e;
                        input_value := snd e |} ])
    params acc
  = acc
    ++ map (fun e => {| input_key := fst e;
                        input_type := "hidden";
                        input_name := fst e;
                        input_value := snd e |})
           (filter (fun e => negb ((fst e =? "app1") || (fst e =? "app2"))%string)
                   params).
Proof.
  revert acc; induction params as [|e params IH]; intros acc; simpl.
  - rewrite app_nil_r. reflexivity.
  - rewrite IH.
    destruct ((fst e =? "app1") || (fst e =? "app2"))%string; simpl.
    + reflexivity.
    + rewrite <- app_assoc. reflexivity.
Qed.

(** X15.  The hidden inputs of the diff form carry the search parameters
    other than [app1] and [app2], each once per occurrence and in the
    order of the URL: the fields they contribute are the parameters with
    the [app1] and [app2] entries left out, so that for every other name
    all its values survive, in order, and [app1] and [app2] contribute
    nothing; every input is of type [hidden] and keyed by its name. *)
Theorem hidden_inputs_keep_other_params (params : list (string * string)) :
  fields (hiddenInputs params)
  = filter (fun e => negb ((fst e =? "app1") || (fst e =? "app2"))%string)
           params
  /\ (forall name,
         getAll (fields (hiddenInputs params)) name
         = if ((name =? "app1") || (name =? "app2"))%string then []
           else getAll params name)
  /\ (forall i, In i (hiddenInputs params) ->
                input_type i = "hidden" /\ input_key i = input_name i).
Proof.
  unfold hiddenInputs. rewrite hiddenInputs_from. simpl app.
  set (other := fun e : string * string =>
                  negb ((fst e =? "app1") || (fst e =? "app2"))%string).
  assert (Hf : fields
                 (map (fun e => {| input_key := fst e;
                                   input_type := "hidden";
                                   input_name := fst e;
                                   input_value := snd e |})
                      (filter other params))
               = filter other params).
  { unfold fields. rewrite map_map. simpl.
    rewrite <- (map_id (filter other params)) at 2.
    apply map_ext. intros [k v]. reflexivity. }
  split; [exact Hf|]. split.
  - intros name. rewrite Hf. clear Hf. unfold getAll.
    destruct ((name =? "app1") || (name =? "app2"))%string eqn:Hn.
    + induction params as [|e params IH]; simpl; [reflexivity|].
      unfold other at 1.
      destruct ((fst e =? "app1") || (fst e =? "app2"))%string eqn:Ha;
        simpl; [exact IH|].
      destruct (String.eqb_spec (fst e) name) as [E|E]; [|exact IH].
      rewrite E, Hn in Ha. discriminate Ha.
    + induction params as [|e params IH]; simpl; [reflexivity|].
      unfold other at 1.
      destruct ((fst e =? "app1") || (fst e =? "app2"))%string eqn:Ha;
        simpl.
      * destruct (String.eqb_spec (fst e) name) as [E|E]; [|exact IH].
        rewrite E, Hn in Ha. discriminate Ha.
      * destruct (fst e =? name)%string; simpl; rewrite IH; reflexivity.
  - intros i Hi. apply in_map_iff in Hi. destruct Hi as [e [<- _]].
    split; reflexivity.
Qed.

Example hidden_inputs_of_search :
  fields (hiddenInputs DiffView.search)
  = [("tag", "a"); ("tag", "b"); ("preview", "true")].
Proof. reflexivity. Qed.

(* ================================================================== *)
(** * The cookie a hint is read from *)
(* ================================================================== *)

Import Cookies.

(** ** White space around a pair *)

Lemma trimStart_shape (s : jstring) :
  exists ws,
    s = ws ++ trimStart s /\ blank ws
    /\ forall c r, trimStart s = c :: r -> is_space c = false.
Proof.
  induction s as [|x s IH].
  - exists []. split; [reflexivity|]. split; [constructor|].
    intros c r H. discriminate H.
  - simpl. destruct (is_space x) eqn:Hx.
    + destruct IH as [ws [E [Hws Hc]]]. exists (x :: ws).
      split; [simpl; f_equal; exact E|].
      split; [constructor; assumption | exact Hc].
    + exists []. split; [reflexivity|]. split; [constructor|].
      intros c r H. injection H as <- _. exact Hx.
Qed.

(** [trim] takes white space off both ends, nothing else, and all of
    it at the end. *)
Lemma trim_shape (s : jstring) :
  exists ws ws',
    s = ws ++ trim s ++ ws' /\ blank ws /\ blank ws' /\ closed (trim s).
Proof.
  destruct (trimStart_shape s) as [ws [E [Hws _]]].
  destruct (trimStart_shape (rev (trimStart s))) as [wr [Er [Hwr Hc]]].
  exists ws, (rev wr). unfold trim, trimEnd, closed.
  split.
  - rewrite <- rev_app_distr, <- Er, rev_involutive. exact E.
  - split; [exact Hws|]. split.
    + apply Forall_rev. exact Hwr.
    + intros r c Hrc. apply (Hc c (rev r)).
      apply (f_equal (@rev N)) in Hrc.
      rewrite rev_involutive, rev_app_distr in Hrc. exact Hrc.
Qed.

Lemma closed_snoc (s : jstring) (c : N) :
  is_space c = false -> closed (s ++ [c]).
Proof.
  intros Hc s' c' H. apply app_inj_tail in H. destruct H as [_ <-]. exact Hc.
Qed.

Lemma trim_of_padded (ws ws' cn v : jstring) :
  blank ws -> blank ws' -> closed v ->
  (exists c cs, cn = c :: cs /\ is_space c = false) ->
  trim (ws ++ cn ++ 61%N :: v ++ ws') = cn ++ 61%N :: v.
Proof.
  intros Hws Hws' Hv [c [cs [-> Hc]]].
  destruct (exists_last (l := 61%N :: v)) as [s [z Hsz]]; [discriminate|].
  assert (Hz : is_space z = false).
  { destruct v as [|v0 v'].
    - change [61%N] with ([] ++ [61%N]) in Hsz. apply app_inj_tail in Hsz.
      destruct Hsz as [_ <-]. reflexivity.
    - destruct (exists_last (l := v0 :: v')) as [s' [z' Hv']];
        [discriminate|].
      rewrite Hv' in Hsz.
      change (61%N :: s' ++ [z']) with ((61%N :: s') ++ [z']) in Hsz.
      apply app_inj_tail in Hsz. destruct Hsz as [_ <-].
      exact (Hv s' z' Hv'). }
  replace (ws ++ (c :: cs) ++ 61%N :: v ++ ws')
    with (ws ++ (c :: (cs ++ s) ++ [z]) ++ ws').
  2:{ f_equal.
      change (61%N :: v ++ ws') with ((61%N :: v) ++ ws').
      rewrite Hsz. simpl. f_equal. rewrite <- !app_assoc. reflexivity. }
  rewrite trim_padded_both by assumption.
  rewrite Hsz. simpl. f_equal. rewrite <- app_assoc. reflexivity.
Qed.

(** A pair carries a cookie exactly when, trimmed, it is the name, [=]
    and the value. *)
Lemma carries_iff_trim (cn v pair : jstring) :
  (exists c cs, cn = c :: cs /\ is_space c = false) ->
  carries cn v pair <-> trim pair = cn ++ 61%N :: v.
Proof.
  intros Hcn. split.
  - intros [ws [ws' [-> [Hws [Hws' Hv]]]]]. apply trim_of_padded; assumption.
  - intros Ht. destruct (trim_shape pair) as [ws [ws' [E [Hws [Hws' Hcl]]]]].
    rewrite Ht in E, Hcl. exists ws, ws'. split.
    + rewrite <- app_assoc in E. exact E.
    + split; [exact Hws|]. split; [exact Hws'|].
      intros s c Hs. apply (Hcl (cn ++ 61%N :: s) c). rewrite Hs.
      rewrite <- app_assoc. reflexivity.
Qed.

Lemma matches_iff_carries (cn pair : jstring) :
  (exists c cs, cn = c :: cs /\ is_space c = false) ->
  startsWith (trim pair) (cn ++ lit "=") = true
  <-> exists v, carries cn v pair.
Proof.
  intros Hcn. rewrite startsWith_prefix. split.
  - intros [r Hr]. exists r. apply (proj2 (@carries_iff_trim cn r pair Hcn)).
    rewrite Hr, <- app_assoc. reflexivity.
  - intros [v Hv]. exists v.
    rewrite (proj1 (@carries_iff_trim cn v pair Hcn) Hv), <- app_assoc.
    reflexivity.
Qed.

(** ** The first pair carrying the name is the segment [find] returns *)

Lemma cookie_value_found (cn s v : jstring) :
  (exists c cs, cn = c :: cs /\ is_space c = false) ->
  cookie_value s cn v ->
  Array_find (fun c => startsWith c (cn ++ lit "="))
             (map trim (split 59%N s))
  = Some (cn ++ 61%N :: v).
Proof.
  intros Hcn [before [pair [tail [-> [Hbefore [Hpair [Htail Hcar]]]]]]].
  unfold Array_find.
  induction Hbefore as [|o before [Ho Hno] _ IH].
  - cbn [List.concat map]. rewrite app_nil_l.
    destruct (@split_head 59%N pair tail Hpair Htail) as [pieces ->].
    cbn [map find].
    rewrite (proj1 (@carries_iff_trim cn v pair Hcn) Hcar).
    change (cn ++ 61%N :: v) with (cn ++ lit "=" ++ v).
    rewrite app_assoc, startsWith_app. reflexivity.
  - cbn [List.concat map].
    replace (((o ++ [59%N]) ++ List.concat (map (fun c => c ++ [59%N]) before))
             ++ pair ++ tail)
      with (o ++ 59%N
              :: (List.concat (map (fun c => c ++ [59%N]) before)
                  ++ pair ++ tail))
      by (rewrite <- !app_assoc; reflexivity).
    rewrite split_app_sep by exact Ho. cbn [map find].
    destruct (startsWith (trim o) (cn ++ lit "=")) eqn:Hm.
    + exfalso. apply Hno. apply (proj1 (@matches_iff_carries cn o Hcn)).
      exact Hm.
    + exact IH.
Qed.

Lemma found_cookie_value (cn : jstring) (n : nat) :
  (exists c cs, cn = c :: cs /\ is_space c = false) ->
  forall (s c : jstring),
    (List.length s <= n)%nat ->
    Array_find (fun c => startsWith c (cn ++ lit "="))
               (map trim (split 59%N s))
    = Some c ->
    exists v, c = cn ++ 61%N :: v /\ cookie_value s cn v.
Proof.
  intros Hcn. unfold Array_find.
  induction n as [|n IH]; intros s c Hlen Hfind.
  - destruct s as [|x s]; [|simpl in Hlen; lia].
    cbn [split map find] in Hfind.
    destruct (startsWith (trim []) (cn ++ lit "=")) eqn:Hm;
      [|discriminate Hfind].
    injection Hfind as <-.
    pose proof Hm as Hr. apply startsWith_prefix in Hr. destruct Hr as [r Hr].
    rewrite <- app_assoc in Hr. change (lit "=" ++ r) with (61%N :: r) in Hr.
    exists r. split; [exact Hr|].
    exists [], [], []. split; [reflexivity|]. split; [constructor|].
    split; [intros []|]. split; [left; reflexivity|].
    apply (proj2 (@carries_iff_trim cn r [] Hcn)). exact Hr.
  - destruct (split_shape 59%N s) as [[Hno Hs]|[k [r [Hsk [Hk Hs]]]]].
    + rewrite Hs in Hfind. cbn [map find] in Hfind.
      destruct (startsWith (trim s) (cn ++ lit "=")) eqn:Hm;
        [|discriminate Hfind].
      injection Hfind as <-.
      pose proof Hm as Hr. apply startsWith_prefix in Hr.
      destruct Hr as [v Hv].
      rewrite <- app_assoc in Hv. change (lit "=" ++ v) with (61%N :: v) in Hv.
      exists v. split; [exact Hv|].
      exists [], s, []. split; [rewrite app_nil_r; reflexivity|].
      split; [constructor|]. split; [exact Hno|]. split; [left; reflexivity|].
      apply (proj2 (@carries_iff_trim cn v s Hcn)). exact Hv.
    + rewrite Hs in Hfind. cbn [map find] in Hfind.
      destruct (startsWith (trim k) (cn ++ lit "=")) eqn:Hm.
      * injection Hfind as <-.
        pose proof Hm as Hr. apply startsWith_prefix in Hr.
        destruct Hr as [v Hv].
        rewrite <- app_assoc in Hv.
        change (lit "=" ++ v) with (61%N :: v) in Hv.
        exists v. split; [exact Hv|].
        exists [], k, (59%N :: r). split; [exact Hsk|].
        split; [constructor|]. split; [exact Hk|].
        split; [right; exists r; reflexivity|].
        apply (proj2 (@carries_iff_trim cn v k Hcn)). exact Hv.
      * assert (Hlen' : (List.length r <= n)%nat).
        { rewrite Hsk, length_app in Hlen. simpl in Hlen. lia. }
        destruct (IH r c Hlen' Hfind)
          as [v [Hc [before [pair [tail [Hr [Hbefore [Hpair [Htail Hcar]]]]]]]]].
        exists v. split; [exact Hc|].
        exists (k :: before), pair, tail. split.
        { rewrite Hsk, Hr. cbn [List.concat map].
          rewrite <- !app_assoc. reflexivity. }
        split.
        { constructor; [|exact Hbefore]. split; [exact Hk|].
          intros Hcarries.
          apply (proj2 (@matches_iff_carries cn k Hcn)) in Hcarries.
          congruence. }
        split; [exact Hpair|]. split; [exact Htail | exact Hcar].
Qed.

(** A cookie string gives a cookie at most one value. *)
Lemma cookie_value_functional (cn s v v' : jstring) :
  (exists c cs, cn = c :: cs /\ is_space c = false) ->
  cookie_value s cn v -> cookie_value s cn v' -> v = v'.
Proof.
  intros Hcn Hv Hv'.
  pose proof (@cookie_value_found cn s v Hcn Hv) as E.
  rewrite (@cookie_value_found cn s v' Hcn Hv') in E.
  injection E as E. apply app_inv_head in E. injection E as E. symmetry.
  exact E.
Qed.

Lemma up_to_equals_split (v text : jstring) :
  up_to_equals v text <-> nth_error (split 61%N v) 0 = Some text.
Proof.
  unfold up_to_equals.
  destruct (split_shape 61%N v) as [[Hno Hs]|[k [r [Hv [Hk Hs]]]]];
    rewrite Hs; cbn [nth_error]; split.
  - intros [Ht [E|[rest E]]]; [congruence|].
    exfalso. apply Hno. rewrite E. apply in_or_app. right. left. reflexivity.
  - intros [= <-]. split; [exact Hno | left; reflexivity].
  - intros [Ht [E|[rest E]]].
    + exfalso. apply Ht. rewrite <- E, Hv. apply in_or_app. right. left.
      reflexivity.
    + f_equal. rewrite Hv in E.
      exact (@name_before_sep 61%N k text r rest Hk Ht E).
  - intros [= <-]. split; [exact Hk | right; exists r; exact Hv].
Qed.

(** What [getCookieValue] returns for a hint: the value of its cookie up
    to the first [=] of that value, and [null] when the cookie string has
    no such cookie. *)
Lemma getCookieValue_value (name : string) (hint : Hint) (s : jstring) :
  In (name, hint) clientHints ->
  exists r,
    getCookieValue s name = Ok r
    /\ forall text,
        r = Some text
        <-> exists value,
              cookie_value s (cookieName hint) value
              /\ up_to_equals value text.
Proof.
  intros Hin.
  destruct (hint_cookieName_shape Hin) as [Hget [_ [Hn61 Hcn]]].
  unfold getCookieValue. rewrite Hget.
  destruct (Array_find (fun c => startsWith c (cookieName hint ++ lit "="))
                       (map trim (split 59%N s))) as [c|] eqn:Hfind.
  - destruct (@found_cookie_value (cookieName hint) (List.length s) Hcn
                s c (le_n _) Hfind) as [v [-> Hv]].
    eexists. split; [reflexivity|]. intros text.
    rewrite split_app_sep by exact Hn61.
    change (nth_error (cookieName hint :: split 61%N v) 1)
      with (nth_error (split 61%N v) 0).
    rewrite <- up_to_equals_split. split.
    + intros H. exists v. split; assumption.
    + intros [value [Hvalue Hup]].
      rewrite (@cookie_value_functional (cookieName hint) s v value Hcn
                 Hv Hvalue).
      exact Hup.
  - eexists. split; [reflexivity|]. intros text. split; [discriminate|].
    intros [value [Hvalue _]].
    rewrite (@cookie_value_found (cookieName hint) s value Hcn Hvalue)
      in Hfind.
    discriminate Hfind.
Qed.

(** The cookie string ["KCDShop_CH-prefers-color-scheme=dark=x"] gives the
    theme cookie the value ["dark=x"], and no other. *)
Lemma cut_cookie_value (value : jstring) :
  cookie_value Fixtures.cut_cookie (cookieName theme) value
  <-> value = lit "dark=x".
Proof.
  assert (H : cookie_value Fixtures.cut_cookie (cookieName theme)
                           (lit "dark=x")).
  { exists [], Fixtures.cut_cookie, []. split; [reflexivity|].
    split; [constructor|].
    split; [apply not_In_of_forallb; reflexivity|].
    split; [left; reflexivity|].
    exists [], []. split; [reflexivity|]. split; [constructor|].
    split; [constructor|].
    exact (@closed_snoc (lit "dark=") 120%N eq_refl). }
  split.
  - intros Hv.
    refine (@cookie_value_functional (cookieName theme) Fixtures.cut_cookie
              value (lit "dark=x") _ Hv H).
    eexists. eexists. split; reflexivity.
  - intros ->. exact H.
Qed.

(** A cookie after another one, with white space before it: the value is
    that of the pair carrying the name, the pair before it is passed
    over. *)
Example cookie_value_of_second_pair :
  cookie_value Fixtures.both_cookies (cookieName reducedMotion)
               (lit "reduce").
Proof.
  exists [lit "KCDShop_CH-prefers-color-scheme=dark"],
         (lit " KCDShop_CH-reduced-motion=reduce"), [].
  split; [reflexivity|]. split.
  - constructor; [|constructor].
    split; [apply not_In_of_forallb; reflexivity|].
    intros Hc.
    apply (proj2 (@matches_iff_carries (cookieName reducedMotion)
                    (lit "KCDShop_CH-prefers-color-scheme=dark")
                    (ex_intro _ _ (ex_intro _ _ (conj eq_refl eq_refl)))))
      in Hc.
    vm_compute in Hc. discriminate Hc.
  - split; [apply not_In_of_forallb; reflexivity|].
    split; [left; reflexivity|].
    exists (lit " "), []. split; [reflexivity|].
    split; [constructor; [reflexivity | constructor]|].
    split; [constructor|].
    exact (@closed_snoc (lit "reduc") 101%N eq_refl).
Qed.

(** C10.  Whatever the document, the request and the cookie string are,
    [getCookieValue] returns for both hint names and [getHints] returns an
    object with the two properties [theme] and [reducedMotion].  What
    [getCookieValue] returns is the value of the cookie of the hint up to
    the first [=] of that value, [null] when the cookie string has no such
    cookie.  So [theme] is ['dark'] exactly when the value of the theme
    cookie, up to its first [=], is ['dark'], and ['light'] in every other
    case; [reducedMotion] is ['reduce'] exactly when the value of that
    cookie, up to its first [=], is ['reduce'], and ['no-preference'] in
    every other case. *)
Theorem getHints_total_and_cut
        (document_cookie : option jstring)
        (request : option (option jstring)) :
  let cookieString := cookieString_of document_cookie request in
  exists themeValue motionValue themeHint motionHint,
    getCookieValue cookieString "theme" = Ok themeValue
    /\ getCookieValue cookieString "reducedMotion" = Ok motionValue
    /\ getHints document_cookie request
       = Ok [("theme", themeHint); ("reducedMotion", motionHint)]
    /\ (forall text,
          themeValue = Some text
          <-> exists value,
                cookie_value cookieString (cookieName theme) value
                /\ up_to_equals value text)
    /\ (forall text,
          motionValue = Some text
          <-> exists value,
                cookie_value cookieString (cookieName reducedMotion) value
                /\ up_to_equals value text)
    /\ (themeHint = lit "dark"
        <-> exists value,
              cookie_value cookieString (cookieName theme) value
              /\ up_to_equals value (lit "dark"))
    /\ (themeHint = lit "light"
        <-> ~ exists value,
                cookie_value cookieString (cookieName theme) value
                /\ up_to_equals value (lit "dark"))
    /\ (motionHint = lit "reduce"
        <-> exists value,
              cookie_value cookieString (cookieName reducedMotion) value
              /\ up_to_equals value (lit "reduce"))
    /\ (motionHint = lit "no-preference"
        <-> ~ exists value,
                cookie_value cookieString (cookieName reducedMotion) value
                /\ up_to_equals value (lit "reduce")).
Proof.
  intros cookieString.
  destruct (@getCookieValue_value "theme" theme cookieString
              (or_introl eq_refl)) as [tv [Ht Htv]].
  destruct (@getCookieValue_value "reducedMotion" reducedMotion cookieString
              (or_intror (or_introl eq_refl))) as [mv [Hm Hmv]].
  exists tv, mv, (transform theme tv), (transform reducedMotion mv).
  split; [exact Ht|]. split; [exact Hm|].
  split; [exact (@getHints_of_values document_cookie request tv mv Ht Hm)|].
  split; [exact Htv|]. split; [exact Hmv|].
  rewrite <- (Htv (lit "dark")), <- (Hmv (lit "reduce")).
  unfold theme, reducedMotion. cbn [transform].
  pose proof (is_exactly_true tv "dark") as Hd.
  pose proof (is_exactly_true mv "reduce") as Hr.
  destruct (is_exactly tv "dark"); destruct (is_exactly mv "reduce");
    repeat split; intros H;
    try reflexivity; try (apply Hd; reflexivity); try (apply Hr; reflexivity);
    try discriminate H;
    try (exfalso; apply H; apply Hd; reflexivity);
    try (exfalso; apply H; apply Hr; reflexivity);
    try (apply Hd in H; discriminate H);
    try (apply Hr in H; discriminate H);
    try (intros H'; apply Hd in H'; discriminate H');
    try (intros H'; apply Hr in H'; discriminate H').
Qed.

Lemma getHints_total_and_cut_witness :
  cookie_value Fixtures.cut_cookie (cookieName theme) (lit "dark=x")
  /\ exists themeHint motionHint,
       getHints None (Some (Some Fixtures.cut_cookie))
       = Ok [("theme", themeHint); ("reducedMotion", motionHint)]
       /\ themeHint = lit "dark" /\ motionHint = lit "no-preference".
Proof.
  pose proof (proj2 (cut_cookie_value (lit "dark=x")) eq_refl) as Hvalue.
  split; [exact Hvalue|].
  destruct (getHints_total_and_cut None (Some (Some Fixtures.cut_cookie)))
    as [tv [mv [th [mh [_ [Hm [Hg [_ [Hmv [Hd [_ [_ Hn]]]]]]]]]]]].
  exists th, mh. split; [exact Hg|]. split.
  - apply Hd. exists (lit "dark=x"). split; [exact Hvalue|].
    split; [apply not_In_of_forallb; reflexivity|].
    right. exists (lit "x"). reflexivity.
  - apply Hn. intros [value [Hv Hup]].
    assert (E : mv = Some (lit "reduce")).
    { apply Hmv. exists value. split; assumption. }
    rewrite E in Hm. vm_compute in Hm. discriminate Hm.
Defined.

(** C10, as stated, fails: in the cookie string
    ["KCDShop_CH-prefers-color-scheme=dark=x"] the value of the theme
    cookie is ["dark=x"], not ['dark'], and [getHints] returns the theme
    ['dark']. *)
Lemma cut_value_is_read_as_dark :
  ~ (forall (document_cookie : option jstring)
            (request : option (option jstring))
            (value themeHint motionHint : jstring),
        getHints document_cookie request
        = Ok [("theme", themeHint); ("reducedMotion", motionHint)] ->
        cookie_value (cookieString_of document_cookie request)
                     (cookieName theme) value ->
        (themeHint = lit "dark" -> value = lit "dark")
        /\ (value <> lit "dark" -> themeHint = lit "light")).
Proof.
  intros H.
  destruct (H None (Some (Some Fixtures.cut_cookie)) (lit "dark=x")
              (lit "dark") (lit "no-preference") eq_refl
              (proj2 (cut_cookie_value (lit "dark=x")) eq_refl))
    as [Hdark _].
  specialize (Hdark eq_refl). vm_compute in Hdark. discriminate Hdark.
Qed.
